(** * Order-query front end: a shallow embedding and its properties

    The development follows the React client of the order-query agent:
    [services/api.js] (the HTTP client), [components/ChatPanel.jsx]
    (submission of a query), [components/Message.jsx] and the results panel
    (rendering of a response envelope) and [components/StatsPanel.jsx]
    (rendering of the model diagnostics).  The Python pipeline that produces
    the envelopes is not part of the sources; where a property is about it,
    the pipeline is modelled from its specification, in module [Pipeline]. *)

From Stdlib Require Import List ZArith NArith QArith Bool String Ascii Lia.
From Stdlib Require Import Sorted Permutation DecimalString Floats Reals Psatz.
Import ListNotations.

Set Warnings "-register-all".

Local Open Scope Z_scope.
Local Open Scope list_scope.

(** ** The JavaScript platform *)

Module JS.

(** A JavaScript string is a sequence of UTF-16 code units. *)
Definition jstr := list N.

(** An ASCII literal of the source text, as code units. *)
Definition str (s : string) : jstr :=
  map N_of_ascii (list_ascii_of_string s).

(** [Number::toString] on an integer-valued number (radix 10).  Counts,
    identifiers and HTTP statuses are integers far below 10^21, where the
    platform prints plain decimal digits. *)
Definition Number_toString (n : Z) : jstr :=
  str (NilZero.string_of_int (Z.to_int n)).

(** [Number.prototype.toFixed(f)] on a finite number [m * 2^e]: the integer
    [n] for which [n / 10^f] is nearest to the number, the larger one on a
    tie. *)
Definition scaled_nearest (f : nat) (m : positive) (e : Z) : Z :=
  let num := Z.pos m * 10 ^ Z.of_nat f in
  if 0 <=? e then num * 2 ^ e else (2 * num + 2 ^ (- e)) / (2 * 2 ^ (- e)).

Definition at_least_1e21 (m : positive) (e : Z) : bool :=
  if 0 <=? e then 10 ^ 21 <=? Z.pos m * 2 ^ e else 10 ^ 21 * 2 ^ (- e) <=? Z.pos m.

(** The digits of [n] with the decimal point before the last [f] of them,
    zero-padded on the left when there are too few. *)
Definition pad_fraction (f : nat) (digits : jstr) : jstr :=
  match f with
  | O => digits
  | S _ =>
      let k := List.length digits in
      let m := if (k <=? f)%nat then repeat 48%N (f + 1 - k) ++ digits else digits in
      let k' := List.length m in
      firstn (k' - f) m ++ [46%N] ++ skipn (k' - f) m
  end.

(** [Number.prototype.toFixed].  A magnitude of 10^21 or more falls back on
    [Number::toString] with an exponent, which is outside this model: there
    the result is [None]. *)
Definition Number_toFixed (f : nat) (x : float) : option jstr :=
  match Prim2SF x with
  | S754_nan => Some (str "NaN")
  | S754_infinity s => Some (if s then str "-Infinity" else str "Infinity")
  | S754_zero _ => Some (pad_fraction f (str "0"))
  | S754_finite s m e =>
      if at_least_1e21 m e then None
      else Some ((if s then str "-" else []) ++
                 pad_fraction f (Number_toString (scaled_nearest f m e)))
  end.

(** [Array.prototype.sort] with a comparison function, whose result is read
    by its sign.  The sort is stable; for a consistent comparison function
    that fixes the result, computed here by insertion. *)
Section Sort.
Context {A : Type} (comparefn : A -> A -> comparison).

Fixpoint sort_insert (x : A) (l : list A) : list A :=
  match l with
  | [] => [x]
  | y :: rest =>
      match comparefn x y with
      | Gt => y :: sort_insert x rest
      | _ => x :: l
      end
  end.

Fixpoint Array_sort (l : list A) : list A :=
  match l with
  | [] => []
  | x :: rest => sort_insert x (Array_sort rest)
  end.

End Sort.

(** The sign of a number, as a comparison function returns it. *)
Definition sign_Z (d : Z) : comparison := d ?= 0.
Definition sign_Q (d : Q) : comparison := (d ?= 0)%Q.

(** [Array.prototype.find]. *)
Fixpoint Array_find {A} (p : A -> bool) (l : list A) : option A :=
  match l with
  | [] => None
  | x :: rest => if p x then Some x else Array_find p rest
  end.

(** [Array.prototype.join] on an array of strings. *)
Fixpoint join (sep : jstr) (l : list jstr) : jstr :=
  match l with
  | [] => []
  | [x] => x
  | x :: rest => x ++ sep ++ join sep rest
  end.

(** White space and line terminators of ECMAScript, which
    [String.prototype.trim] strips. *)
Definition is_ws (c : N) : bool :=
  match c with
  | 9 | 10 | 11 | 12 | 13 | 32 | 160 | 5760 | 8232 | 8233 | 8239 | 8287
  | 12288 | 65279 => true
  | _ => ((8192 <=? c) && (c <=? 8202))%N
  end%N.

Fixpoint trimStart (s : jstr) : jstr :=
  match s with
  | [] => []
  | c :: rest => if is_ws c then trimStart rest else s
  end.

Definition trimEnd (s : jstr) : jstr := rev (trimStart (rev s)).

Definition trim (s : jstr) : jstr := trimEnd (trimStart s).

(** A string is truthy when it is not empty. *)
Definition truthy (s : jstr) : bool :=
  match s with [] => false | _ :: _ => true end.

Definition jstr_eqb (a b : jstr) : bool :=
  if list_eq_dec N.eq_dec a b then true else false.

(** Thrown values: the error classes the client can meet, each carrying its
    [message]. *)
Inductive exn : Type :=
| Error (message : jstr)
| TypeError (message : jstr)
| SyntaxError (message : jstr).

Definition message (e : exn) : jstr :=
  match e with
  | Error m | TypeError m | SyntaxError m => m
  end.

(** JSON values.  Numbers are the integers; an object is the list of its
    entries in enumeration order. *)
Inductive json : Type :=
| JNull
| JBool (b : bool)
| JNum (n : Z)
| JStr (s : jstr)
| JArr (items : list json)
| JObj (entries : list (jstr * json)).

Definition hex_digit (d : N) : N :=
  (if d <? 10 then 48 + d else 87 + d)%N.

(** [UnicodeEscape]: backslash, [u] and four lower-case hexadecimal digits. *)
Definition UnicodeEscape (c : N) : jstr :=
  [92; 117;
   hex_digit ((c / 4096) mod 16); hex_digit ((c / 256) mod 16);
   hex_digit ((c / 16) mod 16); hex_digit (c mod 16)]%N.

Definition is_high_surrogate (c : N) : bool := ((55296 <=? c) && (c <=? 56319))%N.
Definition is_low_surrogate (c : N) : bool := ((56320 <=? c) && (c <=? 57343))%N.

Definition escape_unit (c : N) : jstr :=
  match c with
  | 8 => [92; 98]
  | 9 => [92; 116]
  | 10 => [92; 110]
  | 12 => [92; 102]
  | 13 => [92; 114]
  | 34 => [92; 34]
  | 92 => [92; 92]
  | _ => if (c <? 32)%N then UnicodeEscape c else [c]
  end%N.

(** The body of [QuoteJSONString]: a surrogate pair is kept, a lone surrogate
    is escaped, every other code unit goes through [escape_unit]. *)
Fixpoint quote_units (s : jstr) : jstr :=
  match s with
  | [] => []
  | c :: rest =>
      if is_high_surrogate c then
        match rest with
        | d :: rest' =>
            if is_low_surrogate d then c :: d :: quote_units rest'
            else UnicodeEscape c ++ quote_units rest
        | [] => UnicodeEscape c
        end
      else if is_low_surrogate c then UnicodeEscape c ++ quote_units rest
      else escape_unit c ++ quote_units rest
  end.

Definition QuoteJSONString (s : jstr) : jstr := [34%N] ++ quote_units s ++ [34%N].

(** [JSON.stringify] without indentation. *)
Fixpoint JSON_stringify (v : json) : jstr :=
  match v with
  | JNull => str "null"
  | JBool true => str "true"
  | JBool false => str "false"
  | JNum n => Number_toString n
  | JStr s => QuoteJSONString s
  | JArr items =>
      str "[" ++ join (str ",") (map JSON_stringify items) ++ str "]"
  | JObj entries =>
      str "{" ++
      join (str ",")
        (map (fun kv => QuoteJSONString (fst kv) ++ str ":" ++ JSON_stringify (snd kv))
             entries) ++
      str "}"
  end.

(** [ToString] on a JSON value, as a template literal or [String(v)] applies
    it. *)
Fixpoint ToString (v : json) : jstr :=
  match v with
  | JNull => str "null"
  | JBool true => str "true"
  | JBool false => str "false"
  | JNum n => Number_toString n
  | JStr s => s
  | JArr items =>
      join (str ",")
        (map (fun x => match x with JNull => [] | _ => ToString x end) items)
  | JObj _ => str "[object Object]"
  end.

(** *** Fetch *)

Record Request : Type := mkRequest {
  url : jstr;
  method : jstr;
  headers : list (jstr * jstr);
  body : option jstr
}.

(** The second argument of [fetch]; an absent member keeps the default. *)
Record RequestInit : Type := mkInit {
  init_method : option jstr;
  init_headers : list (jstr * jstr);
  init_body : option jstr
}.

Definition no_init : RequestInit := mkInit None [] None.

Definition new_Request (u : jstr) (i : RequestInit) : Request :=
  mkRequest u
            (match init_method i with Some m => m | None => str "GET" end)
            (init_headers i) (init_body i).

(** A response: its status and its body as [res.json()] reads it, the parsed
    value or, for a body that is not JSON, the message of the [SyntaxError]
    it rejects with. *)
Record Response (B : Type) : Type := mkResponse {
  status : Z;
  json_body : jstr + B
}.
Arguments mkResponse {B} _ _.
Arguments status {B} _.
Arguments json_body {B} _.

(** [Response.ok]: the status is in the range 200-299. *)
Definition ok {B} (r : Response B) : bool :=
  (200 <=? status r) && (status r <=? 299).

(** What the network answers to a request: a response, or the message of the
    [TypeError] that [fetch] rejects with when no response arrives. *)
Definition Network (B : Type) : Type := Request -> jstr + Response B.

(** Asynchronous client code: it reads the network, logs the requests it
    sends and either throws or returns. *)
Definition Async (B A : Type) : Type := Network B -> list Request * (exn + A).

Definition ret {B A} (a : A) : Async B A := fun _ => ([], inr a).

Definition throw {B A} (e : exn) : Async B A := fun _ => ([], inl e).

Definition bind {B A C} (m : Async B A) (k : A -> Async B C) : Async B C :=
  fun net =>
    match m net with
    | (log, inl e) => (log, inl e)
    | (log, inr a) => let (log', r) := k a net in (log ++ log', r)
    end.

Definition fetch {B} (u : jstr) (i : RequestInit) : Async B (Response B) :=
  fun net =>
    let rq := new_Request u i in
    ([rq], match net rq with inl m => inl (TypeError m) | inr res => inr res end).

Definition Response_json {B} (r : Response B) : Async B B :=
  fun _ =>
    ([], match json_body r with inl m => inl (SyntaxError m) | inr v => inr v end).

End JS.

Import JS.

Notation "'await' x <- m ;; k" := (bind m (fun x => k))
  (at level 61, x name, m at next level, right associativity).

(** ** React: children with keys

    The rows of the orders table and the cards of the results panel are
    arrays of elements with a [key].  What the document shows after a
    render is decided by React's reconciliation of such an array with the
    fibers of the previous render (reconcileChildrenArray) and by the
    commit of the resulting deletions and placements.  An element carries
    its key and its props; a fiber carries, besides, the document node it
    owns.  React compares keys as strings; the keys here are the decimal
    forms of integers, which are equal exactly when the integers are, so a
    key is kept as the integer.  All children of one array have the same
    element type, so a fiber whose key matches is always reused. *)

Module React.

Section Children.
Context {P : Type}.

Record Element : Type := mkElement { key : Z; props : P }.

Record Fiber : Type := mkFiber { node : nat; fkey : Z; fprops : P }.

(** The children of one parent: the current fibers, the child nodes of the
    parent's document node in document order, what each node that was ever
    created shows (latest first), and the next unused node. *)
Record Host : Type := mkHost {
  fibers : list Fiber;
  dom : list nat;
  content : list (nat * P);
  next : nat
}.

Definition unmounted : Host := mkHost [] [] [] 0%nat.

(** useFiber: the fiber keeps its node and takes the element's props. *)
Definition update (f : Fiber) (e : Element) : Fiber := mkFiber (node f) (key e) (props e).

(** The first loop: old fibers and new elements are walked in step for as
    long as the keys agree (updateSlot returns null on the first
    difference).  The result is the updated fibers and what is left of
    both lists. *)
Fixpoint first_pass (old : list Fiber) (new : list Element)
  : list Fiber * (list Fiber * list Element) :=
  match old, new with
  | f :: old', e :: new' =>
      if fkey f =? key e then
        let '(kept, rest) := first_pass old' new' in (update f e :: kept, rest)
      else ([], (old, new))
  | _, _ => ([], (old, new))
  end.

(** A JavaScript [Map] from keys to fibers with their old index: [set]
    on a key that is present replaces its value. *)
Definition Existing : Type := list (Z * (nat * Fiber)).

Fixpoint map_set (k : Z) (v : nat * Fiber) (m : Existing) : Existing :=
  match m with
  | [] => [(k, v)]
  | (k', v') :: rest => if k =? k' then (k, v) :: rest else (k', v') :: map_set k v rest
  end.

Fixpoint map_get (k : Z) (m : Existing) : option (nat * Fiber) :=
  match m with
  | [] => None
  | (k', v) :: rest => if k =? k' then Some v else map_get k rest
  end.

Fixpoint map_delete (k : Z) (m : Existing) : Existing :=
  match m with
  | [] => []
  | (k', v) :: rest => if k =? k' then rest else (k', v) :: map_delete k rest
  end.

(** mapRemainingChildren: of two old fibers with one key the map holds
    the later one only. *)
Fixpoint mapRemainingChildren (index : nat) (old : list Fiber) (m : Existing) : Existing :=
  match old with
  | [] => m
  | f :: rest => mapRemainingChildren (S index) rest (map_set (fkey f) (index, f) m)
  end.

(** The second loop (updateFromMap and placeChild): an element whose key
    is in the map reuses that fiber, which is taken out of the map and is
    marked for placement when its old index is below [lastPlacedIndex];
    an element whose key is not in the map gets a new fiber on a new
    node, marked for placement.  The result is the fibers with their
    mark, the map that is left and the next unused node. *)
Fixpoint second_pass (new : list Element) (m : Existing) (lastPlacedIndex next : nat)
  : list (Fiber * bool) * (Existing * nat) :=
  match new with
  | [] => ([], (m, next))
  | e :: rest =>
      match map_get (key e) m with
      | Some (oldIndex, f) =>
          if (oldIndex <? lastPlacedIndex)%nat then
            let '(work, r) := second_pass rest (map_delete (key e) m) lastPlacedIndex next in
            ((update f e, true) :: work, r)
          else
            let '(work, r) := second_pass rest (map_delete (key e) m) oldIndex next in
            ((update f e, false) :: work, r)
      | None =>
          let '(work, r) := second_pass rest m lastPlacedIndex (S next) in
          ((mkFiber next (key e) (props e), true) :: work, r)
      end
  end.

(** The document operations on the child nodes of the parent. *)
Definition removeChild (x : nat) (l : list nat) : list nat :=
  filter (fun y => negb (y =? x)%nat) l.

Fixpoint insert_at (x before : nat) (l : list nat) : list nat :=
  match l with
  | [] => [x]
  | y :: rest => if (y =? before)%nat then x :: y :: rest else y :: insert_at x before rest
  end.

Definition insertBefore (x before : nat) (l : list nat) : list nat :=
  insert_at x before (removeChild x l).

Definition appendChild (x : nat) (l : list nat) : list nat := removeChild x l ++ [x].

(** getHostSibling: the node of the nearest later sibling that is not
    itself marked for placement. *)
Fixpoint next_stable (work : list (Fiber * bool)) : option nat :=
  match work with
  | [] => None
  | (f, placed) :: rest => if placed then next_stable rest else Some (node f)
  end.

(** commitPlacement, for the fibers in their order: a marked fiber's node
    is inserted before that sibling, or appended when there is none. *)
Fixpoint place (work : list (Fiber * bool)) (d : list nat) : list nat :=
  match work with
  | [] => d
  | (f, placed) :: rest =>
      place rest
        (if placed then
           match next_stable rest with
           | Some before => insertBefore (node f) before d
           | None => appendChild (node f) d
           end
         else d)
  end.

(** What follows the first loop.  When it used up the new elements, the
    old fibers that are left are deleted.  Otherwise the second loop runs
    with the map of the old fibers that are left, and the fibers still in
    the map at its end are deleted.  The result is the new fibers with
    their mark, the nodes of the deleted fibers and the next unused node.
    [lastPlacedIndex] starts at the index of the last fiber the first loop
    kept, or at 0.  An old fiber that the map lost to a later fiber with
    its key is neither reused nor deleted. *)
Definition remaining (kept : nat) (rest_old : list Fiber) (rest_new : list Element)
           (next : nat) : list (Fiber * bool) * (list nat * nat) :=
  match rest_new with
  | [] => ([], (map node rest_old, next))
  | _ =>
      let '(work, (m, n)) :=
        second_pass rest_new (mapRemainingChildren kept rest_old [])
                    (Nat.pred kept) next in
      (work, (map (fun kv => node (snd (snd kv))) m, n))
  end.

(** One render of the parent with the children [new]: the reconciliation,
    then the commit, which removes the nodes of the deleted fibers and
    places the marked ones. *)
Definition reconcile (host : Host) (new : list Element) : Host :=
  let '(kept, (rest_old, rest_new)) := first_pass (fibers host) new in
  let '(work, (deletions, next')) :=
    remaining (List.length kept) rest_old rest_new (next host) in
  let all := map (fun f => (f, false)) kept ++ work in
  mkHost (map fst all)
         (place all (fold_right removeChild (dom host) deletions))
         (map (fun w => (node (fst w), fprops (fst w))) all ++ content host)
         next'.

(** A render in which the parent is not part of the tree unmounts it with
    its children; the next render with children mounts them afresh. *)
Definition commit (children : option (list Element)) (host : Host) : Host :=
  match children with
  | Some new => reconcile host new
  | None => unmounted
  end.

Fixpoint shows (id : nat) (c : list (nat * P)) : option P :=
  match c with
  | [] => None
  | (id', p) :: rest => if (id =? id')%nat then Some p else shows id rest
  end.

(** What the document shows under the parent, in document order. *)
Definition displayed (host : Host) : list P :=
  flat_map (fun id => match shows id (content host) with Some p => [p] | None => [] end)
           (dom host).

End Children.

End React.

(** ** services/api.js *)

Module Api.

Definition API_BASE : jstr := str "/api".

Section Client.
Context {B : Type}.

Definition queryAgent (query : jstr) : Async B B :=
  await res <- fetch (API_BASE ++ str "/query")
                 (mkInit (Some (str "POST"))
                         [(str "Content-Type", str "application/json")]
                         (Some (JSON_stringify (JObj [(str "query", JStr query)])))) ;;
  if negb (ok res) then throw (Error (str "API error: " ++ Number_toString (status res)))
  else Response_json res.

Definition getStats : Async B B :=
  await res <- fetch (API_BASE ++ str "/stats") no_init ;;
  if negb (ok res) then throw (Error (str "API error: " ++ Number_toString (status res)))
  else Response_json res.

End Client.

End Api.

(** ** The data the client receives *)

Record Order : Type := mkOrder {
  order_id : Z;
  buyer : jstr;
  city : jstr;
  state : jstr;
  items : list jstr;
  total : float
}.

(** An entry of [ml_predictions], with the members the client reads. *)
Record Prediction : Type := mkPrediction {
  pred_order_id : Z;
  reorder_probability : float;
  prediction : jstr
}.

(** The response envelope.  A member the client guards with [||] or [?.]
    may be absent; [filters_applied] lists its entries in the order
    [Object.entries] enumerates them. *)
Record ResponseEnvelope : Type := mkEnvelope {
  success : bool;
  total_parsed : Z;
  total_matched : Z;
  filters_applied : option (list (jstr * json));
  orders : list Order;
  validation_warnings : option (list jstr);
  ml_predictions : option (list Prediction);
  error : option jstr
}.

(** An optional string inside a template literal. *)
Definition template (o : option jstr) : jstr :=
  match o with Some s => s | None => str "undefined" end.

(** [x || {}] followed by [Object.entries] (or [Object.keys]). *)
Definition entries_or_empty (o : option (list (jstr * json))) : list (jstr * json) :=
  match o with Some l => l | None => [] end.

(** [(a, b) => a.order_id - b.order_id] *)
Definition by_order_id (a b : Order) : comparison :=
  sign_Z (order_id a - order_id b).

(** ** components/Message.jsx *)

Module Message.

Record Props : Type := mkProps {
  role : jstr;
  content : jstr;
  result : option ResponseEnvelope
}.

(** A row of the orders table. *)
Record Row : Type := mkRow {
  row_key : Z;
  id_cell : Z;
  buyer_cell : jstr;
  state_cell : jstr;
  total_cell : option jstr;
  items_cell : jstr
}.

Definition render_row (order : Order) : Row :=
  mkRow (order_id order) (order_id order) (buyer order) (state order)
        (option_map (fun t => str "$" ++ t) (Number_toFixed 2 (total order)))
        (join (str ", ") (items order)).

(** What a message bubble shows: its text, the orders table when there is
    one, the warning badges when there are some. *)
Record View : Type := mkView {
  isUser : bool;
  text : jstr;
  table : option (list Row);
  warnings : option (list jstr)
}.

Definition Message (props : Props) : View :=
  mkView (jstr_eqb (role props) (str "user"))
         (content props)
         (match result props with
          | Some r =>
              if success r && (0 <? List.length (orders r))%nat
              then Some (map render_row (Array_sort by_order_id (orders r)))
              else None
          | None => None
          end)
         (match result props with
          | Some r =>
              match validation_warnings r with
              | Some ws => if (0 <? List.length ws)%nat then Some ws else None
              | None => None
              end
          | None => None
          end).

(** The children of the table's [<tbody>]: one [<tr>] for each row, with
    [key={order.order_id}]. *)
Definition tbody (v : View) : option (list (@React.Element Row)) :=
  option_map (map (fun row => React.mkElement (row_key row) row)) (table v).

(** The rows in the document once the message is mounted and has been
    rendered [renders] more times.  The props of a message do not change:
    the chat only appends to [messages], and a message is keyed by its
    index. *)
Definition document (props : Props) (renders : nat) : @React.Host Row :=
  Nat.iter renders (React.commit (tbody (Message props)))
           (React.commit (tbody (Message props)) React.unmounted).

End Message.

(** ** The results panel *)

Module ResultsPanel.

Inductive Tab : Type := table_tab | raw_tab.

(** The reorder indicator of a card: the colour class of icon and label, and
    the label. *)
Record Indicator : Type := mkIndicator {
  indicator_class : jstr;
  indicator_text : option jstr
}.

Record Card : Type := mkCard {
  card_order : Order;
  card_total : option jstr;
  card_place : jstr;
  card_items : jstr;
  card_indicator : option Indicator
}.

Definition render_indicator (pred : Prediction) : Indicator :=
  mkIndicator
    (if jstr_eqb (prediction pred) (str "likely_reorder")
     then str "text-success" else str "text-text-tertiary")
    (option_map (fun t => t ++ str "% reorder")
                (Number_toFixed 0 (reorder_probability pred * 100)%float)).

Definition render_card (result : ResponseEnvelope) (order : Order) : Card :=
  let pred :=
    match ml_predictions result with
    | Some ps => Array_find (fun p => pred_order_id p =? order_id order) ps
    | None => None
    end in
  mkCard order
         (option_map (fun t => str "$" ++ t) (Number_toFixed 2 (total order)))
         (city order ++ str ", " ++ state order)
         (join (str ", ") (items order))
         (option_map render_indicator pred).

Inductive Content : Type :=
| NoOrders (text : jstr)
| Cards (cards : list Card)
| RawJson (value : ResponseEnvelope).

Record Panel : Type := mkPanel {
  badge : jstr;
  filter_badges : option (list jstr);
  warning_box : option (list jstr);
  content : Content
}.

Inductive View : Type :=
| Placeholder (text : jstr)
| ErrorCard (text : jstr)
| Results (panel : Panel).

Definition ResultsPanel (result : option ResponseEnvelope) (tab : Tab) : View :=
  match result with
  | None => Placeholder (str "Results will appear here after you submit a query.")
  | Some result =>
      if negb (success result)
      then ErrorCard (match error result with Some e => e | None => [] end)
      else
        Results
          (mkPanel
             (Number_toString (total_matched result) ++ str " of " ++
              Number_toString (total_parsed result) ++ str " matched")
             (if (0 <? List.length (entries_or_empty (filters_applied result)))%nat
              then Some (map (fun kv => fst kv ++ str ": " ++ ToString (snd kv))
                             (entries_or_empty (filters_applied result)))
              else None)
             (match validation_warnings result with
              | Some ws => if (0 <? List.length ws)%nat then Some ws else None
              | None => None
              end)
             (match tab with
              | table_tab =>
                  if (List.length (orders result) =? 0)%nat
                  then NoOrders (str "No orders matched your filters.")
                  else Cards (map (render_card result)
                                  (Array_sort by_order_id (orders result)))
              | raw_tab => RawJson result
              end))
  end.

(** The children of the card list: one card for each order, with
    [key={order.order_id}].  The card list is not part of the tree when the
    panel shows the placeholder, the error card, the text of an empty
    result or the raw tab. *)
Definition card_list (v : View) : option (list (@React.Element Card)) :=
  match v with
  | Results panel =>
      match content panel with
      | Cards cards =>
          Some (map (fun card => React.mkElement (order_id (card_order card)) card) cards)
      | _ => None
      end
  | _ => None
  end.

(** A render of the right pane of the application: the results panel with
    the latest result and the tab it is on, or the statistics in its
    place. *)
Inductive Frame : Type :=
| Shown (result : option ResponseEnvelope) (tab : Tab)
| Hidden.

Definition children (frame : Frame) : option (list (@React.Element Card)) :=
  match frame with
  | Shown result tab => card_list (ResultsPanel result tab)
  | Hidden => None
  end.

Definition paint (host : @React.Host Card) (frame : Frame) : @React.Host Card :=
  React.commit (children frame) host.

(** The card list in the document after a sequence of renders. *)
Definition document (frames : list Frame) : @React.Host Card :=
  fold_left paint frames React.unmounted.

End ResultsPanel.

(** ** App.jsx and components/ChatPanel.jsx *)

Module ChatPanel.

Inductive RightTab : Type := results | stats.

(** The state the chat panel works on: the [useState] cells of [App] that it
    receives through its props, and its own [input]. *)
Record State : Type := mkState {
  messages : list Message.Props;
  latestResult : option ResponseEnvelope;
  isLoading : bool;
  rightTab : RightTab;
  input : jstr
}.

Definition setInput (v : jstr) (st : State) : State :=
  mkState (messages st) (latestResult st) (isLoading st) (rightTab st) v.

(** [setMessages] with an updater function. *)
Definition setMessages (f : list Message.Props -> list Message.Props) (st : State) : State :=
  mkState (f (messages st)) (latestResult st) (isLoading st) (rightTab st) (input st).

Definition setIsLoading (b : bool) (st : State) : State :=
  mkState (messages st) (latestResult st) b (rightTab st) (input st).

(** [handleResult] of [App], which the panel receives as [onResult]. *)
Definition handleResult (r : ResponseEnvelope) (st : State) : State :=
  mkState (messages st) (Some r) (isLoading st) results (input st).

(** What a submission does outside the state. *)
Inductive Effect : Type :=
| Fetch (rq : Request)
| OnResult (r : ResponseEnvelope).

Definition SUGGESTIONS : list jstr :=
  [ str "Show me all orders from Ohio over $500";
    str "Who ordered laptops or gaming PCs?";
    str "Orders under $100" ].

(** [query || input.trim()] *)
Definition query_or_input (query : option jstr) (st : State) : jstr :=
  match query with
  | Some s => if truthy s then s else trim (input st)
  | None => trim (input st)
  end.

(** The text of the assistant's message for a settled envelope. *)
Definition summary (result : ResponseEnvelope) : jstr :=
  if success result then
    str "Found " ++ Number_toString (total_matched result) ++ str " of " ++
    Number_toString (total_parsed result) ++ str " orders." ++
    (if (0 <? List.length (entries_or_empty (filters_applied result)))%nat
     then str " Filters: " ++
          join (str ", ")
               (map (fun kv => fst kv ++ str "=" ++ ToString (snd kv))
                    (entries_or_empty (filters_applied result)))
     else [])
  else str "Error: " ++ template (error result).

(** [handleSubmit] up to its [await]: the guard, then the three updates.
    [None] is the early [return]. *)
Definition handleSubmit_begin (query : option jstr) (st : State) : option (jstr * State) :=
  let q := query_or_input query st in
  if negb (truthy q) || isLoading st then None
  else
    Some (q,
          setIsLoading true
            (setMessages (fun prev => prev ++ [Message.mkProps (str "user") q None])
               (setInput [] st))).

(** [handleSubmit] from the point where [queryAgent] settles: the [try] body
    or the [catch] clause, then [finally]. *)
Definition handleSubmit_settle (outcome : exn + ResponseEnvelope) (st : State)
  : State * list Effect :=
  match outcome with
  | inr result =>
      let st1 :=
        setMessages
          (fun prev => prev ++ [Message.mkProps (str "assistant") (summary result) (Some result)])
          st in
      (setIsLoading false (handleResult result st1), [OnResult result])
  | inl err =>
      let st1 :=
        setMessages
          (fun prev =>
             prev ++ [Message.mkProps (str "assistant")
                        (str "Error: " ++ message err ++
                         str ". Make sure the backend is running (python main.py).")
                        None])
          st in
      (setIsLoading false st1, [])
  end.

Definition handleSubmit (query : option jstr) (net : Network ResponseEnvelope) (st : State)
  : State * list Effect :=
  match handleSubmit_begin query st with
  | None => (st, [])
  | Some (q, st1) =>
      let (log, outcome) := Api.queryAgent q net in
      let (st2, effects) := handleSubmit_settle outcome st1 in
      (st2, map Fetch log ++ effects)
  end.

(** The events of the panel that reach [handleSubmit]: a click on the n-th
    suggestion, a click on the send button, a key pressed in the text area. *)
Inductive Event : Type :=
| ClickSuggestion (n : nat)
| ClickSend
| KeyDown (key : jstr) (shiftKey : bool).

Definition handleKeyDown (key : jstr) (shiftKey : bool)
    (net : Network ResponseEnvelope) (st : State) : State * list Effect :=
  if jstr_eqb key (str "Enter") && negb shiftKey then handleSubmit None net st
  else (st, []).

Definition dispatch (ev : Event) (net : Network ResponseEnvelope) (st : State)
  : State * list Effect :=
  match ev with
  | ClickSuggestion n =>
      match nth_error SUGGESTIONS n with
      | Some s => handleSubmit (Some s) net st
      | None => (st, [])
      end
  | ClickSend => handleSubmit None net st
  | KeyDown key shiftKey => handleKeyDown key shiftKey net st
  end.

(** The text an event submits, when it submits one. *)
Definition submitted (ev : Event) (st : State) : option jstr :=
  match ev with
  | ClickSuggestion n => nth_error SUGGESTIONS n
  | ClickSend => Some (input st)
  | KeyDown key shiftKey =>
      if jstr_eqb key (str "Enter") && negb shiftKey then Some (input st) else None
  end.

End ChatPanel.

(** ** components/StatsPanel.jsx *)

Module StatsPanel.

(** The diagnostics object of [/stats].  The numbers of the two mappings are
    only ordered and compared with constants by the panel; a finite double is
    kept as the rational it denotes, on which the sign of [b - a] and the
    comparisons are those of the platform.  [other] holds whatever further
    members the object has. *)
Record Stats : Type := mkStats {
  accuracy : Q;
  training_samples : Z;
  test_samples : Z;
  state_reorder_rates : option (list (jstr * Q));
  feature_importance : list (jstr * Q);
  other : list (jstr * json)
}.

Definition FRIENDLY_NAMES : list (jstr * jstr) :=
  [ (str "num_items", str "# of Items");
    (str "has_electronics", str "Has Electronics");
    (str "state_reorder_score", str "State Pattern");
    (str "total_normalized", str "Order Total");
    (str "electronics_x_spend", [69; 108; 101; 99; 116; 114; 111; 110; 105; 99; 115;
                                 32; 215; 32; 83; 112; 101; 110; 100]%N);
    (str "avg_item_price", str "Avg Item Price") ].

(** The own members of an object written as a literal. *)
Fixpoint own_member (k : jstr) (l : list (jstr * jstr)) : option jstr :=
  match l with
  | [] => None
  | (k', v) :: rest => if jstr_eqb k k' then Some v else own_member k rest
  end.

(** The members every plain object inherits from [Object.prototype]: eleven
    functions, and the accessor [__proto__], which yields the prototype
    itself. *)
Definition OBJECT_PROTOTYPE_FUNCTIONS : list jstr :=
  [ str "constructor"; str "hasOwnProperty"; str "isPrototypeOf";
    str "propertyIsEnumerable"; str "toLocaleString"; str "toString"; str "valueOf";
    str "__defineGetter__"; str "__defineSetter__";
    str "__lookupGetter__"; str "__lookupSetter__" ].

(** What a property read [FRIENDLY_NAMES[name]] yields. *)
Inductive Member : Type :=
| own_string (s : jstr)
| inherited_function
| inherited_object
| missing.

Definition FRIENDLY_NAMES_get (name : jstr) : Member :=
  match own_member name FRIENDLY_NAMES with
  | Some v => own_string v
  | None =>
      if jstr_eqb name (str "__proto__") then inherited_object
      else if existsb (jstr_eqb name) OBJECT_PROTOTYPE_FUNCTIONS then inherited_function
      else missing
  end.

(** A child of a JSX element: a string is shown as text, a function is
    skipped by React, a plain object makes React throw. *)
Inductive Child : Type :=
| text_child (s : jstr)
| function_child
| object_child.

Definition stateBarColor (rate : Q) : jstr :=
  if Qle_bool 60 rate then str "bg-success"
  else if Qle_bool 45 rate then str "bg-accent"
  else str "bg-warning".

(** [([, a], [, b]) => b - a] *)
Definition by_value_desc (x y : jstr * Q) : comparison :=
  sign_Q (snd y - snd x).

Record StateRow : Type := mkStateRow {
  state_name : jstr;
  state_rate : Q;
  state_bar : jstr
}.

Record FeatureRow : Type := mkFeatureRow {
  feature_label : Child;
  feature_value : Q
}.

Record Diagnostics : Type := mkDiagnostics {
  accuracy_badge : Q;
  training_cell : Z;
  test_cell : Z;
  state_rows : option (list StateRow);
  feature_rows : list FeatureRow
}.

Inductive View : Type :=
| Spinner
| ErrorCard (text : jstr)
| Loaded (d : Diagnostics).

Record State : Type := mkState {
  stats : option Stats;
  loading : bool;
  error : option jstr
}.

Definition initial : State := mkState None true None.

(** The effect run on mount: [getStats().then(setStats).catch(e =>
    setError(e.message)).finally(() => setLoading(false))]. *)
Definition on_mount (net : Network Stats) (st : State) : State * list Request :=
  let (log, outcome) := Api.getStats net in
  (match outcome with
   | inr s => mkState (Some s) false (error st)
   | inl e => mkState (stats st) false (Some (message e))
   end, log).

Definition render_state_row (kv : jstr * Q) : StateRow :=
  mkStateRow (fst kv) (snd kv) (stateBarColor (snd kv)).

(** [FRIENDLY_NAMES[name] || name] *)
Definition friendly_or_name (name : jstr) : Child :=
  match FRIENDLY_NAMES_get name with
  | own_string friendly => if truthy friendly then text_child friendly else text_child name
  | inherited_function => function_child
  | inherited_object => object_child
  | missing => text_child name
  end.

Definition render_feature_row (kv : jstr * Q) : FeatureRow :=
  mkFeatureRow (friendly_or_name (fst kv)) (snd kv).

Definition render_stats (s : Stats) : Diagnostics :=
  mkDiagnostics
    (accuracy s) (training_samples s) (test_samples s)
    (option_map
       (fun rates => map render_state_row (Array_sort by_value_desc rates))
       (state_reorder_rates s))
    (map render_feature_row (Array_sort by_value_desc (feature_importance s))).

(** Whether React throws on the element built from the diagnostics: it does
    when the label of a feature row is an object. *)
Definition invalid_child (d : Diagnostics) : bool :=
  existsb (fun row => match feature_label row with object_child => true | _ => false end)
          (feature_rows d).

(** The last [return] of the panel; [None] is the render that throws, reading
    a member of [stats] while it is still [null] or handing React an object
    as a child. *)
Definition render_loaded (stats : option Stats) : option View :=
  match stats with
  | None => None
  | Some s => if invalid_child (render_stats s) then None else Some (Loaded (render_stats s))
  end.

Definition StatsPanel (st : State) : option View :=
  if loading st then Some Spinner
  else
    match error st with
    | Some e => if truthy e then Some (ErrorCard e) else render_loaded (stats st)
    | None => render_loaded (stats st)
    end.

End StatsPanel.

(** ** The pipeline behind [/query] *)

Module Pipeline.

(** Modelled from the spec: the pipeline orchestrator and its stages
    (agent.py and models.py are not among the sources).  The data model is
    that of section 3 of the specification. *)
Definition RawBatch : Type := list jstr.

Record ParsedOrder : Type := mkParsedOrder {
  order_id : Z;
  buyer : jstr;
  city : jstr;
  state : jstr;
  items : list jstr;
  total : Q
}.

(** A validated order carries no extra field. *)
Definition ValidatedOrder : Type := ParsedOrder.

Inductive Operator : Type := eq | gt | lt | gte | lte | contains | in_.

Inductive FilterValue : Type :=
| Number (q : Q)
| Text (s : jstr)
| Texts (l : list jstr).

Record FilterPredicate : Type := mkPredicate {
  field : jstr;
  operator : Operator;
  value : FilterValue
}.

(** Modelled from the spec: a filter set is a conjunction of groups, each
    group a disjunction of predicates (a lone predicate is a group of one);
    the empty set matches everything. *)
Definition FilterSet : Type := list (list FilterPredicate).

Record MLFeatureVector : Type := mkFeatures {
  num_items : R;
  has_electronics : R;
  state_reorder_score : R;
  total_normalized : R;
  electronics_x_spend : R;
  avg_item_price : R
}.

Inductive Label : Type := likely_reorder | unlikely_reorder.

Record ReorderPrediction : Type := mkPrediction {
  prediction_order_id : Z;
  reorder_probability : R;
  predicted_label : Label
}.

Record ResponseEnvelope : Type := mkEnvelope {
  success : bool;
  total_parsed : nat;
  total_matched : nat;
  filters_applied : FilterSet;
  orders : list ValidatedOrder;
  validation_warnings : list jstr;
  ml_predictions : list ReorderPrediction;
  error : option jstr
}.

(** Modelled from the spec: the trained model of the reorder predictor, the
    six coefficients and the intercept of a logistic regression. *)
Record Model : Type := mkModel {
  coefficients : MLFeatureVector;
  intercept : R
}.

(** Modelled from the spec: what the pipeline is given and does not define
    itself: the text source (by attempt number), the structured-output model
    call on a group of blobs, the token estimate and the grouping of an
    oversized batch, the validator's search of an order in the source text,
    the query interpreter, the comparison a predicate names, the feature
    derivation and the trained model. *)
Record Collaborators : Type := mkCollaborators {
  source : nat -> option RawBatch;
  complete : RawBatch -> jstr + list ParsedOrder;
  estimate_tokens : RawBatch -> N;
  groups : RawBatch -> list RawBatch;
  located : ParsedOrder -> RawBatch -> bool;
  interpret : jstr -> FilterSet;
  holds : FilterPredicate -> ValidatedOrder -> bool;
  features : ValidatedOrder -> MLFeatureVector;
  model : Model
}.

Section Stages.
Variable c : Collaborators.

(** Modelled from the spec: section 4.1, at most [attempts] tries of the
    source, the first batch obtained being the result. *)
Fixpoint fetch_from (attempt attempts : nat) : option RawBatch :=
  match attempts with
  | O => None
  | S n =>
      match source c attempt with
      | Some batch => Some batch
      | None => fetch_from (S attempt) n
      end
  end.

Definition fetch : option RawBatch := fetch_from 0 3.

Definition TOKEN_THRESHOLD : N := 6000.

(** Modelled from the spec: section 4.2, the groups of an oversized batch
    parsed one by one and concatenated in order; the first failure fails the
    extraction. *)
Fixpoint extract_groups (gs : list RawBatch) : jstr + list ParsedOrder :=
  match gs with
  | [] => inr []
  | g :: rest =>
      match complete c g with
      | inl cause => inl cause
      | inr parsed =>
          match extract_groups rest with
          | inl cause => inl cause
          | inr more => inr (parsed ++ more)
          end
      end
  end.

Definition extract (batch : RawBatch) : jstr + list ParsedOrder :=
  if (estimate_tokens c batch <=? TOKEN_THRESHOLD)%N then complete c batch
  else extract_groups (groups c batch).

Definition warning (o : ParsedOrder) : jstr :=
  str "Order " ++ Number_toString (order_id o) ++ str ": hallucinated, removed".

(** Modelled from the spec: section 4.3, the orders found in the source text
    survive in order, each other one leaves a warning. *)
Definition validate (parsed : list ParsedOrder) (batch : RawBatch)
  : list ValidatedOrder * list jstr :=
  (filter (fun o => located c o batch) parsed,
   map warning (filter (fun o => negb (located c o batch)) parsed)).

(** Modelled from the spec: section 4.5, every group of the set has a
    predicate that holds of the order. *)
Definition matches (fs : FilterSet) (o : ValidatedOrder) : bool :=
  forallb (fun group => existsb (fun p => holds c p o) group) fs.

Definition apply (fs : FilterSet) (os : list ValidatedOrder) : list ValidatedOrder :=
  filter (matches fs) os.

Definition dot (w x : MLFeatureVector) : R :=
  (num_items w * num_items x + has_electronics w * has_electronics x +
   state_reorder_score w * state_reorder_score x +
   total_normalized w * total_normalized x +
   electronics_x_spend w * electronics_x_spend x +
   avg_item_price w * avg_item_price x)%R.

Definition sigmoid (z : R) : R := (1 / (1 + exp (- z)))%R.

(** Modelled from the spec: section 4.6 and the fourth testable property,
    the logistic score of the feature vector and the label at threshold
    0.5. *)
Definition score (o : ValidatedOrder) : ReorderPrediction :=
  let p := sigmoid (dot (coefficients (model c)) (features c o) + intercept (model c)) in
  mkPrediction (order_id o) p
               (if Rle_dec (1 / 2) p then likely_reorder else unlikely_reorder).

Definition failure (msg : jstr) : ResponseEnvelope :=
  mkEnvelope false 0 0 [] [] [] [] (Some msg).

(** Modelled from the spec: section 4.7, fetch, extract, validate, interpret,
    filter, score, respond; a failed stage becomes a failure envelope. *)
Definition run (query : jstr) : ResponseEnvelope :=
  match fetch with
  | None => failure (str "SourceUnavailable")
  | Some batch =>
      match extract batch with
      | inl cause => failure (str "ExtractionFailed: " ++ cause)
      | inr parsed =>
          let (validated, warnings) := validate parsed batch in
          let fs := interpret c query in
          let matched := apply fs validated in
          mkEnvelope true (List.length parsed) (List.length matched) fs matched
                     warnings (map score matched) None
      end
  end.

End Stages.

End Pipeline.

(** * Properties *)

(** ** Sorting *)

Section SortFacts.
Context {A : Type} (comparefn : A -> A -> comparison).

(** [x] may stand before [y]: the comparison function does not ask for the
    swap. *)
Definition before (x y : A) : Prop := comparefn x y <> Gt.

Hypothesis swap_once : forall x y, comparefn x y = Gt -> before y x.
Hypothesis before_trans : forall x y z, before x y -> before y z -> before x z.

Lemma sort_insert_perm (x : A) (l : list A) :
  Permutation (x :: l) (sort_insert comparefn x l).
Proof.
  induction l as [|y rest IH]; simpl.
  - apply Permutation_refl.
  - destruct (comparefn x y); try apply Permutation_refl.
    eapply perm_trans; [apply perm_swap|].
    now apply perm_skip.
Qed.

Lemma Array_sort_perm (l : list A) : Permutation l (Array_sort comparefn l).
Proof.
  induction l as [|x rest IH]; simpl.
  - constructor.
  - eapply perm_trans; [apply perm_skip, IH | apply sort_insert_perm].
Qed.

Lemma sort_insert_hd (x y : A) (l : list A) :
  before y x -> HdRel before y l -> HdRel before y (sort_insert comparefn x l).
Proof.
  intros Hyx Hl.
  destruct l as [|z rest]; simpl.
  - now constructor.
  - inversion Hl; subst.
    destruct (comparefn x z); now constructor.
Qed.

Lemma sort_insert_sorted (x : A) (l : list A) :
  Sorted before l -> Sorted before (sort_insert comparefn x l).
Proof.
  induction l as [|y rest IH]; simpl; intros Hs.
  - repeat constructor.
  - inversion Hs as [|? ? Hrest Hhd]; subst.
    destruct (comparefn x y) eqn:E.
    + constructor; [assumption|]. constructor. unfold before. congruence.
    + constructor; [assumption|]. constructor. unfold before. congruence.
    + constructor; [now apply IH|].
      apply sort_insert_hd; [now apply swap_once | assumption].
Qed.

Lemma Array_sort_sorted (l : list A) : Sorted before (Array_sort comparefn l).
Proof.
  induction l as [|x rest IH]; simpl.
  - constructor.
  - now apply sort_insert_sorted.
Qed.

Lemma Array_sort_strongly_sorted (l : list A) :
  StronglySorted before (Array_sort comparefn l).
Proof.
  apply Sorted_StronglySorted; [exact before_trans | apply Array_sort_sorted].
Qed.

End SortFacts.

Lemma Array_sort_length {A} (cmp : A -> A -> comparison) (l : list A) :
  List.length (Array_sort cmp l) = List.length l.
Proof.
  symmetry. apply Permutation_length, Array_sort_perm.
Qed.

Lemma StronglySorted_impl {A} (R1 R2 : A -> A -> Prop) (l : list A) :
  (forall x y, R1 x y -> R2 x y) -> StronglySorted R1 l -> StronglySorted R2 l.
Proof.
  intros Himp Hs. induction Hs as [|x l Hs IH Hall]; constructor.
  - assumption.
  - eapply Forall_impl; [|exact Hall]. intros y. apply Himp.
Qed.

(** Ascending order of the identifiers. *)
Definition ascending_ids (a b : Order) : Prop := order_id a <= order_id b.

Lemma by_order_id_before (a b : Order) :
  before by_order_id a b <-> ascending_ids a b.
Proof.
  unfold before, by_order_id, sign_Z, ascending_ids.
  destruct (Z.compare_spec (order_id a - order_id b) 0); split; intros;
    try congruence; try lia.
Qed.

Lemma sort_by_order_id_sorted (l : list Order) :
  StronglySorted ascending_ids (Array_sort by_order_id l).
Proof.
  apply StronglySorted_impl with (R1 := before by_order_id).
  - intros x y. apply by_order_id_before.
  - apply Array_sort_strongly_sorted.
    + intros x y H. apply by_order_id_before.
      unfold by_order_id, sign_Z in H. apply Z.compare_gt_iff in H.
      unfold ascending_ids. lia.
    + intros x y z H1 H2. apply by_order_id_before.
      apply by_order_id_before in H1, H2. unfold ascending_ids in *. lia.
Qed.

(** Descending order of the values of a mapping. *)
Definition descending_values (x y : jstr * Q) : Prop := (snd y <= snd x)%Q.

Lemma by_value_desc_before (x y : jstr * Q) :
  before StatsPanel.by_value_desc x y <-> descending_values x y.
Proof.
  unfold before, StatsPanel.by_value_desc, sign_Q, descending_values.
  destruct (Qcompare_spec (snd y - snd x) 0) as [H|H|H]; split; intros H';
    try congruence; lra.
Qed.

Lemma sort_by_value_desc_sorted (l : list (jstr * Q)) :
  StronglySorted descending_values (Array_sort StatsPanel.by_value_desc l).
Proof.
  apply StronglySorted_impl with (R1 := before StatsPanel.by_value_desc).
  - intros x y. apply by_value_desc_before.
  - apply Array_sort_strongly_sorted.
    + intros x y H. apply by_value_desc_before.
      unfold StatsPanel.by_value_desc, sign_Q in H.
      apply Qgt_alt in H. unfold descending_values. lra.
    + intros x y z H1 H2. apply by_value_desc_before.
      apply by_value_desc_before in H1, H2. unfold descending_values in *. lra.
Qed.

(** ** Keyed children: what a render leaves in the document

    Two invariants of a host.  It is [present] when every fiber owns a node
    of the document that shows its props; this holds after any renders.  It
    is [aligned] when the document holds these nodes in the order of the
    fibers and no other node; this holds as long as the old children of
    every render had pairwise distinct keys. *)

Module ReactFacts.

Import React.

Section Facts.
Context {P : Type}.
Implicit Types (f : @Fiber P) (e : @Element P) (h : @Host P).

(** The element a fiber was last rendered from. *)
Definition element_of f : @Element P := mkElement (fkey f) (fprops f).

Definition mem (l : list nat) (x : nat) : bool := existsb (Nat.eqb x) l.

Lemma mem_In l x : mem l x = true <-> In x l.
Proof.
  unfold mem. rewrite existsb_exists. split.
  - intros (y & Hy & E). apply Nat.eqb_eq in E. now subst.
  - intros H. exists x. split; [assumption | apply Nat.eqb_refl].
Qed.

Lemma mem_false l x : mem l x = false <-> ~ In x l.
Proof.
  rewrite <- mem_In. destruct (mem l x); split; congruence.
Qed.

(** *** The document operations *)

Lemma removeChild_In x y l : In y (removeChild x l) <-> In y l /\ y <> x.
Proof.
  unfold removeChild. rewrite filter_In, negb_true_iff, Nat.eqb_neq. tauto.
Qed.

Lemma removeChild_NoDup x l : NoDup l -> NoDup (removeChild x l).
Proof. apply NoDup_filter. Qed.

Lemma insert_at_In x s l y : In y (insert_at x s l) <-> y = x \/ In y l.
Proof.
  induction l as [|z r IH]; simpl.
  - intuition.
  - destruct (z =? s)%nat; simpl; [intuition|]. rewrite IH. intuition.
Qed.

Lemma insert_at_NoDup x s l : NoDup l -> ~ In x l -> NoDup (insert_at x s l).
Proof.
  induction l as [|z r IH]; simpl; intros Hnd Hx.
  - repeat constructor. intros [].
  - destruct (z =? s)%nat.
    + constructor; assumption.
    + inversion Hnd; subst. constructor.
      * rewrite insert_at_In. intros [->|H]; [apply Hx; now left | contradiction].
      * apply IH; [assumption|]. intros H. apply Hx. now right.
Qed.

Lemma filter_insert_at (p : nat -> bool) x s l :
  p x = true -> p s = true ->
  filter p (insert_at x s l) = insert_at x s (filter p l).
Proof.
  intros Hx Hs. induction l as [|y r IH]; simpl.
  - now rewrite Hx.
  - destruct (Nat.eqb_spec y s) as [->|Hn].
    + simpl. rewrite Hx, Hs. simpl. now rewrite Nat.eqb_refl.
    + simpl. destruct (p y); simpl.
      * destruct (Nat.eqb_spec y s); [contradiction|]. now rewrite IH.
      * exact IH.
Qed.

Lemma insert_at_app x s a b :
  ~ In s a -> insert_at x s (a ++ s :: b) = a ++ x :: s :: b.
Proof.
  induction a as [|y r IH]; simpl; intros H.
  - now rewrite Nat.eqb_refl.
  - destruct (Nat.eqb_spec y s) as [->|Hn]; [elim H; now left|].
    f_equal. apply IH. intros Hin. apply H. now right.
Qed.

Lemma filter_all {A} (p : A -> bool) l :
  (forall x, In x l -> p x = true) -> filter p l = l.
Proof.
  induction l as [|y r IH]; simpl; intros H; [reflexivity|].
  rewrite (H y) by now left. f_equal. apply IH. intros x Hx. apply H. now right.
Qed.

Lemma filter_none {A} (p : A -> bool) l :
  (forall x, In x l -> p x = false) -> filter p l = [].
Proof.
  induction l as [|y r IH]; simpl; intros H; [reflexivity|].
  rewrite (H y (or_introl eq_refl)). apply IH. intros x Hx. apply H. now right.
Qed.

(** *** The placements *)

(** The nodes of the fibers of a render, and those among them that are not
    marked for placement. *)
Definition nodes (work : list (@Fiber P * bool)) : list nat := map (fun w => node (fst w)) work.

Fixpoint stable (work : list (@Fiber P * bool)) : list nat :=
  match work with
  | [] => []
  | (f, placed) :: rest => if placed then stable rest else node f :: stable rest
  end.

Lemma next_stable_hd work : next_stable work = hd_error (stable work).
Proof.
  induction work as [|[f placed] rest IH]; [reflexivity|].
  simpl. now destruct placed.
Qed.

Lemma stable_incl work x : In x (stable work) -> In x (nodes work).
Proof.
  induction work as [|[f placed] rest IH]; simpl; [tauto|].
  destruct placed; simpl; intuition.
Qed.

Lemma filter_removeChild (p q : nat -> bool) x d :
  (forall y, y <> x -> p y = q y) -> q x = false ->
  filter p (removeChild x d) = filter q d.
Proof.
  intros Hpq Hq. unfold removeChild. induction d as [|y r IH]; [reflexivity|].
  simpl. destruct (Nat.eqb_spec y x) as [->|Hn]; simpl.
  - now rewrite Hq.
  - rewrite (Hpq y Hn). destruct (q y); now rewrite IH.
Qed.

Lemma mem_app_cons (a b : list nat) x y :
  y <> x -> mem ((a ++ [x]) ++ b) y = mem (a ++ b) y.
Proof.
  intros Hn. destruct (mem (a ++ b) y) eqn:E.
  - apply mem_In. apply mem_In in E. rewrite <- app_assoc. simpl.
    apply in_app_or in E. apply in_or_app. destruct E; [now left | right; now right].
  - apply mem_false. apply mem_false in E. rewrite <- app_assoc. simpl.
    intros H. apply E. apply in_app_or in H. apply in_or_app.
    destruct H as [H|[H|H]]; [now left | now elim Hn | now right].
Qed.

(** Placement puts the nodes in the order of the fibers, when the nodes are
    distinct, the document holds no other node, and the unmarked nodes
    already stand in the document in their order.  [done] is the part of
    the document that the fibers before [todo] have settled. *)
Lemma place_correct (todo : list (@Fiber P * bool)) :
  forall (done : list nat) (d : list nat),
    NoDup (done ++ nodes todo) ->
    NoDup d ->
    (forall x, In x d -> In x (done ++ nodes todo)) ->
    filter (mem (done ++ stable todo)) d = done ++ stable todo ->
    place todo d = done ++ nodes todo.
Proof.
  induction todo as [|[f placed] rest IH]; intros done d Hnd Hd Hin Hf.
  - simpl in *. rewrite app_nil_r in *.
    transitivity (filter (mem done) d); [|exact Hf].
    symmetry. apply filter_all. intros x Hx. apply mem_In. now apply Hin.
  - cbn [place nodes map fst stable] in *. fold (nodes rest) in *.
    assert (Hx_done : ~ In (node f) done).
    { intros H. apply NoDup_remove_2 in Hnd.
      apply Hnd. apply in_or_app. now left. }
    assert (Hx_rest : ~ In (node f) (nodes rest)).
    { intros H. apply NoDup_remove_2 in Hnd.
      apply Hnd. apply in_or_app. now right. }
    assert (Hnd' : NoDup ((done ++ [node f]) ++ nodes rest))
      by (now rewrite <- app_assoc).
    assert (Hin' : forall d', (forall y, In y d' -> y = node f \/ In y d) ->
                     forall y, In y d' -> In y ((done ++ [node f]) ++ nodes rest)).
    { intros d' Hd' y Hy. rewrite <- app_assoc. simpl.
      destruct (Hd' y Hy) as [->|H]; [apply in_or_app; right; now left | now apply Hin]. }
    replace (done ++ node f :: nodes rest) with ((done ++ [node f]) ++ nodes rest)
      by (now rewrite <- app_assoc).
    destruct placed.
    + set (x := node f) in *.
      assert (Hx_M : mem (done ++ stable rest) x = false).
      { apply mem_false. intros H. apply in_app_or in H.
        destruct H as [H|H]; [contradiction|]. apply Hx_rest. now apply stable_incl. }
      assert (Hrem : filter (mem ((done ++ [x]) ++ stable rest)) (removeChild x d) =
                     done ++ stable rest).
      { transitivity (filter (mem (done ++ stable rest)) d); [|exact Hf].
        apply filter_removeChild; [|assumption].
        intros y Hy. now apply mem_app_cons. }
      assert (Hx_rem : ~ In x (removeChild x d)).
      { rewrite removeChild_In. tauto. }
      assert (HxM' : mem ((done ++ [x]) ++ stable rest) x = true).
      { apply mem_In. rewrite <- app_assoc. apply in_or_app. right. now left. }
      rewrite next_stable_hd.
      destruct (stable rest) as [|s srest] eqn:Es; cbn [hd_error].
      * apply IH; try assumption.
        -- unfold appendChild. apply NoDup_app.
           ++ now apply removeChild_NoDup.
           ++ repeat constructor. intros [].
           ++ intros y Hy [<-|[]]. contradiction.
        -- apply Hin'. unfold appendChild. intros y Hy.
           apply in_app_or in Hy. destruct Hy as [Hy|[<-|[]]]; [|now left].
           right. now apply removeChild_In in Hy.
        -- unfold appendChild. rewrite filter_app, Hrem. simpl.
           rewrite HxM'. now rewrite !app_nil_r.
      * assert (Hs_done : ~ In s done).
        { intros H. assert (Hs : In s (nodes rest))
            by (apply stable_incl; rewrite Es; now left).
          clear - Hnd H Hs. induction done as [|y r IHd]; [contradiction|].
          simpl in Hnd. inversion Hnd as [|? ? Hy Hr]; subst.
          destruct H as [->|H]; [|now apply IHd].
          apply Hy. apply in_or_app. right. now right. }
        assert (HsM' : mem ((done ++ [x]) ++ s :: srest) s = true).
        { apply mem_In. apply in_or_app. right. now left. }
        apply IH; try assumption.
        -- unfold insertBefore. now apply insert_at_NoDup; [apply removeChild_NoDup|].
        -- apply Hin'. unfold insertBefore. intros y Hy.
           apply insert_at_In in Hy. destruct Hy as [->|Hy]; [now left|].
           right. now apply removeChild_In in Hy.
        -- unfold insertBefore. rewrite filter_insert_at by assumption.
           rewrite Hrem. rewrite insert_at_app by assumption.
           now rewrite <- app_assoc.
    + apply IH; try assumption.
      * apply Hin'. intros y Hy. now right.
      * now rewrite <- app_assoc.
Qed.


(** *** Sublists that keep the order *)

Inductive subseq {A : Type} : list A -> list A -> Prop :=
| subseq_nil l : subseq [] l
| subseq_skip x t l : subseq t l -> subseq t (x :: l)
| subseq_take x t l : subseq t l -> subseq (x :: t) (x :: l).

Lemma subseq_In {A} (t l : list A) x : subseq t l -> In x t -> In x l.
Proof.
  induction 1 as [l|y t l _ IH|y t l _ IH]; simpl; intros H.
  - contradiction.
  - right. now apply IH.
  - destruct H as [H|H]; [now left | right; now apply IH].
Qed.

Lemma filter_subseq (t l : list nat) :
  NoDup l -> subseq t l -> filter (mem t) l = t.
Proof.
  intros Hnd Hs. induction Hs as [l|y t l Hs IH|y t l Hs IH].
  - apply filter_none. reflexivity.
  - inversion Hnd as [|? ? Hy Hl]; subst. simpl.
    replace (mem t y) with false; [now apply IH|].
    symmetry. apply mem_false. intros H. apply Hy. now apply (subseq_In t l).
  - inversion Hnd as [|? ? Hy Hl]; subst. simpl.
    unfold mem at 1. simpl. rewrite Nat.eqb_refl. simpl. f_equal.
    rewrite <- (IH Hl) at 2. apply filter_ext_in. intros x Hx.
    unfold mem. simpl. destruct (Nat.eqb_spec x y) as [->|]; [contradiction|reflexivity].
Qed.

Lemma subseq_skipn {A} (l : list A) :
  forall (j B : nat) (a : A) (t : list A),
    nth_error l j = Some a -> (B <= j)%nat ->
    subseq t (skipn (S j) l) -> subseq (a :: t) (skipn B l).
Proof.
  induction l as [|y r IH]; intros j B a t Hn HB Hs.
  - destruct j; discriminate.
  - destruct B as [|B'].
    + destruct j as [|j'].
      * simpl in Hn. injection Hn as ->. simpl in *. now constructor.
      * simpl in Hn. change (skipn (S (S j')) (y :: r)) with (skipn (S j') r) in Hs.
        simpl. apply subseq_skip. apply (IH j' 0%nat a t Hn); [lia | exact Hs].
    + destruct j as [|j']; [lia|].
      simpl in Hn. change (skipn (S (S j')) (y :: r)) with (skipn (S j') r) in Hs.
      simpl. apply (IH j' B' a t Hn); [lia | exact Hs].
Qed.

(** *** The first loop *)

Lemma first_pass_spec (old : list (@Fiber P)) :
  forall (new : list (@Element P)) kept ro rn,
    first_pass old new = (kept, (ro, rn)) ->
    exists ok,
      old = ok ++ ro /\ map node kept = map node ok /\
      new = map element_of kept ++ rn.
Proof.
  induction old as [|f old' IH]; intros new kept ro rn H.
  - simpl in H. injection H as <- <- <-. now exists [].
  - destruct new as [|e new'].
    + simpl in H. injection H as <- <- <-. now exists [].
    + simpl in H. destruct (fkey f =? key e) eqn:E.
      * destruct (first_pass old' new') as [kept' [ro' rn']] eqn:F.
        injection H as <- <- <-.
        destruct (IH new' kept' ro' rn' F) as (ok & -> & Hn & ->).
        exists (f :: ok). simpl. rewrite Hn. repeat split.
        destruct e; reflexivity.
      * injection H as <- <- <-. now exists [].
Qed.

Lemma first_pass_same (old : list (@Fiber P)) :
  forall (new : list (@Element P)), map fkey old = map key new ->
    snd (snd (first_pass old new)) = [] /\ fst (snd (first_pass old new)) = [].
Proof.
  induction old as [|f old' IH]; intros [|e new'] H; try discriminate; [now split|].
  simpl in H. injection H as Hk Hr. simpl. rewrite Hk, Z.eqb_refl.
  destruct (first_pass old' new') as [kept' [ro' rn']] eqn:F.
  specialize (IH new' Hr). rewrite F in IH. exact IH.
Qed.

(** *** The map of the remaining children, when their keys are distinct *)

Definition enode (kv : Z * (nat * @Fiber P)) : nat := node (snd (snd kv)).

(** One entry for each fiber, with its index. *)
Fixpoint entries (i : nat) (l : list (@Fiber P)) : Existing :=
  match l with
  | [] => []
  | f :: r => (fkey f, (i, f)) :: entries (S i) r
  end.

Lemma map_set_fresh k v (m : @Existing P) :
  ~ In k (map fst m) -> map_set k v m = m ++ [(k, v)].
Proof.
  induction m as [|[k' v'] r IH]; simpl; intros H; [reflexivity|].
  destruct (Z.eqb_spec k k') as [->|Hn]; [elim H; now left|].
  f_equal. apply IH. intros Hin. apply H. now right.
Qed.

Lemma mapRemaining_entries (l : list (@Fiber P)) :
  forall i m, NoDup (map fst m ++ map fkey l) ->
    mapRemainingChildren i l m = m ++ entries i l.
Proof.
  induction l as [|f r IH]; intros i m Hnd; simpl.
  - now rewrite app_nil_r.
  - simpl in Hnd. rewrite map_set_fresh.
    + rewrite IH.
      * now rewrite <- app_assoc.
      * rewrite map_app. simpl. now rewrite <- app_assoc.
    + apply NoDup_remove_2 in Hnd. intros H. apply Hnd. apply in_or_app. now left.
Qed.

Lemma entries_nodes (l : list (@Fiber P)) i : map enode (entries i l) = map node l.
Proof.
  revert i. induction l as [|f r IH]; intros i; simpl; [reflexivity|]. now rewrite IH.
Qed.

Lemma map_get_split k (m : @Existing P) v :
  map_get k m = Some v ->
  exists a b, m = a ++ (k, v) :: b /\ map_delete k m = a ++ b.
Proof.
  induction m as [|[k' v'] r IH]; simpl; [discriminate|].
  destruct (Z.eqb_spec k k') as [->|Hn].
  - intros H. injection H as ->. now exists [], r.
  - intros H. destruct (IH H) as (a & b & -> & Hd).
    exists ((k', v') :: a), b. simpl. now rewrite Hd.
Qed.


(** *** The second loop *)

(** The invariant of the second loop over the old fibers [ro], the first of
    which has index [k]: the map holds distinct keys and distinct nodes,
    each entry is a fiber of [ro] under its key and index, with a node
    below [nxt], and an entry at or above [lastPlacedIndex] lies in [ro] at
    or after position [B]. *)
Definition good (ro : list (@Fiber P)) (k L B nxt : nat) (m : @Existing P) : Prop :=
  NoDup (map fst m) /\ NoDup (map enode m) /\
  forall key i f,
    In (key, (i, f)) m ->
    key = fkey f /\ (k <= i)%nat /\ nth_error ro (i - k) = Some f /\
    (node f < nxt)%nat /\ ((L <= i)%nat -> (B <= i - k)%nat).

Lemma good_delete ro k L B nxt (a b : @Existing P) key i f L' B' :
  good ro k L B nxt (a ++ (key, (i, f)) :: b) ->
  (forall key' i' f', In (key', (i', f')) (a ++ b) -> i' <> i ->
                      (L <= i')%nat -> (B <= i' - k)%nat ->
                      (L' <= i')%nat -> (B' <= i' - k)%nat) ->
  (forall key' i' f', In (key', (i', f')) (a ++ b) -> i' <> i -> (L' <= i')%nat -> (L <= i')%nat) ->
  good ro k L' B' nxt (a ++ b) /\ ~ In (node f) (map enode (a ++ b)).
Proof.
  intros (Hk & Hn & Hall) Hb HL.
  rewrite map_app in Hk, Hn. simpl in Hk, Hn.
  pose proof (NoDup_remove_2 _ _ _ Hk) as Hkey.
  pose proof (NoDup_remove_2 _ _ _ Hn) as Hnode.
  rewrite <- map_app in Hkey, Hnode.
  split; [|exact Hnode].
  split; [rewrite map_app; now apply NoDup_remove_1 in Hk|].
  split; [rewrite map_app; now apply NoDup_remove_1 in Hn|].
  intros key' i' f' Hin.
  assert (Hin' : In (key', (i', f')) (a ++ (key, (i, f)) :: b)).
  { apply in_app_or in Hin. apply in_or_app. destruct Hin; [now left | right; now right]. }
  destruct (Hall key' i' f' Hin') as (E & Hki & Hnth & Hlt & HB).
  assert (Hne : i' <> i).
  { intros ->. destruct (Hall key i f) as (E0 & _ & Hnth0 & _).
    { apply in_or_app. right. now left. }
    rewrite Hnth0 in Hnth. injection Hnth as <-.
    apply Hkey. subst key key'. change (fkey f) with (fst (fkey f, (i, f))).
    now apply in_map. }
  repeat split; try assumption.
  intros HL'. apply (Hb key' i' f' Hin Hne); [|apply HB|assumption];
    now apply (HL key' i' f').
Qed.

(** The fibers of the second loop are those of the elements; their nodes
    are distinct, each taken from the map or new; what leaves the map is
    reused; and the unmarked nodes follow the order of the old fibers. *)
Lemma second_pass_spec (ro : list (@Fiber P)) (k : nat) (rn : list (@Element P)) :
  forall m L B nxt work m' nxt',
    good ro k L B nxt m ->
    second_pass rn m L nxt = (work, (m', nxt')) ->
    map (fun w => element_of (fst w)) work = rn /\
    (nxt <= nxt')%nat /\
    NoDup (nodes work) /\
    (forall x, In x (nodes work) ->
       (In x (map enode m) /\ ~ In x (map enode m')) \/ (nxt <= x < nxt')%nat) /\
    (forall x, In x (map enode m) -> In x (map enode m') \/ In x (nodes work)) /\
    (forall x, In x (map enode m') -> In x (map enode m)) /\
    subseq (stable work) (map node (skipn B ro)).
Proof.
  induction rn as [|e rest IH]; intros m L B nxt work m' nxt' Hgood H.
  - simpl in H. injection H as <- <- <-. simpl.
    split; [reflexivity|]. split; [lia|]. split; [constructor|].
    split; [intros x []|]. split; [intros x Hx; now left|]. split; [intros x Hx; exact Hx|].
    constructor.
  - cbn [second_pass] in H.
    destruct (map_get (key e) m) as [[i f]|] eqn:G.
    + destruct (map_get_split _ _ _ G) as (a & b & -> & Hdel). rewrite Hdel in H.
      assert (Hf : key e = fkey f /\ (k <= i)%nat /\ nth_error ro (i - k) = Some f /\
                   (node f < nxt)%nat /\ ((L <= i)%nat -> (B <= i - k)%nat)).
      { destruct Hgood as (_ & _ & Hall). apply Hall. apply in_or_app. right. now left. }
      destruct Hf as (Ek & Hki & Hnth & Hlt & HB).
      assert (Hlow : forall x, In x (map enode (a ++ b)) -> (x < nxt)%nat).
      { intros x Hx. apply in_map_iff in Hx. destruct Hx as ([key' [i' f']] & <- & Hin).
        destruct Hgood as (_ & _ & Hall).
        destruct (Hall key' i' f') as (_ & _ & _ & Hl & _); [|exact Hl].
        apply in_app_or in Hin. apply in_or_app. destruct Hin; [now left|right; now right]. }
      assert (Hsub : forall x, In x (map enode (a ++ b)) ->
                               In x (map enode (a ++ (key e, (i, f)) :: b))).
      { intros x. rewrite !map_app. simpl. intros Hx. apply in_app_or in Hx.
        apply in_or_app. destruct Hx; [now left | right; now right]. }
      destruct (i <? L)%nat eqn:Ei.
      * (* moved *)
        destruct (second_pass rest (a ++ b) L nxt) as [work' [m1 n1]] eqn:Hs.
        injection H as <- <- <-.
        destruct (good_delete ro k L B nxt a b (key e) i f L B Hgood) as [Hg' Hnode];
          [intros; assumption | intros; assumption |].
        destruct (IH _ _ _ _ _ _ _ Hg' Hs) as (H1 & H2 & H3 & H4 & H5 & H6 & H7).
        cbn [map fst nodes stable]. fold (nodes work').
        split; [rewrite H1; destruct e; reflexivity|]. split; [assumption|].
        split; [|split; [|split; [|split]]].
        -- constructor; [|assumption]. cbn [update node]. intros Hin.
           destruct (H4 _ Hin) as [[Hx _]|Hx]; [contradiction | lia].
        -- intros x [<-|Hx].
           ++ left. cbn [update node]. split.
              ** rewrite map_app. simpl. apply in_or_app. right. now left.
              ** intros Hx. apply Hnode. now apply H6.
           ++ destruct (H4 x Hx) as [[Hx1 Hx2]|Hx1]; [left | now right].
              split; [now apply Hsub | assumption].
        -- intros x Hx. rewrite map_app in Hx. simpl in Hx. apply in_app_or in Hx.
           assert (Hc : x = node f \/ In x (map enode (a ++ b))).
           { rewrite map_app. destruct Hx as [Hx|[<-|Hx]];
               [right; apply in_or_app; now left | now left
               | right; apply in_or_app; now right]. }
           destruct Hc as [->|Hc]; [right; now left|].
           destruct (H5 x Hc); [now left | right; now right].
        -- intros x Hx. apply Hsub. now apply H6.
        -- exact H7.
      * (* stays *)
        apply Nat.ltb_ge in Ei.
        destruct (second_pass rest (a ++ b) i nxt) as [work' [m1 n1]] eqn:Hs.
        injection H as <- <- <-.
        destruct (good_delete ro k L B nxt a b (key e) i f i (S (i - k)) Hgood)
          as [Hg' Hnode]; [intros; lia | intros; lia |].
        destruct (IH _ _ _ _ _ _ _ Hg' Hs) as (H1 & H2 & H3 & H4 & H5 & H6 & H7).
        cbn [map fst nodes stable]. fold (nodes work').
        split; [rewrite H1; destruct e; reflexivity|]. split; [assumption|].
        split; [|split; [|split; [|split]]].
        -- constructor; [|assumption]. cbn [update node]. intros Hin.
           destruct (H4 _ Hin) as [[Hx _]|Hx]; [contradiction | lia].
        -- intros x [<-|Hx].
           ++ left. cbn [update node]. split.
              ** rewrite map_app. simpl. apply in_or_app. right. now left.
              ** intros Hx. apply Hnode. now apply H6.
           ++ destruct (H4 x Hx) as [[Hx1 Hx2]|Hx1]; [left | now right].
              split; [now apply Hsub | assumption].
        -- intros x Hx. rewrite map_app in Hx. simpl in Hx. apply in_app_or in Hx.
           assert (Hc : x = node f \/ In x (map enode (a ++ b))).
           { rewrite map_app. destruct Hx as [Hx|[<-|Hx]];
               [right; apply in_or_app; now left | now left
               | right; apply in_or_app; now right]. }
           destruct Hc as [->|Hc]; [right; now left|].
           destruct (H5 x Hc); [now left | right; now right].
        -- intros x Hx. apply Hsub. now apply H6.
        -- cbn [update node]. rewrite <- skipn_map.
           apply (subseq_skipn (map node ro) (i - k)).
           ++ now apply map_nth_error.
           ++ now apply HB.
           ++ rewrite skipn_map. exact H7.
    + (* created *)
      destruct (second_pass rest m L (S nxt)) as [work' [m1 n1]] eqn:Hs.
      injection H as <- <- <-.
      assert (Hg' : good ro k L B (S nxt) m).
      { destruct Hgood as (Hk & Hn & Hall). repeat split; try assumption;
          destruct (Hall key0 i f H) as (E & Hki & Hnth & Hlt & HB); try assumption; lia. }
      assert (Hlow : forall x, In x (map enode m) -> (x < nxt)%nat).
      { intros x Hx. apply in_map_iff in Hx. destruct Hx as ([key' [i' f']] & <- & Hin).
        destruct Hgood as (_ & _ & Hall).
        now destruct (Hall key' i' f' Hin) as (_ & _ & _ & Hl & _). }
      destruct (IH _ _ _ _ _ _ _ Hg' Hs) as (H1 & H2 & H3 & H4 & H5 & H6 & H7).
      cbn [map fst nodes stable]. fold (nodes work').
      split; [rewrite H1; destruct e; reflexivity|]. split; [lia|].
      split; [|split; [|split; [|split]]].
      * constructor; [|assumption]. cbn [node]. intros Hin.
        destruct (H4 _ Hin) as [[Hx _]|Hx]; [apply Hlow in Hx|]; lia.
      * intros x [<-|Hx]; [right; cbn [node]; lia|].
        destruct (H4 x Hx) as [Hx1|Hx1]; [now left | right; lia].
      * intros x Hx. destruct (H5 x Hx); [now left | right; now right].
      * exact H6.
      * exact H7.
Qed.


(** *** The commit *)

Lemma subseq_app {A} (a t l : list A) : subseq t l -> subseq (a ++ t) (a ++ l).
Proof. intros H. induction a; simpl; [assumption | now apply subseq_take]. Qed.

Lemma subseq_removeChild (t l : list nat) x :
  subseq t l -> ~ In x t -> subseq t (removeChild x l).
Proof.
  unfold removeChild.
  induction 1 as [l|y t l _ IH|y t l _ IH]; intros Hx; simpl.
  - constructor.
  - destruct (y =? x)%nat; simpl; [|apply subseq_skip]; now apply IH.
  - destruct (Nat.eqb_spec y x) as [->|Hne]; simpl.
    + elim Hx. now left.
    + apply subseq_take. apply IH. intros Hin. apply Hx. now right.
Qed.

Lemma removed_In (dels d : list nat) x :
  In x (fold_right removeChild d dels) <-> In x d /\ ~ In x dels.
Proof.
  induction dels as [|a dels IH]; simpl; [tauto|].
  rewrite removeChild_In, IH. intuition congruence.
Qed.

Lemma removed_NoDup (dels d : list nat) : NoDup d -> NoDup (fold_right removeChild d dels).
Proof.
  intros H. induction dels as [|a dels IH]; simpl; [assumption|].
  now apply removeChild_NoDup.
Qed.

Lemma removed_subseq (dels t d : list nat) :
  subseq t d -> (forall x, In x t -> ~ In x dels) ->
  subseq t (fold_right removeChild d dels).
Proof.
  intros Hs Hd. induction dels as [|a dels IH]; simpl; [assumption|].
  apply subseq_removeChild.
  - apply IH. intros x Hx Hin. apply (Hd x Hx). now right.
  - intros Hin. apply (Hd a Hin). now left.
Qed.

Lemma nodes_kept (kept : list (@Fiber P)) (work : list (@Fiber P * bool)) :
  nodes (map (fun f => (f, false)) kept ++ work) = map node kept ++ nodes work.
Proof. unfold nodes. now rewrite map_app, map_map. Qed.

Lemma stable_kept (kept : list (@Fiber P)) (work : list (@Fiber P * bool)) :
  stable (map (fun f => (f, false)) kept ++ work) = map node kept ++ stable work.
Proof. induction kept as [|f r IH]; simpl; [reflexivity | now rewrite IH]. Qed.

(** After the deletions and the placements the document holds the nodes of
    the new fibers, in their order, when every old node is deleted or
    reused. *)
Lemma commit_dom (kept ok ro : list (@Fiber P)) (work : list (@Fiber P * bool))
      (dels : list nat) :
  map node kept = map node ok ->
  NoDup (map node ok ++ map node ro) ->
  NoDup (nodes work) ->
  (forall x, In x (map node ok) -> ~ In x (nodes work)) ->
  (forall x, In x (map node ro) -> In x dels \/ In x (nodes work)) ->
  (forall x, In x dels -> In x (map node ro)) ->
  subseq (stable work) (map node ro) ->
  (forall x, In x (stable work) -> ~ In x dels) ->
  place (map (fun f => (f, false)) kept ++ work)
        (fold_right removeChild (map node ok ++ map node ro) dels) =
  map node kept ++ nodes work.
Proof.
  intros Hk Hnd Hw Hdisj Hcover Hdel Hsub Hst.
  rewrite <- nodes_kept.
  apply (place_correct _ []); cbn [app].
  - rewrite nodes_kept, Hk. apply NoDup_app; try assumption.
    now apply NoDup_app_remove_r in Hnd.
  - now apply removed_NoDup.
  - intros x Hx. apply removed_In in Hx. destruct Hx as [Hx Hn].
    rewrite nodes_kept, Hk. apply in_or_app. apply in_app_or in Hx.
    destruct Hx as [Hx|Hx]; [now left|].
    destruct (Hcover x Hx); [contradiction | now right].
  - apply filter_subseq; [now apply removed_NoDup|].
    rewrite stable_kept, Hk. apply removed_subseq.
    + now apply subseq_app.
    + intros x Hx Hin. apply in_app_or in Hx. destruct Hx as [Hx|Hx].
      * pose proof (Hdel x Hin) as Hro.
        clear - Hnd Hx Hro. induction (map node ok) as [|y r IH]; [contradiction|].
        simpl in Hnd. inversion Hnd as [|? ? Hnotin Hnd']; subst.
        destruct Hx as [->|Hx]; [|now apply IH].
        apply Hnotin. apply in_or_app. now right.
      * now apply (Hst x).
Qed.

Lemma shows_own (l c : list (nat * P)) (id : nat) (p : P) :
  NoDup (map fst l) -> In (id, p) l -> shows id (l ++ c) = Some p.
Proof.
  induction l as [|[id' p'] r IH]; simpl; intros Hnd Hin; [contradiction|].
  inversion Hnd as [|? ? Hnotin Hnd']; subst.
  destruct Hin as [E|Hin].
  - injection E as -> ->. now rewrite Nat.eqb_refl.
  - destruct (Nat.eqb_spec id id') as [->|Hne]; [|now apply IH].
    elim Hnotin. change id' with (fst (id', p)). now apply in_map.
Qed.

(** A host is aligned when the document holds exactly the nodes of the
    current fibers, in their order, each showing its fiber's props. *)
Definition aligned (h : @Host P) : Prop :=
  map node (fibers h) = dom h /\
  NoDup (dom h) /\
  (forall f, In f (fibers h) -> (node f < next h)%nat) /\
  (forall f, In f (fibers h) -> shows (node f) (content h) = Some (fprops f)).

Lemma unmounted_aligned : aligned (@unmounted P).
Proof. repeat split; simpl; try constructor; intros f []. Qed.

Lemma aligned_displayed (h : @Host P) : aligned h -> displayed h = map fprops (fibers h).
Proof.
  intros (Hd & _ & _ & Hs). unfold displayed. rewrite <- Hd.
  clear Hd. revert Hs. generalize (content h). intros c.
  induction (fibers h) as [|f r IH]; intros Hs; [reflexivity|].
  simpl. rewrite (Hs f) by now left. simpl. f_equal. apply IH.
  intros g Hg. apply Hs. now right.
Qed.

(** *** The map of the remaining children, whatever their keys *)

Lemma map_set_In k v (m : @Existing P) kv : In kv (map_set k v m) -> kv = (k, v) \/ In kv m.
Proof.
  induction m as [|[k' v'] r IH]; simpl; [intuition|].
  destruct (k =? k'); simpl; intuition.
Qed.

Lemma map_set_keys k v (m : @Existing P) :
  NoDup (map fst m) -> NoDup (map fst (map_set k v m)).
Proof.
  induction m as [|[k' v'] r IH]; simpl; intros Hnd; [repeat constructor; intros []|].
  inversion Hnd as [|? ? Hnotin Hnd']; subst.
  destruct (Z.eqb_spec k k') as [->|Hne]; simpl; [now constructor|].
  constructor; [|now apply IH].
  intros Hin. apply in_map_iff in Hin. destruct Hin as (kv & E & Hin).
  apply map_set_In in Hin. destruct Hin as [->|Hin]; [now elim Hne|].
  apply Hnotin. rewrite <- E. now apply in_map.
Qed.

Lemma map_set_nodes k v (m : @Existing P) :
  NoDup (map enode m) -> ~ In (enode (k, v)) (map enode m) ->
  NoDup (map enode (map_set k v m)).
Proof.
  induction m as [|[k' v'] r IH]; simpl; intros Hnd Hx; [repeat constructor; intros []|].
  inversion Hnd as [|? ? Hnotin Hnd']; subst.
  destruct (k =? k'); simpl.
  - constructor; [|assumption]. intros Hin. apply Hx. now right.
  - constructor; [|apply IH; [assumption | intros Hin; apply Hx; now right]].
    intros Hin. apply in_map_iff in Hin. destruct Hin as (kv & E & Hin).
    apply map_set_In in Hin. destruct Hin as [->|Hin].
    + apply Hx. left. now rewrite E.
    + apply Hnotin. rewrite <- E. now apply in_map.
Qed.

Lemma distinct_nodes (ro : list (@Fiber P)) (a b : nat) f g :
  NoDup (map node ro) -> nth_error ro a = Some f -> nth_error ro b = Some g ->
  node f = node g -> a = b.
Proof.
  intros Hnd Ha Hb E.
  apply (proj1 (NoDup_nth_error (map node ro)) Hnd).
  - rewrite length_map. apply nth_error_Some. congruence.
  - rewrite (map_nth_error node _ _ Ha), (map_nth_error node _ _ Hb). now rewrite E.
Qed.

(** The entries of the map after the old fibers below index [i] *)
Definition mapped (ro : list (@Fiber P)) (k i : nat) (m : @Existing P) : Prop :=
  NoDup (map fst m) /\ NoDup (map enode m) /\
  forall key j f,
    In (key, (j, f)) m ->
    key = fkey f /\ (k <= j < i)%nat /\ nth_error ro (j - k) = Some f.

Lemma mapRemaining_mapped (ro : list (@Fiber P)) (k : nat) :
  NoDup (map node ro) ->
  forall l pre m,
    ro = pre ++ l ->
    mapped ro k (k + List.length pre) m ->
    mapped ro k (k + List.length ro) (mapRemainingChildren (k + List.length pre) l m).
Proof.
  intros Hnd. induction l as [|f rest IH]; intros pre m Hro Hm.
  - rewrite app_nil_r in Hro. subst pre. exact Hm.
  - cbn [mapRemainingChildren].
    assert (Hlen : S (k + List.length pre) = (k + List.length (pre ++ [f]))%nat).
    { rewrite length_app. simpl. lia. }
    assert (Hf : nth_error ro (List.length pre) = Some f).
    { rewrite Hro, nth_error_app2 by lia. now rewrite Nat.sub_diag. }
    rewrite Hlen. apply IH; [now rewrite <- app_assoc|].
    rewrite <- Hlen. destruct Hm as (Hk & Hn & Hall).
    split; [now apply map_set_keys|]. split.
    + apply map_set_nodes; [assumption|].
      intros Hin. apply in_map_iff in Hin. destruct Hin as ([key' [j g]] & E & Hin).
      destruct (Hall _ _ _ Hin) as (_ & Hj & Hg). cbn in E.
      pose proof (distinct_nodes ro _ _ _ _ Hnd Hg Hf E). lia.
    + intros key' j g Hin. apply map_set_In in Hin. destruct Hin as [E|Hin].
      * injection E as -> -> ->. split; [reflexivity|]. split; [lia|].
        now replace (k + List.length pre - k)%nat with (List.length pre) by lia.
      * destruct (Hall _ _ _ Hin) as (E & Hj & Hg). repeat split; try assumption; lia.
Qed.

Lemma mapRemaining_good (ro : list (@Fiber P)) (k L nxt : nat) :
  NoDup (map node ro) ->
  (forall f, In f ro -> (node f < nxt)%nat) ->
  good ro k L 0 nxt (mapRemainingChildren k ro []) /\
  (forall x, In x (map enode (mapRemainingChildren k ro [])) -> In x (map node ro)).
Proof.
  intros Hnd Hlt.
  destruct (mapRemaining_mapped ro k Hnd ro [] []) as (Hk & Hn & Hall).
  { reflexivity. }
  { split; [constructor|]. split; [constructor|]. intros ? ? ? []. }
  cbn [List.length] in Hk, Hn, Hall. rewrite Nat.add_0_r in Hk, Hn, Hall.
  split.
  - split; [assumption|]. split; [assumption|].
    intros key0 i f Hin. destruct (Hall _ _ _ Hin) as (E & Hi & Hnth).
    split; [assumption|]. split; [lia|]. split; [assumption|]. split; [|lia].
    apply Hlt. eapply nth_error_In. exact Hnth.
  - intros x Hx. apply in_map_iff in Hx. destruct Hx as ([key0 [i f]] & <- & Hin).
    destruct (Hall _ _ _ Hin) as (_ & _ & Hnth).
    change (In (node f) (map node ro)).
    apply in_map. eapply nth_error_In. exact Hnth.
Qed.

(** *** What follows the first loop *)
Lemma remaining_spec (kept : nat) (ro : list (@Fiber P)) (rn : list (@Element P))
      (nxt : nat) work dels nxt' :
  NoDup (map node ro) ->
  (forall f, In f ro -> (node f < nxt)%nat) ->
  remaining kept ro rn nxt = (work, (dels, nxt')) ->
  map (fun w => element_of (fst w)) work = rn /\
  (nxt <= nxt')%nat /\
  NoDup (nodes work) /\
  (forall x, In x (nodes work) ->
     (In x (map node ro) /\ ~ In x dels) \/ (nxt <= x < nxt')%nat) /\
  (forall x, In x dels -> In x (map node ro)) /\
  subseq (stable work) (map node ro) /\
  (NoDup (map fkey ro) \/ rn = [] ->
   forall x, In x (map node ro) -> In x dels \/ In x (nodes work)).
Proof.
  intros Hnd Hlt. unfold remaining. destruct rn as [|e rest].
  - intros E. injection E as <- <- <-.
    split; [reflexivity|]. split; [lia|]. split; [constructor|].
    split; [intros x []|]. split; [intros x Hx; exact Hx|].
    split; [constructor|]. intros _ x Hx. now left.
  - destruct (mapRemaining_good ro kept (Nat.pred kept) nxt Hnd Hlt) as [Hg Hin].
    assert (Hcover : NoDup (map fkey ro) ->
                     map enode (mapRemainingChildren kept ro []) = map node ro).
    { intros Hk. rewrite mapRemaining_entries by exact Hk. apply entries_nodes. }
    revert Hg Hin Hcover. generalize (mapRemainingChildren kept ro []). intros m Hg Hin Hcover.
    destruct (second_pass (e :: rest) m (Nat.pred kept) nxt) as [work0 [m' n']] eqn:Hsp.
    intros E. injection E as <- <- <-.
    destruct (second_pass_spec _ _ _ _ _ _ _ _ _ _ Hg Hsp)
      as (H1 & H2 & H3 & H4 & H5 & H6 & H7).
    cbn [skipn] in H7. change (fun kv : Z * (nat * Fiber) => node (snd (snd kv))) with enode.
    split; [assumption|]. split; [assumption|]. split; [assumption|].
    split; [|split; [|split]].
    + intros x Hx. destruct (H4 x Hx) as [[Ha Hb]|Hfresh]; [left | now right].
      split; [now apply Hin | exact Hb].
    + intros x Hx. apply Hin. now apply H6.
    + exact H7.
    + intros [Hk|Hk]; [|discriminate]. intros x Hx.
      rewrite <- (Hcover Hk) in Hx. now apply H5.
Qed.

(** *** Placement keeps what is in the document and adds the marked nodes *)
Lemma insertBefore_In x s l y : In y (insertBefore x s l) <-> y = x \/ In y l.
Proof.
  unfold insertBefore. rewrite insert_at_In, removeChild_In.
  destruct (Nat.eq_dec y x); intuition.
Qed.

Lemma appendChild_In x l y : In y (appendChild x l) <-> y = x \/ In y l.
Proof.
  unfold appendChild. rewrite in_app_iff, removeChild_In. simpl.
  destruct (Nat.eq_dec y x); intuition.
Qed.

Lemma place_In (work : list (@Fiber P * bool)) :
  forall d x,
    In x (place work d) <->
    In x d \/ In (x, true) (map (fun w => (node (fst w), snd w)) work).
Proof.
  induction work as [|[f placed] rest IH]; intros d x; cbn [place map fst snd].
  - simpl. tauto.
  - rewrite IH. cbn [In]. destruct placed.
    + assert (E : (node f, true) = (x, true) <-> x = node f).
      { split; [intros [= ->] | intros ->]; reflexivity. }
      rewrite E.
      destruct (next_stable rest); rewrite ?insertBefore_In, ?appendChild_In; tauto.
    + assert (E : (node f, false) = (x, true) <-> False).
      { split; [discriminate | tauto]. }
      rewrite E. tauto.
Qed.

Lemma NoDup_app_In {A} (a b : list A) (x : A) : NoDup (a ++ b) -> In x a -> ~ In x b.
Proof.
  induction a as [|y r IH]; simpl; intros Hnd Ha Hb; [contradiction|].
  inversion Hnd as [|? ? Hnotin Hnd']; subst.
  destruct Ha as [->|Ha]; [|now apply (IH Hnd' Ha)].
  apply Hnotin. apply in_or_app. now right.
Qed.

Lemma unmarked_stable (work : list (@Fiber P * bool)) f :
  In (f, false) work -> In (node f) (stable work).
Proof.
  induction work as [|[g placed] rest IH]; simpl; [tauto|].
  intros [E|Hin].
  - injection E as -> ->. now left.
  - destruct placed; [|right]; now apply IH.
Qed.

(** A host is present when its fibers own distinct nodes of the document,
    each showing its fiber's props.  The document may hold other nodes. *)
Definition present (h : @Host P) : Prop :=
  NoDup (map node (fibers h)) /\
  (forall f, In f (fibers h) -> In (node f) (dom h)) /\
  (forall f, In f (fibers h) -> (node f < next h)%nat) /\
  (forall f, In f (fibers h) -> shows (node f) (content h) = Some (fprops f)).

Lemma unmounted_present : present (@unmounted P).
Proof. split; [constructor|]. repeat split; intros f []. Qed.

Lemma aligned_present h : aligned h -> present h.
Proof.
  intros (Hd & Hnd & Hlt & Hs). split; [now rewrite Hd|]. split; [|now split].
  intros f Hf. rewrite <- Hd. now apply in_map.
Qed.

Lemma present_displayed h f : present h -> In f (fibers h) -> In (fprops f) (displayed h).
Proof.
  intros (_ & Hin & _ & Hs) Hf. unfold displayed. apply in_flat_map.
  exists (node f). split; [now apply Hin|]. rewrite (Hs f Hf). now left.
Qed.

(** *** One render *)

(** The facts both invariants rest on. *)
Lemma reconcile_work (h : @Host P) (new : list (@Element P)) kept ro rn work dels nxt' :
  present h ->
  first_pass (fibers h) new = (kept, (ro, rn)) ->
  remaining (List.length kept) ro rn (next h) = (work, (dels, nxt')) ->
  exists ok,
    fibers h = ok ++ ro /\ map node kept = map node ok /\
    NoDup (map node ok ++ map node ro) /\
    (forall x, In x (map node ok ++ map node ro) -> (x < next h)%nat) /\
    (next h <= nxt')%nat /\
    NoDup (nodes work) /\
    (forall x, In x (nodes work) -> In x (map node ro) \/ (next h <= x < nxt')%nat) /\
    (forall x, In x (map node ok) -> ~ In x (nodes work)) /\
    (forall x, In x dels -> In x (map node ro)) /\
    subseq (stable work) (map node ro) /\
    (forall x, In x (stable work) -> ~ In x dels) /\
    (NoDup (map fkey ro) \/ rn = [] ->
     forall x, In x (map node ro) -> In x dels \/ In x (nodes work)) /\
    map element_of (map fst (map (fun f => (f, false)) kept ++ work)) = new.
Proof.
  intros (Hnd & Hin & Hlt & Hs) F Hrem.
  destruct (first_pass_spec _ _ _ _ _ F) as (ok & Hold & Hk & Hnew).
  exists ok. split; [exact Hold|]. split; [exact Hk|].
  assert (Hnd' : NoDup (map node ok ++ map node ro)).
  { now rewrite <- map_app, <- Hold. }
  assert (Hlow : forall x, In x (map node ok ++ map node ro) -> (x < next h)%nat).
  { intros x Hx. rewrite <- map_app, <- Hold in Hx. apply in_map_iff in Hx.
    destruct Hx as (f & <- & Hf). now apply Hlt. }
  destruct (remaining_spec _ _ _ _ _ _ _ (NoDup_app_remove_l _ _ Hnd')
              (fun f Hf => Hlow _ (in_or_app _ _ _ (or_intror (in_map node _ _ Hf)))) Hrem)
    as (H1 & H2 & H3 & H4 & H6 & H7 & H5).
  split; [exact Hnd'|]. split; [exact Hlow|]. split; [exact H2|]. split; [exact H3|].
  split; [|split; [|split; [|split; [|split; [|split]]]]].
  - intros x Hx. destruct (H4 x Hx) as [[Hro _]|Hfresh]; [now left | now right].
  - intros x Hx Hw. destruct (H4 x Hw) as [[Hro _]|Hfresh].
    + exact (NoDup_app_In _ _ x Hnd' Hx Hro).
    + assert (x < next h)%nat; [|lia]. apply Hlow. apply in_or_app. now left.
  - exact H6.
  - exact H7.
  - intros x Hx Hdel. destruct (H4 x (stable_incl _ _ Hx)) as [[_ Hn]|Hfresh];
      [contradiction|].
    assert (x < next h)%nat; [|lia]. apply Hlow. apply in_or_app. right.
    now apply (subseq_In _ _ _ H7).
  - exact H5.
  - rewrite !map_app, !map_map. cbn [fst]. rewrite H1. symmetry. exact Hnew.
Qed.

(** Whatever the keys, every child of a render has its node in the
    document, showing its props. *)
Theorem reconcile_present (h : @Host P) (new : list (@Element P)) :
  present h ->
  present (reconcile h new) /\ map element_of (fibers (reconcile h new)) = new.
Proof.
  intros Hp. unfold reconcile.
  destruct (first_pass (fibers h) new) as [kept [ro rn]] eqn:F.
  destruct (remaining (List.length kept) ro rn (next h)) as [work [dels nxt']] eqn:Hrem.
  destruct (reconcile_work h new _ _ _ _ _ _ Hp F Hrem)
    as (ok & Hold & Hk & Hnd' & Hlow & Hnxt & Hw & Hwhere & Hdisj & Hdel & Hsub & Hst & _ & He).
  destruct Hp as (Hnd & Hin & Hlt & Hs).
  unfold present. cbv zeta. cbn [fibers dom content next].
  assert (Hall : nodes (map (fun f => (f, false)) kept ++ work) =
                 map node (map fst (map (fun f => (f, false)) kept ++ work))).
  { unfold nodes. now rewrite map_map. }
  assert (Hnda : NoDup (map node (map fst (map (fun f => (f, false)) kept ++ work)))).
  { rewrite <- Hall, nodes_kept, Hk. apply NoDup_app; try assumption.
    now apply NoDup_app_remove_r in Hnd'. }
  split; [|exact He]. split; [exact Hnda|]. split; [|split].
  - intros f Hf. apply place_In. apply in_map_iff in Hf. destruct Hf as ([g b] & <- & Hg).
    cbn [fst]. apply in_app_or in Hg. destruct Hg as [Hg|Hg].
    + left. apply in_map_iff in Hg. destruct Hg as (g' & E & Hg'). injection E as -> <-.
      assert (Hok : In (node g) (map node ok)) by (rewrite <- Hk; now apply in_map).
      apply removed_In. split.
      * apply in_map_iff in Hok. destruct Hok as (g0 & <- & Hg0).
        apply Hin. rewrite Hold. apply in_or_app. now left.
      * intros Hd. exact (NoDup_app_In _ _ _ Hnd' Hok (Hdel _ Hd)).
    + destruct b.
      * right. apply in_map_iff. exists (g, true). split; [reflexivity|].
        apply in_or_app. now right.
      * left. apply unmarked_stable in Hg. apply removed_In. split; [|now apply Hst].
        pose proof (subseq_In _ _ _ Hsub Hg) as Hro.
        apply in_map_iff in Hro. destruct Hro as (g0 & <- & Hg0).
        apply Hin. rewrite Hold. apply in_or_app. now right.
  - intros f Hf. apply (in_map node) in Hf. rewrite <- Hall, nodes_kept, Hk in Hf.
    apply in_app_or in Hf. destruct Hf as [Hf|Hf].
    + assert (node f < next h)%nat; [|lia]. apply Hlow. apply in_or_app. now left.
    + destruct (Hwhere _ Hf) as [Hro|Hfresh]; [|lia].
      assert (node f < next h)%nat; [|lia]. apply Hlow. apply in_or_app. now right.
  - intros f Hf. apply shows_own.
    + rewrite map_map. cbn [fst]. rewrite <- map_map. exact Hnda.
    + apply in_map_iff in Hf. destruct Hf as (w & <- & Hw').
      apply in_map_iff. now exists w.
Qed.

(** When the old fibers have pairwise distinct keys, or the keys of the
    render are those of the last one, the document holds the nodes of the
    children and no other. *)
Theorem reconcile_aligned (h : @Host P) (new : list (@Element P)) :
  aligned h ->
  NoDup (map fkey (fibers h)) \/ map fkey (fibers h) = map key new ->
  aligned (reconcile h new) /\ map element_of (fibers (reconcile h new)) = new.
Proof.
  intros Ha Hkeys.
  destruct (reconcile_present h new (aligned_present h Ha)) as [(Hnd1 & _ & Hlt1 & Hs1) He1].
  split; [|exact He1]. revert Hnd1 Hlt1 Hs1. clear He1. unfold reconcile.
  destruct (first_pass (fibers h) new) as [kept [ro rn]] eqn:F.
  destruct (remaining (List.length kept) ro rn (next h)) as [work [dels nxt']] eqn:Hrem.
  destruct (reconcile_work h new _ _ _ _ _ _ (aligned_present h Ha) F Hrem)
    as (ok & Hold & Hk & Hnd' & Hlow & Hnxt & Hw & Hwhere & Hdisj & Hdel & Hsub & Hst & Hcover & He).
  unfold aligned. cbv zeta. cbn [fibers dom content next]. intros Hnd1 Hlt1 Hs1.
  assert (Hdom : dom h = map node ok ++ map node ro).
  { destruct Ha as (Hd & _). now rewrite <- Hd, Hold, map_app. }
  assert (Hall : map node (map fst (map (fun f => (f, false)) kept ++ work)) =
                 map node kept ++ nodes work).
  { rewrite <- nodes_kept. unfold nodes. now rewrite map_map. }
  assert (Hplace : place (map (fun f => (f, false)) kept ++ work)
                         (fold_right removeChild (dom h) dels) =
                   map node (map fst (map (fun f => (f, false)) kept ++ work))).
  { rewrite Hall, Hdom. apply commit_dom; try assumption.
    apply Hcover. destruct Hkeys as [Hkeys|Hkeys].
    - left. rewrite Hold, map_app in Hkeys. now apply NoDup_app_remove_l in Hkeys.
    - right. destruct (first_pass_same _ _ Hkeys) as [Hrn _]. now rewrite F in Hrn. }
  split; [symmetry; exact Hplace|]. split; [now rewrite Hplace|]. now split.
Qed.

(** *** What a sequence of renders leaves *)

Lemma element_of_props (l : list (@Fiber P)) : map props (map element_of l) = map fprops l.
Proof. now rewrite map_map. Qed.

Lemma element_of_keys (l : list (@Fiber P)) : map key (map element_of l) = map fkey l.
Proof. now rewrite map_map. Qed.

Definition elements (children : option (list (@Element P))) : list (@Element P) :=
  match children with
  | Some new => new
  | None => []
  end.

(** A host is sound for the children of the last render when it is
    aligned and its fibers are those children, one for one. *)
Definition sound (h : @Host P) (children : option (list (@Element P))) : Prop :=
  aligned h /\ map element_of (fibers h) = elements children.

Lemma sound_displayed h children :
  sound h children -> displayed h = map props (elements children).
Proof.
  intros [Ha He]. rewrite (aligned_displayed h Ha), <- He. symmetry. apply element_of_props.
Qed.

Lemma sound_keys h children :
  sound h children -> map fkey (fibers h) = map key (elements children).
Proof. intros [_ He]. rewrite <- He. symmetry. apply element_of_keys. Qed.

Lemma commit_sound h children :
  aligned h ->
  NoDup (map fkey (fibers h)) \/ map fkey (fibers h) = map key (elements children) ->
  sound (commit children h) children.
Proof.
  intros Ha Hk. destruct children as [new|]; cbn [commit].
  - now apply reconcile_aligned.
  - split; [apply unmounted_aligned | reflexivity].
Qed.

(** Rendering the same children again changes nothing that is shown. *)
Lemma rerender_sound (children : option (list (@Element P))) (n : nat) :
  sound (Nat.iter n (commit children) (commit children unmounted)) children.
Proof.
  induction n as [|n IH]; cbn [Nat.iter nat_rect].
  - apply commit_sound; [apply unmounted_aligned | left; constructor].
  - apply commit_sound; [apply IH | right; now apply sound_keys].
Qed.

Definition distinct_keys (children : option (list (@Element P))) : Prop :=
  NoDup (map key (elements children)).

(** As long as every render had children with pairwise distinct keys, the
    host stays aligned and its fibers have pairwise distinct keys. *)
Lemma history_aligned {X : Type} (c : X -> option (list (@Element P))) (xs : list X) :
  forall h,
    aligned h -> NoDup (map fkey (fibers h)) ->
    Forall (fun x => distinct_keys (c x)) xs ->
    aligned (fold_left (fun h x => commit (c x) h) xs h) /\
    NoDup (map fkey (fibers (fold_left (fun h x => commit (c x) h) xs h))).
Proof.
  induction xs as [|x xs IH]; intros h Ha Hk Hall; [now split|].
  inversion Hall as [|? ? Hx Hxs]; subst. cbn [fold_left].
  assert (Hsound : sound (commit (c x) h) (c x)) by (apply commit_sound; [assumption | now left]).
  apply IH; [apply Hsound | | assumption].
  rewrite (sound_keys _ _ Hsound). exact Hx.
Qed.

(** Whatever the renders before it, a render leaves each of its children
    in the document. *)
Lemma commit_present h children :
  present h ->
  present (commit children h) /\
  map element_of (fibers (commit children h)) = elements children.
Proof.
  intros Hp. destruct children as [new|]; cbn [commit elements].
  - now apply reconcile_present.
  - split; [apply unmounted_present | reflexivity].
Qed.

Lemma history_present {X : Type} (c : X -> option (list (@Element P))) (xs : list X) :
  forall h, present h -> present (fold_left (fun h x => commit (c x) h) xs h).
Proof.
  induction xs as [|x xs IH]; intros h Hp; [exact Hp|].
  cbn [fold_left]. apply IH. now apply commit_present.
Qed.

Lemma commit_displays h children (p : P) :
  present h -> In p (map props (elements children)) -> In p (displayed (commit children h)).
Proof.
  intros Hp Hin. destruct (commit_present h children Hp) as [Hp' He].
  rewrite <- He, element_of_props in Hin. apply in_map_iff in Hin.
  destruct Hin as (f & <- & Hf). now apply present_displayed.
Qed.

End Facts.

End ReactFacts.

(** *** The rows and the cards in the document *)

Lemma keyed_props {P : Type} (k : P -> Z) (l : list P) :
  map React.props (map (fun p => React.mkElement (k p) p) l) = l.
Proof. rewrite map_map. cbn [React.props]. apply map_id. Qed.

Lemma keyed_keys {P : Type} (k : P -> Z) (l : list P) :
  map React.key (map (fun p => React.mkElement (k p) p) l) = map k l.
Proof. now rewrite map_map. Qed.

(** The document shows the rows of the message's table, however often the
    message has been rendered. *)
Lemma Message_document_rows (props : Message.Props) (renders : nat) :
  React.displayed (Message.document props renders) =
  match Message.table (Message.Message props) with
  | Some rows => rows
  | None => []
  end.
Proof.
  unfold Message.document.
  rewrite (ReactFacts.sound_displayed _ _ (ReactFacts.rerender_sound _ renders)).
  unfold Message.tbody.
  destruct (Message.table (Message.Message props)) as [rows|]; [|reflexivity].
  apply keyed_props.
Qed.

(** A render of the results panel satisfies [distinct_ids] when it shows no
    cards or shows the cards of orders with pairwise distinct identifiers. *)
Definition distinct_ids (frame : ResultsPanel.Frame) : Prop :=
  match frame with
  | ResultsPanel.Shown (Some r) ResultsPanel.table_tab =>
      success r = true -> NoDup (map order_id (orders r))
  | _ => True
  end.

Lemma card_list_success (r : ResponseEnvelope) :
  success r = true ->
  ReactFacts.elements
    (ResultsPanel.card_list (ResultsPanel.ResultsPanel (Some r) ResultsPanel.table_tab)) =
  map (fun card => React.mkElement (order_id (ResultsPanel.card_order card)) card)
      (map (ResultsPanel.render_card r) (Array_sort by_order_id (orders r))).
Proof.
  intros Hs. unfold ResultsPanel.ResultsPanel. rewrite Hs. cbn [negb].
  cbn [ResultsPanel.card_list ResultsPanel.content].
  destruct (orders r) as [|o rest]; [reflexivity|].
  cbn [List.length Nat.eqb]. reflexivity.
Qed.

Lemma distinct_ids_keys (frame : ResultsPanel.Frame) :
  distinct_ids frame -> ReactFacts.distinct_keys (ResultsPanel.children frame).
Proof.
  unfold ReactFacts.distinct_keys.
  destruct frame as [[r|] [|]|]; cbn [distinct_ids ResultsPanel.children]; intros H;
    try (cbn; constructor).
  - destruct (success r) eqn:Hs.
    + rewrite (card_list_success r Hs), keyed_keys, map_map.
      cbn [ResultsPanel.render_card ResultsPanel.card_order].
      eapply Permutation_NoDup; [|exact (H eq_refl)].
      apply Permutation_map, Array_sort_perm.
    + unfold ResultsPanel.ResultsPanel. rewrite Hs. cbn. constructor.
  - unfold ResultsPanel.ResultsPanel. destruct (success r); cbn; constructor.
Qed.

(** Whatever the panel has shown before, the document shows the card of
    every order of the current render. *)
Lemma ResultsPanel_document_has_cards (frames : list ResultsPanel.Frame)
      (r : ResponseEnvelope) (order : Order) :
  success r = true ->
  In order (orders r) ->
  In (ResultsPanel.render_card r order)
     (React.displayed
        (ResultsPanel.document
           (frames ++ [ResultsPanel.Shown (Some r) ResultsPanel.table_tab]))).
Proof.
  intros Hs Hin. unfold ResultsPanel.document.
  rewrite fold_left_app. cbn [fold_left]. unfold ResultsPanel.paint at 1.
  apply ReactFacts.commit_displays.
  - apply (ReactFacts.history_present ResultsPanel.children).
    apply ReactFacts.unmounted_present.
  - cbn [ResultsPanel.children]. rewrite (card_list_success r Hs), keyed_props.
    apply in_map. apply (Permutation_in order (Array_sort_perm by_order_id (orders r)) Hin).
Qed.

(** Once the card list has been mounted afresh, and as long as the renders
    since then were of orders with pairwise distinct identifiers, the
    document shows the cards of the current render. *)
Lemma ResultsPanel_document_cards (earlier recent : list ResultsPanel.Frame)
      (r : ResponseEnvelope) :
  ResultsPanel.document earlier = React.unmounted ->
  Forall distinct_ids recent ->
  success r = true ->
  React.displayed
    (ResultsPanel.document
       (earlier ++ recent ++ [ResultsPanel.Shown (Some r) ResultsPanel.table_tab])) =
  map (ResultsPanel.render_card r) (Array_sort by_order_id (orders r)).
Proof.
  intros He Hall Hs. unfold ResultsPanel.document in *.
  rewrite !fold_left_app, He. cbn [fold_left].
  destruct (ReactFacts.history_aligned ResultsPanel.children recent React.unmounted)
    as [Ha Hk].
  - apply ReactFacts.unmounted_aligned.
  - constructor.
  - revert Hall. apply Forall_impl. exact distinct_ids_keys.
  - unfold ResultsPanel.paint at 1.
    rewrite (ReactFacts.sound_displayed _ (ResultsPanel.children
               (ResultsPanel.Shown (Some r) ResultsPanel.table_tab))).
    + cbn [ResultsPanel.children]. rewrite (card_list_success r Hs). apply keyed_props.
    + apply ReactFacts.commit_sound; [exact Ha | left; exact Hk].
Qed.

(** ** The HTTP client *)

(** The request [queryAgent] builds for a query. *)
Definition query_request (query : jstr) : Request :=
  mkRequest (str "/api/query") (str "POST")
            [(str "Content-Type", str "application/json")]
            (Some (JSON_stringify (JObj [(str "query", JStr query)]))).

(** The request [getStats] builds. *)
Definition stats_request : Request :=
  mkRequest (str "/api/stats") (str "GET") [] None.

(** The message of the error both functions throw on a response that is not
    ok. *)
Definition api_error {B} (res : Response B) : exn :=
  Error (str "API error: " ++ Number_toString (status res)).

(** How a response settles either call. *)
Definition settle_response {B} (res : Response B) : exn + B :=
  if ok res then
    match json_body res with
    | inl m => inl (SyntaxError m)
    | inr v => inr v
    end
  else inl (api_error res).

Lemma queryAgent_run {B} (query : jstr) (net : Network B) :
  Api.queryAgent query net =
  ([query_request query],
   match net (query_request query) with
   | inl m => inl (TypeError m)
   | inr res => settle_response res
   end).
Proof.
  unfold Api.queryAgent, bind, fetch, settle_response, api_error.
  change (new_Request _ _) with (query_request query).
  destruct (net (query_request query)) as [m|res]; [reflexivity|].
  destruct (ok res); simpl; [|reflexivity].
  unfold Response_json. now destruct (json_body res).
Qed.

Lemma getStats_run {B} (net : Network B) :
  Api.getStats net =
  ([stats_request],
   match net stats_request with
   | inl m => inl (TypeError m)
   | inr res => settle_response res
   end).
Proof.
  unfold Api.getStats, bind, fetch, settle_response, api_error.
  change (new_Request _ _) with stats_request.
  destruct (net stats_request) as [m|res]; [reflexivity|].
  destruct (ok res); simpl; [|reflexivity].
  unfold Response_json. now destruct (json_body res).
Qed.

Lemma ok_2xx {B} (res : Response B) :
  ok res = true <-> 200 <= status res <= 299.
Proof.
  unfold ok. rewrite andb_true_iff, !Z.leb_le. tauto.
Qed.

Lemma settle_response_error {B} (res : Response B) :
  settle_response res = inl (api_error res) <-> ~ (200 <= status res <= 299).
Proof.
  rewrite <- ok_2xx. unfold settle_response.
  destruct (ok res); split; intros H.
  - destruct (json_body res); discriminate.
  - now elim H.
  - discriminate.
  - reflexivity.
Qed.

Lemma stringify_query (query : jstr) :
  JSON_stringify (JObj [(str "query", JStr query)]) =
  str "{" ++ QuoteJSONString (str "query") ++ str ":" ++ QuoteJSONString query ++ str "}".
Proof.
  simpl. now rewrite <- !app_assoc.
Qed.

(** C2, as the code has it.  [queryAgent] sends exactly one request: a POST
    to [API_BASE] followed by [/query], that is [/api/query], with the header
    [Content-Type: application/json] and, as body, the JSON serialization of
    the object whose one member [query] is the query.  When the response is
    ok (status 200 to 299) the call settles as [res.json()] does: it returns
    the body parsed as JSON. *)
Theorem queryAgent_posts_query {B} (query : jstr) (net : Network B) :
  fst (Api.queryAgent query net) =
    [ mkRequest (Api.API_BASE ++ str "/query") (str "POST")
                [(str "Content-Type", str "application/json")]
                (Some (JSON_stringify (JObj [(str "query", JStr query)]))) ] /\
  Api.API_BASE ++ str "/query" = str "/api/query" /\
  forall (res : Response B) (v : B),
    net (query_request query) = inr res ->
    200 <= status res <= 299 ->
    json_body res = inr v ->
    snd (Api.queryAgent query net) = inr v.
Proof.
  rewrite queryAgent_run. simpl. repeat split.
  intros res v Hnet Hok Hbody. rewrite Hnet.
  unfold settle_response. apply ok_2xx in Hok. now rewrite Hok, Hbody.
Qed.

(** A network that answers every request with the given status and body. *)
Definition answering {B} (st : Z) (b : jstr + B) : Network B :=
  fun _ => inr (mkResponse st b).

Lemma queryAgent_posts_query_witness :
  snd (Api.queryAgent (str "Orders under $100") (answering 200 (inr 7%nat))) = inr 7%nat.
Proof.
  apply (proj2 (proj2 (queryAgent_posts_query (str "Orders under $100")
                         (answering 200 (inr 7%nat))))
           (mkResponse 200 (inr 7%nat)) 7%nat).
  - reflexivity.
  - simpl. lia.
  - reflexivity.
Defined.

(** C2, as the claim words it, fails: the one request of [queryAgent] goes to
    [/api/query], which is not the path [/query]. *)
Lemma queryAgent_path_counterexample :
  map url (fst (Api.queryAgent (str "Orders under $100") (answering 200 (inr 7%nat)))) =
    [str "/api/query"] /\
  str "/api/query" <> str "/query".
Proof.
  split; [reflexivity | discriminate].
Qed.

(** C3.  Once a response has arrived, [queryAgent] and [getStats] throw the
    [Error] with message [API error: ] followed by the status if and only if
    the status is outside 200-299; and an ok response whose body is an
    envelope with [success: false] is returned, not thrown. *)
Theorem api_error_iff_not_ok {B} (query : jstr) (net : Network B)
    (res_q res_s : Response B) :
  net (query_request query) = inr res_q ->
  net stats_request = inr res_s ->
  (snd (Api.queryAgent query net) =
     inl (Error (str "API error: " ++ Number_toString (status res_q)))
   <-> ~ (200 <= status res_q <= 299)) /\
  (snd (Api.getStats net) =
     inl (Error (str "API error: " ++ Number_toString (status res_s)))
   <-> ~ (200 <= status res_s <= 299)) /\
  forall (envelopes : Network ResponseEnvelope) (res : Response ResponseEnvelope)
         (e : ResponseEnvelope),
    envelopes (query_request query) = inr res ->
    200 <= status res <= 299 ->
    json_body res = inr e ->
    success e = false ->
    snd (Api.queryAgent query envelopes) = inr e.
Proof.
  intros Hq Hs. rewrite queryAgent_run, getStats_run. simpl.
  rewrite Hq, Hs. repeat split; try apply settle_response_error.
  intros envelopes res e Hnet Hok Hbody _.
  rewrite queryAgent_run. simpl. rewrite Hnet.
  unfold settle_response. apply ok_2xx in Hok. now rewrite Hok, Hbody.
Qed.

Lemma api_error_iff_not_ok_witness :
  snd (Api.queryAgent (str "Orders under $100") (answering 503 (inl (str "Unexpected token"))))
    = inl (Error (str "API error: 503") : exn) :> (exn + nat).
Proof.
  apply (proj1 (api_error_iff_not_ok (str "Orders under $100")
                  (answering 503 (inl (str "Unexpected token")))
                  (mkResponse 503 (inl (str "Unexpected token")))
                  (mkResponse 503 (inl (str "Unexpected token")))
                  eq_refl eq_refl)).
  simpl. lia.
Defined.

(** ** The stats panel *)

(** The diagnostics with its further members replaced. *)
Definition with_other (s : StatsPanel.Stats) (extra : list (jstr * json)) : StatsPanel.Stats :=
  StatsPanel.mkStats (StatsPanel.accuracy s) (StatsPanel.training_samples s)
                     (StatsPanel.test_samples s) (StatsPanel.state_reorder_rates s)
                     (StatsPanel.feature_importance s) extra.

Lemma on_mount_loaded (net : Network StatsPanel.Stats) (res : Response StatsPanel.Stats)
    (s : StatsPanel.Stats) :
  net stats_request = inr res ->
  200 <= status res <= 299 ->
  json_body res = inr s ->
  StatsPanel.on_mount net StatsPanel.initial =
    (StatsPanel.mkState (Some s) false None, [stats_request]).
Proof.
  intros Hnet Hok Hbody. unfold StatsPanel.on_mount.
  rewrite getStats_run, Hnet. unfold settle_response.
  apply ok_2xx in Hok. now rewrite Hok, Hbody.
Qed.

(** The one name whose label is an object: [__proto__], for which the
    property read yields [Object.prototype]. *)
Lemma object_label_iff (name : jstr) :
  StatsPanel.friendly_or_name name = StatsPanel.object_child <-> name = str "__proto__".
Proof.
  split.
  - unfold StatsPanel.friendly_or_name, StatsPanel.FRIENDLY_NAMES_get.
    destruct (StatsPanel.own_member name StatsPanel.FRIENDLY_NAMES) as [v|].
    + destruct (truthy v); discriminate.
    + destruct (jstr_eqb name (str "__proto__")) eqn:E.
      * intros _. unfold jstr_eqb in E.
        now destruct (list_eq_dec N.eq_dec name (str "__proto__")).
      * destruct (existsb _ _); discriminate.
  - intros ->. reflexivity.
Qed.

Lemma valid_children (s : StatsPanel.Stats) :
  (forall kv, In kv (StatsPanel.feature_importance s) -> fst kv <> str "__proto__") ->
  StatsPanel.invalid_child (StatsPanel.render_stats s) = false.
Proof.
  intros Hnames. unfold StatsPanel.invalid_child, StatsPanel.render_stats.
  cbn [StatsPanel.feature_rows].
  destruct (existsb _ _) eqn:E; [|reflexivity].
  apply existsb_exists in E. destruct E as (row & Hin & Hrow).
  apply in_map_iff in Hin. destruct Hin as (kv & <- & Hkv).
  apply (Permutation_in kv (Permutation_sym (Array_sort_perm _ _))) in Hkv.
  elim (Hnames kv Hkv). apply object_label_iff.
  cbn [StatsPanel.render_feature_row StatsPanel.feature_label] in Hrow.
  now destruct (StatsPanel.friendly_or_name (fst kv)).
Qed.

(** C7, as the code has it.  [getStats] sends exactly one request, a GET to
    [API_BASE] followed by [/stats], that is [/api/stats], and on an ok
    response returns the diagnostics object.  When no feature is named
    [__proto__] the stats panel then shows the accuracy, the two sample
    counts, the state rates sorted by descending rate and the feature
    importances sorted by descending value, each list a rearrangement of the
    mapping's entries; no other member of the object has any part in what is
    shown. *)
Theorem getStats_and_panel (net : Network StatsPanel.Stats)
    (res : Response StatsPanel.Stats) (s : StatsPanel.Stats) :
  net stats_request = inr res ->
  200 <= status res <= 299 ->
  json_body res = inr s ->
  (forall kv, In kv (StatsPanel.feature_importance s) -> fst kv <> str "__proto__") ->
  fst (Api.getStats net) = [mkRequest (Api.API_BASE ++ str "/stats") (str "GET") [] None] /\
  Api.API_BASE ++ str "/stats" = str "/api/stats" /\
  snd (Api.getStats net) = inr s /\
  exists d,
    StatsPanel.StatsPanel (fst (StatsPanel.on_mount net StatsPanel.initial)) =
      Some (StatsPanel.Loaded d) /\
    (forall extra, StatsPanel.render_stats (with_other s extra) = d) /\
    StatsPanel.accuracy_badge d = StatsPanel.accuracy s /\
    StatsPanel.training_cell d = StatsPanel.training_samples s /\
    StatsPanel.test_cell d = StatsPanel.test_samples s /\
    (forall rates, StatsPanel.state_reorder_rates s = Some rates ->
       exists sorted,
         StatsPanel.state_rows d = Some (map StatsPanel.render_state_row sorted) /\
         Permutation sorted rates /\ StronglySorted descending_values sorted) /\
    (StatsPanel.state_reorder_rates s = None -> StatsPanel.state_rows d = None) /\
    exists sorted,
      StatsPanel.feature_rows d = map StatsPanel.render_feature_row sorted /\
      Permutation sorted (StatsPanel.feature_importance s) /\
      StronglySorted descending_values sorted.
Proof.
  intros Hnet Hok Hbody Hnames.
  rewrite (on_mount_loaded net res s Hnet Hok Hbody), getStats_run, Hnet.
  unfold settle_response. pose proof (proj2 (ok_2xx res) Hok) as Hok'.
  rewrite Hok', Hbody.
  split; [reflexivity|]. split; [reflexivity|]. split; [reflexivity|].
  exists (StatsPanel.render_stats s). split.
  { unfold StatsPanel.StatsPanel, StatsPanel.render_loaded.
    cbn [fst StatsPanel.loading StatsPanel.error StatsPanel.stats].
    now rewrite valid_children. }
  do 4 (split; [reflexivity|]). split; [|split].
  - intros rates Hrates.
    exists (Array_sort StatsPanel.by_value_desc rates). split; [|split].
    + unfold StatsPanel.render_stats. cbn [StatsPanel.state_rows]. now rewrite Hrates.
    + apply Permutation_sym, Array_sort_perm.
    + apply sort_by_value_desc_sorted.
  - intros Hnone. unfold StatsPanel.render_stats. cbn [StatsPanel.state_rows].
    now rewrite Hnone.
  - exists (Array_sort StatsPanel.by_value_desc (StatsPanel.feature_importance s)).
    split; [reflexivity|]. split.
    + apply Permutation_sym, Array_sort_perm.
    + apply sort_by_value_desc_sorted.
Qed.

Definition sample_stats : StatsPanel.Stats :=
  StatsPanel.mkStats (873 # 10) 4000 1000
    (Some [(str "TX", 55 # 1); (str "OH", 62 # 1); (str "NY", 41 # 1)])
    [(str "num_items", 12 # 1); (str "has_electronics", 30 # 1)]
    [(str "model", JStr (str "logistic"))].

Lemma getStats_and_panel_witness :
  snd (Api.getStats (answering 200 (inr sample_stats))) = inr sample_stats.
Proof.
  apply (getStats_and_panel (answering 200 (inr sample_stats))
           (mkResponse 200 (inr sample_stats)) sample_stats).
  - reflexivity.
  - simpl. lia.
  - reflexivity.
  - intros kv [<-|[<-|[]]]; intros H; vm_compute in H; discriminate H.
Defined.

(** Diagnostics in which a feature is named [__proto__]. *)
Definition proto_stats : StatsPanel.Stats :=
  StatsPanel.mkStats (873 # 10) 4000 1000 None
    [(str "num_items", 12 # 1); (str "__proto__", 3 # 1)] [].

(** C7, as the claim words it, fails in three ways.  The request of
    [getStats] goes to [/api/stats], which is not the path [/stats].  On a
    response with status 503 that carries the diagnostics, [getStats] throws
    and returns nothing.  And for diagnostics with a feature named
    [__proto__], which [getStats] returns as they are, the panel shows
    nothing: the label of that feature is [Object.prototype], and the
    render throws. *)
Lemma getStats_counterexample :
  (map url (fst (Api.getStats (answering 200 (inr sample_stats)))) = [str "/api/stats"] /\
   str "/api/stats" <> str "/stats") /\
  snd (Api.getStats (answering 503 (inr sample_stats))) =
    inl (Error (str "API error: 503")) /\
  (snd (Api.getStats (answering 200 (inr proto_stats))) = inr proto_stats /\
   StatsPanel.StatsPanel
     (fst (StatsPanel.on_mount (answering 200 (inr proto_stats)) StatsPanel.initial)) = None).
Proof.
  repeat split; try reflexivity. discriminate.
Qed.

(** The state rows of the sample: Ohio, Texas, New York. *)
Example sample_state_rows :
  option_map (map StatsPanel.state_name)
             (StatsPanel.state_rows (StatsPanel.render_stats sample_stats)) =
  Some [str "OH"; str "TX"; str "NY"].
Proof. reflexivity. Qed.

(** The labels of the features [num_items], [toString] and [region]: the
    friendly name, nothing, the name itself. *)
Example sample_labels :
  map StatsPanel.friendly_or_name [str "num_items"; str "toString"; str "region"] =
  [ StatsPanel.text_child (str "# of Items"); StatsPanel.function_child;
    StatsPanel.text_child (str "region") ].
Proof. reflexivity. Qed.

(** ** The order lists *)

Definition order_1 : Order :=
  mkOrder 1 (str "Ann") (str "Columbus") (str "OH") [str "laptop"] 45%float.

Definition order_2 : Order :=
  mkOrder 2 (str "Bob") (str "Austin") (str "TX") [str "desk"; str "lamp"] 120%float.

(** A successful envelope that lists order 2 before order 1. *)
Definition two_orders : ResponseEnvelope :=
  mkEnvelope true 20 2 (Some [(str "state", JStr (str "OH")); (str "min_total", JNum 40)])
             [order_2; order_1] None
             (Some [mkPrediction 1 0.75%float (str "likely_reorder");
                    mkPrediction 2 0.25%float (str "unlikely_reorder")])
             None.

Definition order_7 : Order :=
  mkOrder 7 (str "Ann") (str "Columbus") (str "OH") [str "laptop"] 45%float.

Definition order_3 : Order :=
  mkOrder 3 (str "Bob") (str "Austin") (str "TX") [str "desk"] 120%float.

Definition order_7_again : Order :=
  mkOrder 7 (str "Cy") (str "Reno") (str "NV") [str "lamp"] 8%float.

(** Two orders with the identifier 7 around an order 3. *)
Definition tied_orders : ResponseEnvelope :=
  mkEnvelope true 3 3 None [order_7; order_3; order_7_again] None None None.

Lemma message_table_rows (role content : jstr) (r : ResponseEnvelope) :
  success r = true ->
  match Message.table (Message.Message (Message.mkProps role content (Some r))) with
  | Some rows => rows
  | None => []
  end = map Message.render_row (Array_sort by_order_id (orders r)).
Proof.
  intros Hs. unfold Message.Message. cbn [Message.table Message.result]. rewrite Hs.
  cbn [andb]. now destruct (orders r).
Qed.


Lemma two_orders_distinct :
  distinct_ids (ResultsPanel.Shown (Some two_orders) ResultsPanel.table_tab).
Proof.
  intros _. cbn. constructor; [|constructor; [|constructor]]; cbn; intuition discriminate.
Defined.


Example sample_rows_and_cards :
  map Message.id_cell
      (React.displayed
         (Message.document
            (Message.mkProps (str "assistant") (str "Found 2 of 20 orders.") (Some two_orders))
            3)) = [1; 2] /\
  map ResultsPanel.card_order
      (React.displayed
         (ResultsPanel.document
            [ResultsPanel.Shown (Some two_orders) ResultsPanel.table_tab;
             ResultsPanel.Shown (Some two_orders) ResultsPanel.raw_tab;
             ResultsPanel.Shown (Some tied_orders) ResultsPanel.table_tab])) =
    [order_3; order_7; order_7_again].
Proof. split; vm_compute; reflexivity. Qed.


(** ** Submitting a query *)

Import ChatPanel.

Definition user_message (q : jstr) : Message.Props :=
  Message.mkProps (str "user") q None.

Lemma handleSubmit_begin_some (query : option jstr) (st : State) (q : jstr) (st1 : State) :
  handleSubmit_begin query st = Some (q, st1) ->
  q = query_or_input query st /\ q <> [] /\ isLoading st = false /\
  messages st1 = messages st ++ [user_message q] /\
  latestResult st1 = latestResult st /\ rightTab st1 = rightTab st /\
  isLoading st1 = true /\ input st1 = [].
Proof.
  unfold handleSubmit_begin.
  destruct (query_or_input query st) as [|c rest] eqn:Eq; simpl; [discriminate|].
  destruct (isLoading st) eqn:El; [discriminate|].
  intros H. injection H as <- <-. simpl. repeat split. discriminate.
Qed.

Lemma handleSubmit_guard (query : option jstr) (net : Network ResponseEnvelope) (st : State) :
  query_or_input query st = [] \/ isLoading st = true ->
  handleSubmit query net st = (st, []).
Proof.
  intros H. unfold handleSubmit, handleSubmit_begin.
  destruct H as [H|H]; rewrite H; [reflexivity|].
  now rewrite orb_true_r.
Qed.

Lemma handleSubmit_settled (query : option jstr) (net : Network ResponseEnvelope)
    (st : State) (q : jstr) (st1 : State) :
  handleSubmit_begin query st = Some (q, st1) ->
  handleSubmit query net st =
    (fst (handleSubmit_settle (snd (Api.queryAgent q net)) st1),
     Fetch (query_request q) :: snd (handleSubmit_settle (snd (Api.queryAgent q net)) st1)).
Proof.
  intros H. unfold handleSubmit. rewrite H, queryAgent_run. simpl.
  now destruct (handleSubmit_settle _ st1).
Qed.

Lemma suggestions_not_blank (n : nat) (s : jstr) :
  nth_error SUGGESTIONS n = Some s -> trim s <> [].
Proof.
  destruct n as [|[|[|n]]]; simpl; intros H.
  - injection H as <-. vm_compute. discriminate.
  - injection H as <-. vm_compute. discriminate.
  - injection H as <-. vm_compute. discriminate.
  - now destruct n.
Qed.

Lemma suggestions_truthy (n : nat) (s : jstr) :
  nth_error SUGGESTIONS n = Some s -> truthy s = true.
Proof.
  destruct n as [|[|[|n]]]; simpl; intros H;
    try (injection H as <-; reflexivity).
  now destruct n.
Qed.

(** C9.  When the text an event submits trims to the empty string, or a
    request is in flight, the event ends at the guard of [handleSubmit]: no
    request is sent, [onResult] is not called, and the messages, the input
    and [isLoading] are what they were. *)
Theorem guard_leaves_state (ev : Event) (net : Network ResponseEnvelope) (st : State) :
  (exists s, submitted ev st = Some s /\ trim s = []) \/ isLoading st = true ->
  dispatch ev net st = (st, []) /\
  messages (fst (dispatch ev net st)) = messages st /\
  input (fst (dispatch ev net st)) = input st /\
  isLoading (fst (dispatch ev net st)) = isLoading st /\
  snd (dispatch ev net st) = [].
Proof.
  intros H.
  assert (E : dispatch ev net st = (st, [])).
  { destruct ev as [n| |key shiftKey]; simpl in *.
    - destruct (nth_error SUGGESTIONS n) as [s|] eqn:En; [|reflexivity].
      destruct H as [(s' & Hs & Ht)|Hl].
      + injection Hs as <-. now elim (suggestions_not_blank n s En).
      + apply handleSubmit_guard. now right.
    - apply handleSubmit_guard.
      destruct H as [(s & Hs & Ht)|Hl]; [left | now right].
      injection Hs as <-. exact Ht.
    - unfold handleKeyDown.
      destruct (jstr_eqb key (str "Enter") && negb shiftKey); [|reflexivity].
      apply handleSubmit_guard.
      destruct H as [(s & Hs & Ht)|Hl]; [left | now right].
      injection Hs as <-. exact Ht. }
  rewrite E. repeat split.
Qed.

Definition idle (typed : jstr) : State := mkState [] None false results typed.

Lemma guard_leaves_state_witness :
  dispatch ClickSend (answering 200 (inr two_orders)) (idle (str "   ")) =
    (idle (str "   "), []).
Proof.
  apply (guard_leaves_state ClickSend (answering 200 (inr two_orders)) (idle (str "   "))).
  left. exists (str "   "). split; reflexivity.
Defined.

(** An explicit argument of [handleSubmit] is used as it is: only the typed
    input is trimmed.  The callers pass an entry of [SUGGESTIONS] or nothing,
    so a blank argument does not occur. *)
Example explicit_argument_not_trimmed :
  handleSubmit_begin (Some (str "  ")) (idle []) =
    Some (str "  ", mkState [user_message (str "  ")] None true results []).
Proof. reflexivity. Qed.

(** Whatever happened to the state while the request was in flight, the
    settlement appends one assistant message to the messages of that moment
    and clears [isLoading]. *)
Lemma settle_appends_one (outcome : exn + ResponseEnvelope) (st : State) :
  exists reply,
    messages (fst (handleSubmit_settle outcome st)) = messages st ++ [reply] /\
    Message.role reply = str "assistant" /\
    isLoading (fst (handleSubmit_settle outcome st)) = false /\
    input (fst (handleSubmit_settle outcome st)) = input st.
Proof.
  destruct outcome as [err|r]; simpl; eexists; repeat split.
Qed.

(** The text of the assistant's message after a rejection. *)
Definition rejection_text (err : exn) : jstr :=
  str "Error: " ++ message err ++ str ". Make sure the backend is running (python main.py).".

(** C10.  A submission that passes the guard appends one user message and
    then one assistant message, and leaves [isLoading] false, whether
    [queryAgent] resolves or rejects.  When it rejects, the assistant's text
    is [Error: ], the thrown message and the hint about the backend, and
    [onResult] is not called. *)
Theorem submission_appends_two (query : option jstr) (net : Network ResponseEnvelope)
    (st : State) (q : jstr) (st1 : State) :
  handleSubmit_begin query st = Some (q, st1) ->
  exists reply,
    messages (fst (handleSubmit query net st)) = messages st ++ [user_message q; reply] /\
    Message.role reply = str "assistant" /\
    isLoading (fst (handleSubmit query net st)) = false /\
    forall err,
      snd (Api.queryAgent q net) = inl err ->
      Message.content reply = rejection_text err /\
      Message.result reply = None /\
      snd (handleSubmit query net st) = [Fetch (query_request q)].
Proof.
  intros Hb. rewrite (handleSubmit_settled query net st q st1 Hb).
  apply handleSubmit_begin_some in Hb.
  destruct Hb as (_ & _ & _ & Hm & _).
  destruct (snd (Api.queryAgent q net)) as [err|r]; simpl; rewrite Hm, <- app_assoc; simpl.
  - eexists. do 3 (split; [reflexivity|]).
    intros err' He. injection He as <-. repeat split.
  - eexists. do 3 (split; [reflexivity|]).
    intros err' He. discriminate.
Qed.

(** A network that is down: [fetch] rejects. *)
Definition down : Network ResponseEnvelope := fun _ => inl (str "Failed to fetch").

Lemma submission_appends_two_witness :
  exists reply,
    messages (fst (handleSubmit None down (idle (str " Orders under $100 ")))) =
      [user_message (str "Orders under $100"); reply] /\
    Message.role reply = str "assistant" /\
    isLoading (fst (handleSubmit None down (idle (str " Orders under $100 ")))) = false /\
    forall err,
      snd (Api.queryAgent (str "Orders under $100") down) = inl err ->
      Message.content reply = rejection_text err /\
      Message.result reply = None /\
      snd (handleSubmit None down (idle (str " Orders under $100 "))) =
        [Fetch (query_request (str "Orders under $100"))].
Proof.
  apply (submission_appends_two None down (idle (str " Orders under $100 "))
           (str "Orders under $100")
           (mkState [user_message (str "Orders under $100")] None true results [])).
  reflexivity.
Defined.

Lemma handleSubmit_resolved (query : option jstr) (net : Network ResponseEnvelope)
    (st : State) (q : jstr) (st1 : State) (r : ResponseEnvelope) :
  handleSubmit_begin query st = Some (q, st1) ->
  snd (Api.queryAgent q net) = inr r ->
  messages (fst (handleSubmit query net st)) =
    messages st ++ [user_message q; Message.mkProps (str "assistant") (summary r) (Some r)] /\
  latestResult (fst (handleSubmit query net st)) = Some r /\
  rightTab (fst (handleSubmit query net st)) = results /\
  snd (handleSubmit query net st) = [Fetch (query_request q); OnResult r].
Proof.
  intros Hb Hr. rewrite (handleSubmit_settled query net st q st1 Hb), Hr.
  apply handleSubmit_begin_some in Hb.
  destruct Hb as (_ & _ & _ & Hm & _).
  simpl. rewrite Hm, <- app_assoc. repeat split.
Qed.

(** C5.  When [queryAgent] resolves with an envelope whose [success] is
    false and whose [error] is a string, the submission appends the
    assistant message [Error: ] followed by that string; the results panel,
    on either tab, shows the error string and nothing else, and the message
    bubble has no orders table. *)
Theorem failed_envelope_shown (query : option jstr) (net : Network ResponseEnvelope)
    (st : State) (q : jstr) (st1 : State) (r : ResponseEnvelope) (e : jstr) :
  handleSubmit_begin query st = Some (q, st1) ->
  snd (Api.queryAgent q net) = inr r ->
  success r = false ->
  error r = Some e ->
  messages (fst (handleSubmit query net st)) =
    messages st ++
    [user_message q; Message.mkProps (str "assistant") (str "Error: " ++ e) (Some r)] /\
  (forall tab,
     ResultsPanel.ResultsPanel (latestResult (fst (handleSubmit query net st))) tab =
       ResultsPanel.ErrorCard e) /\
  Message.table
    (Message.Message (Message.mkProps (str "assistant") (str "Error: " ++ e) (Some r))) = None.
Proof.
  intros Hb Hr Hs He.
  destruct (handleSubmit_resolved query net st q st1 r Hb Hr) as (Hm & Hl & _).
  rewrite Hm, Hl. unfold summary. rewrite Hs, He. simpl.
  repeat split.
  - intros tab. unfold ResultsPanel.ResultsPanel. now rewrite Hs, He.
  - now rewrite Hs.
Qed.

(** A failure envelope, as sent with status 200. *)
Definition source_unavailable : ResponseEnvelope :=
  mkEnvelope false 0 0 None [] None None (Some (str "SourceUnavailable")).

Lemma failed_envelope_shown_witness :
  messages (fst (handleSubmit None (answering 200 (inr source_unavailable))
                   (idle (str "Orders under $100")))) =
    [user_message (str "Orders under $100");
     Message.mkProps (str "assistant") (str "Error: SourceUnavailable")
                     (Some source_unavailable)].
Proof.
  apply (failed_envelope_shown None (answering 200 (inr source_unavailable))
           (idle (str "Orders under $100")) (str "Orders under $100")
           (mkState [user_message (str "Orders under $100")] None true results [])
           source_unavailable (str "SourceUnavailable"));
    reflexivity.
Defined.

(** [k=v] of the summary and [k: v] of a badge. *)
Definition pair_text (kv : jstr * json) : jstr := fst kv ++ str "=" ++ ToString (snd kv).
Definition badge_text (kv : jstr * json) : jstr := fst kv ++ str ": " ++ ToString (snd kv).

(** [Found m of p orders.] *)
Definition found_text (r : ResponseEnvelope) : jstr :=
  str "Found " ++ Number_toString (total_matched r) ++ str " of " ++
  Number_toString (total_parsed r) ++ str " orders.".

(** C6.  When [queryAgent] resolves with a successful envelope, the
    assistant's text is [Found m of p orders.]; it goes on with [ Filters: ]
    and the [key=value] pairs joined by a comma and a space exactly when
    [filters_applied] has an entry, and under the same condition the results
    panel, on either tab, shows one badge per entry. *)
Theorem summary_and_badges (query : option jstr) (net : Network ResponseEnvelope)
    (st : State) (q : jstr) (st1 : State) (r : ResponseEnvelope) :
  handleSubmit_begin query st = Some (q, st1) ->
  snd (Api.queryAgent q net) = inr r ->
  success r = true ->
  exists text,
    messages (fst (handleSubmit query net st)) =
      messages st ++ [user_message q; Message.mkProps (str "assistant") text (Some r)] /\
    text =
      match entries_or_empty (filters_applied r) with
      | [] => found_text r
      | entries => found_text r ++ str " Filters: " ++ join (str ", ") (map pair_text entries)
      end /\
    forall tab, exists panel,
      ResultsPanel.ResultsPanel (latestResult (fst (handleSubmit query net st))) tab =
        ResultsPanel.Results panel /\
      ResultsPanel.filter_badges panel =
        match entries_or_empty (filters_applied r) with
        | [] => None
        | entries => Some (map badge_text entries)
        end.
Proof.
  intros Hb Hr Hs.
  destruct (handleSubmit_resolved query net st q st1 r Hb Hr) as (Hm & Hl & _).
  rewrite Hm, Hl. exists (summary r). split; [reflexivity|]. split.
  - unfold summary, found_text. rewrite Hs.
    destruct (entries_or_empty (filters_applied r)) as [|kv rest];
      cbn [List.length Nat.ltb Nat.leb]; rewrite <- ?app_assoc.
    + now rewrite app_nil_r.
    + reflexivity.
  - intros tab. unfold ResultsPanel.ResultsPanel. rewrite Hs. simpl.
    eexists. split; [reflexivity|]. simpl.
    now destruct (entries_or_empty (filters_applied r)).
Qed.

Lemma summary_and_badges_witness :
  exists text,
    messages (fst (handleSubmit None (answering 200 (inr two_orders))
                     (idle (str "Orders from Ohio")))) =
      [user_message (str "Orders from Ohio");
       Message.mkProps (str "assistant") text (Some two_orders)] /\
    text = str "Found 2 of 20 orders. Filters: state=OH, min_total=40" /\
    forall tab, exists panel,
      ResultsPanel.ResultsPanel
        (latestResult (fst (handleSubmit None (answering 200 (inr two_orders))
                              (idle (str "Orders from Ohio"))))) tab =
        ResultsPanel.Results panel /\
      ResultsPanel.filter_badges panel = Some [str "state: OH"; str "min_total: 40"].
Proof.
  apply (summary_and_badges None (answering 200 (inr two_orders))
           (idle (str "Orders from Ohio")) (str "Orders from Ohio")
           (mkState [user_message (str "Orders from Ohio")] None true results [])
           two_orders);
    reflexivity.
Defined.

(** ** The reorder indicator *)

Lemma jstr_eqb_eq (a b : jstr) : jstr_eqb a b = true <-> a = b.
Proof.
  unfold jstr_eqb. destruct (list_eq_dec N.eq_dec a b); split; congruence.
Qed.

(** [n] is the integer nearest to [m * 2^e], the larger of two:
    [n - 1/2 <= m * 2^e < n + 1/2], cleared of fractions. *)
Definition nearest_integer (n : Z) (m : positive) (e : Z) : Prop :=
  if 0 <=? e then n = Z.pos m * 2 ^ e
  else 2 * n * 2 ^ (- e) - 2 ^ (- e) <= 2 * Z.pos m < 2 * n * 2 ^ (- e) + 2 ^ (- e).

Lemma scaled_nearest_0 (m : positive) (e : Z) :
  nearest_integer (scaled_nearest 0 m e) m e.
Proof.
  unfold nearest_integer, scaled_nearest.
  change (10 ^ Z.of_nat 0) with 1. rewrite Z.mul_1_r.
  destruct (0 <=? e) eqn:He; [reflexivity|].
  apply Z.leb_gt in He.
  assert (Hd : 0 < 2 ^ (- e)) by (apply Z.pow_pos_nonneg; lia).
  set (d := 2 ^ (- e)) in *.
  pose proof (Z.div_mod (2 * Z.pos m + d) (2 * d) ltac:(lia)) as Hdm.
  pose proof (Z.mod_pos_bound (2 * Z.pos m + d) (2 * d) ltac:(lia)) as Hb.
  nia.
Qed.

Lemma toFixed_0_finite (x : float) (s : bool) (m : positive) (e : Z) :
  Prim2SF x = S754_finite s m e ->
  at_least_1e21 m e = false ->
  exists n,
    Number_toFixed 0 x = Some ((if s then str "-" else []) ++ Number_toString n) /\
    nearest_integer n m e.
Proof.
  intros Hx Hb. exists (scaled_nearest 0 m e). split.
  - unfold Number_toFixed. now rewrite Hx, Hb.
  - apply scaled_nearest_0.
Qed.

Lemma sigmoid_range (z : R) : (0 < Pipeline.sigmoid z < 1)%R.
Proof.
  unfold Pipeline.sigmoid.
  pose proof (exp_pos (- z)) as He.
  assert (H1 : (0 < 1 + exp (- z))%R) by lra.
  split.
  - apply Rdiv_lt_0_compat; lra.
  - apply (Rmult_lt_reg_r (1 + exp (- z))); [assumption|].
    unfold Rdiv. rewrite Rmult_assoc, Rinv_l by lra. lra.
Qed.

Lemma Array_find_none {A} (p : A -> bool) (l : list A) :
  Array_find p l = None <-> forall x, In x l -> p x = false.
Proof.
  induction l as [|y rest IH]; simpl.
  - split; [intros _ x [] | reflexivity].
  - destruct (p y) eqn:E.
    + split; [discriminate|]. intros H. rewrite (H y (or_introl eq_refl)) in E. discriminate.
    + rewrite IH. split.
      * intros H x [<-|Hx]; [exact E | now apply H].
      * intros H x Hx. apply H. now right.
Qed.

Lemma Array_find_first {A} (p : A -> bool) (before : list A) (x : A) (after : list A) :
  (forall y, In y before -> p y = false) -> p x = true ->
  Array_find p (before ++ x :: after) = Some x.
Proof.
  induction before as [|y rest IH]; simpl; intros Hb Hx.
  - now rewrite Hx.
  - rewrite (Hb y (or_introl eq_refl)). apply IH; [|exact Hx].
    intros z Hz. apply Hb. now right.
Qed.

Lemma Array_find_some {A} (p : A -> bool) (l : list A) (x : A) :
  Array_find p l = Some x ->
  exists before after,
    l = before ++ x :: after /\ p x = true /\ forall y, In y before -> p y = false.
Proof.
  induction l as [|y rest IH]; simpl; [discriminate|].
  destruct (p y) eqn:E.
  - intros H. injection H as <-. exists [], rest. repeat split; [assumption|].
    intros z [].
  - intros H. destruct (IH H) as (before & after & -> & Hx & Hb).
    exists (y :: before), after. repeat split; [assumption|].
    intros z [<-|Hz]; [exact E | now apply Hb].
Qed.

(** What a card shows for an order.  Either no entry of [ml_predictions] has
    the order's identifier (or there is no [ml_predictions]), and the card
    has no indicator; or the card has the indicator of the first entry with
    that identifier: the likely-reorder colour exactly when the entry's
    [prediction] is the string [likely_reorder], the other colour otherwise,
    and as label the probability times 100 in [toFixed(0)], the nearest
    integer, followed by [% reorder]. *)
Definition indicator_follows (r : ResponseEnvelope) (order : Order)
    (indicator : option ResultsPanel.Indicator) : Prop :=
  (indicator = None /\
   forall ps p, ml_predictions r = Some ps -> In p ps ->
                pred_order_id p <> order_id order) \/
  (exists before p after ind,
     ml_predictions r = Some (before ++ p :: after) /\
     (forall q, In q before -> pred_order_id q <> order_id order) /\
     pred_order_id p = order_id order /\
     indicator = Some ind /\
     (ResultsPanel.indicator_class ind = str "text-success" <->
      prediction p = str "likely_reorder") /\
     (ResultsPanel.indicator_class ind = str "text-text-tertiary" <->
      prediction p <> str "likely_reorder") /\
     ResultsPanel.indicator_text ind =
       option_map (fun t => t ++ str "% reorder")
                  (Number_toFixed 0 (reorder_probability p * 100)%float) /\
     forall s m e,
       Prim2SF (reorder_probability p * 100)%float = S754_finite s m e ->
       at_least_1e21 m e = false ->
       exists n,
         ResultsPanel.indicator_text ind =
           Some ((if s then str "-" else []) ++ Number_toString n ++ str "% reorder") /\
         nearest_integer n m e).

Lemma indicator_classes_differ : str "text-success" <> str "text-text-tertiary".
Proof.
  intros H. vm_compute in H. discriminate H.
Qed.

Lemma render_indicator_text (pred : Prediction) (s : bool) (m : positive) (e : Z) :
  Prim2SF (reorder_probability pred * 100)%float = S754_finite s m e ->
  at_least_1e21 m e = false ->
  exists n,
    ResultsPanel.indicator_text (ResultsPanel.render_indicator pred) =
      Some ((if s then str "-" else []) ++ Number_toString n ++ str "% reorder") /\
    nearest_integer n m e.
Proof.
  intros Hx Hb.
  destruct (toFixed_0_finite _ s m e Hx Hb) as (n & Hn & Hnear).
  exists n. split; [|assumption].
  unfold ResultsPanel.render_indicator. cbn [ResultsPanel.indicator_text].
  rewrite Hn. cbn [option_map]. now rewrite <- app_assoc.
Qed.

Lemma render_indicator_class (pred : Prediction) :
  (ResultsPanel.indicator_class (ResultsPanel.render_indicator pred) = str "text-success" <->
   prediction pred = str "likely_reorder") /\
  (ResultsPanel.indicator_class (ResultsPanel.render_indicator pred) = str "text-text-tertiary" <->
   prediction pred <> str "likely_reorder").
Proof.
  unfold ResultsPanel.render_indicator. cbn [ResultsPanel.indicator_class].
  destruct (jstr_eqb (prediction pred) (str "likely_reorder")) eqn:E.
  - apply jstr_eqb_eq in E. split; split; intros H.
    + exact E.
    + reflexivity.
    + now elim indicator_classes_differ.
    + now elim H.
  - assert (Hne : prediction pred <> str "likely_reorder").
    { intros H. apply jstr_eqb_eq in H. congruence. }
    split; split; intros H.
    + symmetry in H. now elim indicator_classes_differ.
    + now elim Hne.
    + exact Hne.
    + reflexivity.
Qed.

Lemma render_card_indicator (r : ResponseEnvelope) (order : Order) :
  indicator_follows r order
                    (ResultsPanel.card_indicator (ResultsPanel.render_card r order)).
Proof.
  unfold indicator_follows. cbn [ResultsPanel.render_card ResultsPanel.card_indicator].
  destruct (ml_predictions r) as [ps|]; [|left; split; [reflexivity | discriminate]].
  destruct (Array_find (fun p => pred_order_id p =? order_id order) ps) as [p|] eqn:E.
  - right. apply Array_find_some in E.
    destruct E as (before & after & -> & Hp & Hb).
    exists before, p, after, (ResultsPanel.render_indicator p).
    split; [reflexivity|]. split.
    { intros q Hq. apply Z.eqb_neq. now apply Hb. }
    split; [now apply Z.eqb_eq|]. split; [reflexivity|].
    destruct (render_indicator_class p) as [H1 H2].
    split; [exact H1|]. split; [exact H2|]. split; [reflexivity|].
    intros s m e. apply render_indicator_text.
  - left. split; [reflexivity|].
    intros ps' p Hps Hin. injection Hps as <-.
    apply Z.eqb_neq. exact (proj1 (Array_find_none _ ps) E p Hin).
Qed.

(** C4.  Of the predictor, modelled from its specification: every prediction
    carries a probability between 0 and 1 and the label [likely_reorder] if
    and only if the probability is at least 0.5.  Of the results panel: for
    a successful envelope every matched order has its card, and there are no
    other cards; the card of an order carries the indicator of the first
    prediction whose [order_id] is the order's, or none when there is no
    such prediction.  The indicator has the likely-reorder colour exactly
    when that prediction's [prediction] member is the string
    [likely_reorder], and its label is the integer nearest to the
    probability times 100, followed by [% reorder].  Whatever the panel
    has rendered before, the document shows each of these cards. *)
Theorem prediction_and_indicator :
  (forall (c : Pipeline.Collaborators) (o : Pipeline.ValidatedOrder),
     (0 <= Pipeline.reorder_probability (Pipeline.score c o) <= 1)%R /\
     (Pipeline.predicted_label (Pipeline.score c o) = Pipeline.likely_reorder <->
      (1 / 2 <= Pipeline.reorder_probability (Pipeline.score c o))%R)) /\
  (forall (r : ResponseEnvelope),
     success r = true ->
     orders r <> [] ->
     exists panel cards,
       ResultsPanel.ResultsPanel (Some r) ResultsPanel.table_tab = ResultsPanel.Results panel /\
       ResultsPanel.content panel = ResultsPanel.Cards cards /\
       Permutation (map ResultsPanel.card_order cards) (orders r) /\
       (forall order, In order (orders r) ->
          exists card, In card cards /\ ResultsPanel.card_order card = order /\
                       indicator_follows r order (ResultsPanel.card_indicator card)) /\
       Forall (fun card =>
                 indicator_follows r (ResultsPanel.card_order card)
                                   (ResultsPanel.card_indicator card))
              cards /\
       (forall frames card,
          In card cards ->
          In card
             (React.displayed
                (ResultsPanel.document
                   (frames ++ [ResultsPanel.Shown (Some r) ResultsPanel.table_tab]))))).
Proof.
  split.
  - intros c o. unfold Pipeline.score.
    cbn [Pipeline.reorder_probability Pipeline.predicted_label].
    set (z := (Pipeline.dot _ _ + _)%R).
    pose proof (sigmoid_range z) as Hr. split; [lra|].
    destruct (Rle_dec (1 / 2) (Pipeline.sigmoid z)); split; intros H;
      try reflexivity; try assumption; try discriminate.
    now elim n.
  - intros r Hs Hne. unfold ResultsPanel.ResultsPanel. rewrite Hs. cbn [negb].
    destruct (orders r) as [|o rest] eqn:Eo; [now elim Hne|].
    cbn [List.length Nat.eqb]. rewrite <- Eo.
    eexists. eexists. split; [reflexivity|]. split; [reflexivity|].
    assert (Hperm : Permutation (Array_sort by_order_id (orders r)) (orders r))
      by apply Permutation_sym, Array_sort_perm.
    split; [|split; [|split]].
    + rewrite map_map. cbn [ResultsPanel.render_card ResultsPanel.card_order].
      now rewrite map_id.
    + intros order Hin.
      exists (ResultsPanel.render_card r order). split; [|split].
      * apply in_map. apply (Permutation_in order (Permutation_sym Hperm) Hin).
      * reflexivity.
      * apply render_card_indicator.
    + apply Forall_map, Forall_forall. intros order _.
      apply render_card_indicator.
    + intros frames card Hc. apply in_map_iff in Hc. destruct Hc as (order & <- & Ho).
      apply ResultsPanel_document_has_cards; [exact Hs|].
      apply (Permutation_in order Hperm Ho).
Qed.

Lemma prediction_and_indicator_witness :
  exists panel cards,
    ResultsPanel.ResultsPanel (Some two_orders) ResultsPanel.table_tab =
      ResultsPanel.Results panel /\
    ResultsPanel.content panel = ResultsPanel.Cards cards /\
    Permutation (map ResultsPanel.card_order cards) (orders two_orders) /\
    (forall order, In order (orders two_orders) ->
       exists card, In card cards /\ ResultsPanel.card_order card = order /\
                    indicator_follows two_orders order (ResultsPanel.card_indicator card)) /\
    Forall (fun card =>
              indicator_follows two_orders (ResultsPanel.card_order card)
                                (ResultsPanel.card_indicator card))
           cards /\
    (forall frames card,
       In card cards ->
       In card
          (React.displayed
             (ResultsPanel.document
                (frames ++ [ResultsPanel.Shown (Some two_orders) ResultsPanel.table_tab])))).
Proof.
  apply (proj2 prediction_and_indicator two_orders).
  - reflexivity.
  - discriminate.
Defined.

(** The two cards of the sample: order 1 in the likely colour with [75%
    reorder], order 2 in the other colour with [25% reorder]. *)
Example sample_indicators :
  map (fun order => ResultsPanel.card_indicator (ResultsPanel.render_card two_orders order))
      (Array_sort by_order_id (orders two_orders)) =
  [ Some (ResultsPanel.mkIndicator (str "text-success") (Some (str "75% reorder")));
    Some (ResultsPanel.mkIndicator (str "text-text-tertiary") (Some (str "25% reorder"))) ].
Proof. vm_compute. reflexivity. Qed.

(** ** The counts of an envelope *)

Lemma filter_shorter {A} (p : A -> bool) (l : list A) :
  (List.length (filter p l) <= List.length l)%nat.
Proof.
  induction l as [|x rest IH]; simpl; [lia|].
  destruct (p x); simpl; lia.
Qed.

Lemma run_counts (c : Pipeline.Collaborators) (query : jstr) :
  (Pipeline.total_matched (Pipeline.run c query) <=
   Pipeline.total_parsed (Pipeline.run c query))%nat /\
  List.length (Pipeline.orders (Pipeline.run c query)) =
    Pipeline.total_matched (Pipeline.run c query).
Proof.
  unfold Pipeline.run.
  destruct (Pipeline.fetch c) as [batch|]; [|simpl; lia].
  destruct (Pipeline.extract c batch) as [cause|parsed]; [simpl; lia|].
  unfold Pipeline.validate, Pipeline.apply. simpl. split; [|reflexivity].
  eapply Nat.le_trans; apply filter_shorter.
Qed.

(** C1.  Of the pipeline, modelled from its specification: in the envelope
    of a run [total_matched] is at most [total_parsed], and [orders] has
    [total_matched] elements.  Of the results panel: for an envelope that
    carries these two counts, the badge reads [m of p matched] with [m] the
    matched and [p] the parsed count, so [m] is at most [p]. *)
Theorem matched_at_most_parsed (c : Pipeline.Collaborators) (query : jstr) :
  (Pipeline.total_matched (Pipeline.run c query) <=
   Pipeline.total_parsed (Pipeline.run c query))%nat /\
  List.length (Pipeline.orders (Pipeline.run c query)) =
    Pipeline.total_matched (Pipeline.run c query) /\
  forall (r : ResponseEnvelope) (tab : ResultsPanel.Tab) (panel : ResultsPanel.Panel),
    total_matched r = Z.of_nat (Pipeline.total_matched (Pipeline.run c query)) ->
    total_parsed r = Z.of_nat (Pipeline.total_parsed (Pipeline.run c query)) ->
    ResultsPanel.ResultsPanel (Some r) tab = ResultsPanel.Results panel ->
    exists m p,
      ResultsPanel.badge panel =
        Number_toString m ++ str " of " ++ Number_toString p ++ str " matched" /\
      m = total_matched r /\ p = total_parsed r /\ m <= p.
Proof.
  destruct (run_counts c query) as [Hle Hlen].
  split; [exact Hle|]. split; [exact Hlen|].
  intros r tab panel Hm Hp Hview.
  exists (total_matched r), (total_parsed r).
  unfold ResultsPanel.ResultsPanel in Hview.
  destruct (negb (success r)); [discriminate|].
  injection Hview as <-. cbn [ResultsPanel.badge].
  repeat split. rewrite Hm, Hp. lia.
Qed.

(** Three orders of 45, 120 and 99.99 dollars, as the model call returns
    them. *)
Definition three_orders : list Pipeline.ParsedOrder :=
  [ Pipeline.mkParsedOrder 1 (str "Ann") (str "Columbus") (str "OH") [str "cable"] (45 # 1);
    Pipeline.mkParsedOrder 2 (str "Bob") (str "Austin") (str "TX") [str "desk"] (120 # 1);
    Pipeline.mkParsedOrder 3 (str "Cy") (str "Reno") (str "NV") [str "lamp"] (9999 # 100) ].

(** Collaborators for a scenario: a source that answers at once, a model
    call that returns the three orders, a validator that finds every order
    but number 2, an interpreter that asks for a total under 100. *)
Definition scenario : Pipeline.Collaborators :=
  Pipeline.mkCollaborators
    (fun _ => Some [str "order 1"; str "order 2"; str "order 3"])
    (fun _ => inr three_orders)
    (fun _ => 120%N)
    (fun batch => [batch])
    (fun o _ => negb (Pipeline.order_id o =? 2))
    (fun _ => [[Pipeline.mkPredicate (str "total") Pipeline.lt (Pipeline.Number (100 # 1))]])
    (fun p o =>
       match Pipeline.operator p, Pipeline.value p with
       | Pipeline.lt, Pipeline.Number bound =>
           negb (Qle_bool bound (Pipeline.total o))
       | _, _ => false
       end)
    (fun _ => Pipeline.mkFeatures 1 0 0 0 0 0)
    (Pipeline.mkModel (Pipeline.mkFeatures 0 0 0 0 0 0) 0).

Example scenario_counts :
  Pipeline.total_parsed (Pipeline.run scenario (str "Orders under $100")) = 3%nat /\
  map Pipeline.order_id (Pipeline.orders (Pipeline.run scenario (str "Orders under $100")))
    = [1; 3] /\
  Pipeline.validation_warnings (Pipeline.run scenario (str "Orders under $100")) =
    [str "Order 2: hallucinated, removed"].
Proof. repeat split. Qed.

(** The envelope of the scenario as the client receives it. *)
Definition scenario_received : ResponseEnvelope :=
  mkEnvelope true 3 2 (Some [(str "max_total", JNum 100)])
             [ mkOrder 1 (str "Ann") (str "Columbus") (str "OH") [str "cable"] 45%float;
               mkOrder 3 (str "Cy") (str "Reno") (str "NV") [str "lamp"] 99.5%float ]
             (Some [str "Order 2: hallucinated, removed"]) (Some []) None.

Lemma matched_at_most_parsed_witness :
  exists m p,
    ResultsPanel.badge
      (ResultsPanel.mkPanel (str "2 of 3 matched")
                            (Some [str "max_total: 100"])
                            (Some [str "Order 2: hallucinated, removed"])
                            (ResultsPanel.RawJson scenario_received)) =
      Number_toString m ++ str " of " ++ Number_toString p ++ str " matched" /\
    m = 2 /\ p = 3 /\ m <= p.
Proof.
  apply (proj2 (proj2 (matched_at_most_parsed scenario (str "Orders under $100")))
           scenario_received ResultsPanel.raw_tab).
  - reflexivity.
  - reflexivity.
  - reflexivity.
Defined.

(** * Further properties of the client *)

(** ** The HTTP client: failures and the request body *)

(** One call, one request, whatever the network answers: there is no retry.
    A rejection of [fetch] is passed on as it is, and an ok response whose
    body is not JSON makes the call reject with the parser's
    [SyntaxError]. *)
Theorem api_single_request {B} (query : jstr) (net : Network B) :
  List.length (fst (Api.queryAgent query net)) = 1%nat /\
  List.length (fst (Api.getStats net)) = 1%nat /\
  (forall m, net (query_request query) = inl m ->
             snd (Api.queryAgent query net) = inl (TypeError m)) /\
  (forall m, net stats_request = inl m ->
             snd (Api.getStats net) = inl (TypeError m)) /\
  (forall res m, net (query_request query) = inr res ->
                 200 <= status res <= 299 -> json_body res = inl m ->
                 snd (Api.queryAgent query net) = inl (SyntaxError m)) /\
  (forall res m, net stats_request = inr res ->
                 200 <= status res <= 299 -> json_body res = inl m ->
                 snd (Api.getStats net) = inl (SyntaxError m)).
Proof.
  rewrite queryAgent_run, getStats_run. simpl.
  split; [reflexivity|]. split; [reflexivity|].
  split; [intros m H; now rewrite H|].
  split; [intros m H; now rewrite H|].
  split; intros res m Hnet Hok Hbody; rewrite Hnet; unfold settle_response;
    apply ok_2xx in Hok; now rewrite Hok, Hbody.
Qed.

Lemma api_single_request_witness :
  snd (Api.queryAgent (str "Orders under $100") (answering 200 (inl (str "Unexpected end"))))
    = inl (SyntaxError (str "Unexpected end")) :> (exn + nat).
Proof.
  apply (proj1 (proj2 (proj2 (proj2 (proj2
           (api_single_request (str "Orders under $100")
              (answering 200 (inl (str "Unexpected end")))))))))
    with (res := mkResponse 200 (inl (str "Unexpected end"))).
  - reflexivity.
  - simpl. lia.
  - reflexivity.
Defined.

(** Reading a quoted string back: the inverse of [quote_units], used to show
    that the body of a request keeps the whole query. *)
Definition hex_value (x : N) : N :=
  (if (48 <=? x) && (x <=? 57) then x - 48 else x - 87)%N.

Definition unescape (x : N) : N :=
  (if x =? 98 then 8 else if x =? 116 then 9 else if x =? 110 then 10
   else if x =? 102 then 12 else if x =? 114 then 13 else x)%N.

Fixpoint unquote_units (s : jstr) : jstr :=
  match s with
  | [] => []
  | c :: rest =>
      if (c =? 92)%N then
        match rest with
        | [] => []
        | x :: rest' =>
            if (x =? 117)%N then
              match rest' with
              | h3 :: h2 :: h1 :: h0 :: rest'' =>
                  (4096 * hex_value h3 + 256 * hex_value h2 +
                   16 * hex_value h1 + hex_value h0)%N :: unquote_units rest''
              | _ => []
              end
            else unescape x :: unquote_units rest'
        end
      else c :: unquote_units rest
  end.

Lemma hex_value_digit (d : N) : (d < 16)%N -> hex_value (hex_digit d) = d.
Proof.
  intros H. unfold hex_value, hex_digit.
  destruct (d <? 10)%N eqn:E.
  - apply N.ltb_lt in E.
    replace ((48 <=? 48 + d) && (48 + d <=? 57))%N with true; [lia|].
    symmetry. apply andb_true_iff. split; apply N.leb_le; lia.
  - apply N.ltb_ge in E.
    replace ((48 <=? 87 + d) && (87 + d <=? 57))%N with false; [lia|].
    symmetry. apply andb_false_iff. right. apply N.leb_gt. lia.
Qed.

Lemma unquote_UnicodeEscape (c : N) (s : jstr) :
  (c < 65536)%N -> unquote_units (UnicodeEscape c ++ s) = c :: unquote_units s.
Proof.
  intros H. unfold UnicodeEscape. cbn [app unquote_units N.eqb Pos.eqb].
  rewrite !hex_value_digit by (apply N.mod_lt; discriminate).
  f_equal.
  assert (H4 : (c / 4096 < 16)%N) by (apply N.Div0.div_lt_upper_bound; lia).
  rewrite (N.mod_small (c / 4096) 16 H4).
  pose proof (N.div_mod c 16 ltac:(discriminate)) as D0.
  pose proof (N.div_mod (c / 16) 16 ltac:(discriminate)) as D1.
  pose proof (N.div_mod (c / 256) 16 ltac:(discriminate)) as D2.
  rewrite N.Div0.div_div in D1. change (16 * 16)%N with 256%N in D1.
  rewrite N.Div0.div_div in D2. change (256 * 16)%N with 4096%N in D2.
  lia.
Qed.

Lemma escape_unit_cases (c : N) :
  escape_unit c =
  (if c =? 8 then [92; 98] else if c =? 9 then [92; 116]
   else if c =? 10 then [92; 110] else if c =? 12 then [92; 102]
   else if c =? 13 then [92; 114] else if c =? 34 then [92; 34]
   else if c =? 92 then [92; 92]
   else if c <? 32 then UnicodeEscape c else [c])%N.
Proof.
  destruct c as [|p]; [reflexivity|].
  do 7 (try (destruct p as [p|p|]; try reflexivity)).
Qed.

Lemma unquote_escape_unit (c : N) (s : jstr) :
  (c < 65536)%N \/ (32 <= c)%N ->
  unquote_units (escape_unit c ++ s) = c :: unquote_units s.
Proof.
  intros Hc. rewrite escape_unit_cases.
  repeat match goal with
         | |- context [(c =? ?k)%N] =>
             destruct (N.eqb_spec c k) as [->|]; [reflexivity|]
         end.
  destruct (c <? 32)%N eqn:E.
  - apply unquote_UnicodeEscape. apply N.ltb_lt in E. lia.
  - cbn [app unquote_units].
    destruct (N.eqb_spec c 92) as [->|]; [congruence|reflexivity].
Qed.

Lemma unquote_literal (c : N) (s : jstr) :
  c <> 92%N -> unquote_units (c :: s) = c :: unquote_units s.
Proof.
  intros H. cbn [unquote_units].
  destruct (N.eqb_spec c 92); [contradiction|reflexivity].
Qed.

Lemma surrogate_bounds (c : N) :
  is_high_surrogate c = true \/ is_low_surrogate c = true ->
  (c < 65536)%N /\ c <> 92%N.
Proof.
  unfold is_high_surrogate, is_low_surrogate.
  rewrite !andb_true_iff, !N.leb_le. lia.
Qed.

Lemma unquote_quote_bounded (n : nat) (s : jstr) :
  (List.length s <= n)%nat -> unquote_units (quote_units s) = s.
Proof.
  revert s. induction n as [|n IH]; intros s Hlen.
  - destruct s; [reflexivity | simpl in Hlen; lia].
  - destruct s as [|c rest]; [reflexivity|].
    simpl in Hlen. cbn [quote_units].
    destruct (is_high_surrogate c) eqn:Hh.
    + destruct (surrogate_bounds c (or_introl Hh)) as [Hc Hne].
      destruct rest as [|d rest'].
      * rewrite <- (app_nil_r (UnicodeEscape c)).
        now rewrite unquote_UnicodeEscape.
      * destruct (is_low_surrogate d) eqn:Hl.
        -- destruct (surrogate_bounds d (or_intror Hl)) as [_ Hne'].
           rewrite unquote_literal, unquote_literal by assumption.
           rewrite IH by (simpl in Hlen; lia). reflexivity.
        -- rewrite unquote_UnicodeEscape by assumption.
           rewrite IH by lia. reflexivity.
    + destruct (is_low_surrogate c) eqn:Hl.
      * destruct (surrogate_bounds c (or_intror Hl)) as [Hc _].
        rewrite unquote_UnicodeEscape by assumption.
        rewrite IH by lia. reflexivity.
      * rewrite unquote_escape_unit; [rewrite IH by lia; reflexivity|].
        destruct (N.lt_ge_cases c 32); [left|right]; lia.
Qed.

Lemma quote_units_injective (a b : jstr) : quote_units a = quote_units b -> a = b.
Proof.
  intros H.
  rewrite <- (unquote_quote_bounded (List.length a) a (Nat.le_refl _)).
  rewrite <- (unquote_quote_bounded (List.length b) b (Nat.le_refl _)).
  now rewrite H.
Qed.

(** The body of the request keeps the whole query: two calls that send the
    same request were given the same query. *)
Theorem query_request_injective {B} (q1 q2 : jstr) (net1 net2 : Network B) :
  fst (Api.queryAgent q1 net1) = fst (Api.queryAgent q2 net2) -> q1 = q2.
Proof.
  rewrite !queryAgent_run. cbn [fst]. intros H.
  assert (Hr : query_request q1 = query_request q2) by congruence.
  apply (f_equal body) in Hr.
  assert (Hb : JSON_stringify (JObj [(str "query", JStr q1)]) =
               JSON_stringify (JObj [(str "query", JStr q2)]))
    by (unfold query_request in Hr; cbn [body] in Hr; congruence).
  rewrite !stringify_query in Hb.
  do 3 apply app_inv_head in Hb.
  apply app_inv_tail in Hb. unfold QuoteJSONString in Hb.
  apply app_inv_head in Hb. apply app_inv_tail in Hb.
  now apply quote_units_injective.
Qed.

Lemma query_request_injective_witness :
  str "Orders under $100" = str "Orders under $100".
Proof.
  apply (query_request_injective (str "Orders under $100") (str "Orders under $100")
           (answering 200 (inr 1%nat)) (answering 503 (inr 2%nat))).
  reflexivity.
Defined.

(** ** The chat panel: what it shows and how a session runs *)

Module Session.

(** What the chat panel shows of its state: the suggestion buttons (only
    while there is no message), the message bubbles, the typing indicator,
    the text area and the [disabled] attribute of the send button. *)
Record View : Type := mkView {
  suggestions : list jstr;
  bubbles : list Message.View;
  typing : bool;
  textarea : jstr;
  send_disabled : bool
}.

Definition render (st : ChatPanel.State) : View :=
  mkView (if (List.length (messages st) =? 0)%nat then SUGGESTIONS else [])
         (map Message.Message (messages st))
         (isLoading st)
         (input st)
         (negb (truthy (trim (input st))) || isLoading st).

(** [setRightTab] of [App], behind the two header buttons. *)
Definition setRightTab (t : RightTab) (st : ChatPanel.State) : ChatPanel.State :=
  mkState (messages st) (latestResult st) (isLoading st) t (input st).

(** The state [App] and the panel start from. *)
Definition start : ChatPanel.State := mkState [] None false results [].

(** An event up to the [await] of [handleSubmit]. *)
Definition dispatch_begin (ev : Event) (st : ChatPanel.State) : option (jstr * ChatPanel.State) :=
  match ev with
  | ClickSuggestion n =>
      match nth_error SUGGESTIONS n with
      | Some s => handleSubmit_begin (Some s) st
      | None => None
      end
  | ClickSend => handleSubmit_begin None st
  | KeyDown key shiftKey =>
      if jstr_eqb key (str "Enter") && negb shiftKey then handleSubmit_begin None st
      else None
  end.

(** A session: the state, and the query whose request is in flight.  While
    [handleSubmit] waits for [queryAgent] the page stays live: the user may
    type, switch tabs or raise further events before the request settles. *)
Record Session : Type := mkSession {
  ui : ChatPanel.State;
  pending : option jstr
}.

Inductive Action : Type :=
| Raise (ev : Event)
| Settle (outcome : exn + ResponseEnvelope)
| Change (value : jstr)
| SelectTab (t : RightTab).

Definition step (a : Action) (s : Session) : Session :=
  match a with
  | Raise ev =>
      match dispatch_begin ev (ui s) with
      | Some (q, st1) => mkSession st1 (Some q)
      | None => s
      end
  | Settle outcome =>
      match pending s with
      | Some _ => mkSession (fst (handleSubmit_settle outcome (ui s))) None
      | None => s
      end
  | Change value => mkSession (setInput value (ui s)) (pending s)
  | SelectTab t => mkSession (setRightTab t (ui s)) (pending s)
  end.

Definition run (actions : list Action) : Session :=
  fold_left (fun s a => step a s) actions (mkSession start None).

(** Whole turns: a user message followed by the assistant's. *)
Inductive conversation : list Message.Props -> Prop :=
| conversation_nil : conversation []
| conversation_turn l q reply :
    conversation l ->
    Message.role reply = str "assistant" ->
    conversation (l ++ [Message.mkProps (str "user") q None; reply]).

(** The envelope of the last message that carries one. *)
Definition last_result (msgs : list Message.Props) : option ResponseEnvelope :=
  fold_left (fun acc m => match Message.result m with Some r => Some r | None => acc end)
            msgs None.

End Session.

Import Session.

Lemma dispatch_split (ev : Event) (net : Network ResponseEnvelope) (st : ChatPanel.State) :
  dispatch ev net st =
  match dispatch_begin ev st with
  | None => (st, [])
  | Some (q, st1) =>
      (fst (handleSubmit_settle (snd (Api.queryAgent q net)) st1),
       Fetch (query_request q) :: snd (handleSubmit_settle (snd (Api.queryAgent q net)) st1))
  end.
Proof.
  assert (H : forall query,
             handleSubmit query net st =
             match handleSubmit_begin query st with
             | None => (st, [])
             | Some (q, st1) =>
                 (fst (handleSubmit_settle (snd (Api.queryAgent q net)) st1),
                  Fetch (query_request q) ::
                  snd (handleSubmit_settle (snd (Api.queryAgent q net)) st1))
             end).
  { intros query. destruct (handleSubmit_begin query st) as [[q st1]|] eqn:E.
    - now apply handleSubmit_settled.
    - unfold handleSubmit. now rewrite E. }
  destruct ev as [n| |key shiftKey]; simpl.
  - destruct (nth_error SUGGESTIONS n); [apply H | reflexivity].
  - apply H.
  - unfold handleKeyDown.
    destruct (jstr_eqb key (str "Enter") && negb shiftKey); [apply H | reflexivity].
Qed.

Lemma dispatch_begin_loading (ev : Event) (st : ChatPanel.State) :
  isLoading st = true -> dispatch_begin ev st = None.
Proof.
  intros Hl.
  assert (H : forall query, handleSubmit_begin query st = None).
  { intros query. unfold handleSubmit_begin. rewrite Hl. now rewrite orb_true_r. }
  destruct ev as [n| |key shiftKey]; simpl.
  - now destruct (nth_error SUGGESTIONS n).
  - apply H.
  - now destruct (jstr_eqb key (str "Enter") && negb shiftKey).
Qed.

(** The send button is disabled exactly when a click on it would stop at the
    guard of [handleSubmit]: the attribute and the guard agree. *)
Theorem send_disabled_iff_guard (net : Network ResponseEnvelope) (st : ChatPanel.State) :
  send_disabled (render st) = true <-> dispatch ClickSend net st = (st, []).
Proof.
  rewrite dispatch_split. cbn [dispatch_begin render send_disabled].
  unfold handleSubmit_begin. cbn [query_or_input].
  destruct (negb (truthy (trim (input st))) || isLoading st); split; intros H;
    try reflexivity; try discriminate.
Qed.

Lemma dispatch_begin_some (ev : Event) (st : ChatPanel.State) (q : jstr) (st1 : ChatPanel.State) :
  dispatch_begin ev st = Some (q, st1) ->
  exists query, handleSubmit_begin query st = Some (q, st1).
Proof.
  destruct ev as [n| |key shiftKey]; simpl.
  - destruct (nth_error SUGGESTIONS n) as [s|]; [|discriminate].
    intros H. now exists (Some s).
  - intros H. now exists None.
  - destruct (jstr_eqb key (str "Enter") && negb shiftKey); [|discriminate].
    intros H. now exists None.
Qed.

Lemma last_result_app (l : list Message.Props) (m : Message.Props) :
  last_result (l ++ [m]) =
  match Message.result m with Some r => Some r | None => last_result l end.
Proof.
  unfold last_result. now rewrite fold_left_app.
Qed.

(** What holds of a session at every moment. *)
Definition consistent (s : Session) : Prop :=
  isLoading (ui s) = match pending s with Some _ => true | None => false end /\
  match pending s with
  | None => conversation (messages (ui s))
  | Some q =>
      exists turns, conversation turns /\ messages (ui s) = turns ++ [user_message q]
  end /\
  latestResult (ui s) = last_result (messages (ui s)).

Lemma step_consistent (a : Action) (s : Session) : consistent s -> consistent (step a s).
Proof.
  intros (Hload & Hshape & Hlatest).
  destruct a as [ev|outcome|value|t]; cbn [step].
  - destruct (dispatch_begin ev (ui s)) as [[q st1]|] eqn:E;
      [|now repeat split].
    apply dispatch_begin_some in E. destruct E as [query E].
    apply handleSubmit_begin_some in E.
    destruct E as (_ & _ & Hidle & Hm & Hr & _ & Hl & _).
    rewrite Hidle in Hload.
    destruct (pending s) eqn:Ep; [discriminate|].
    repeat split; cbn [ui pending].
    + exact Hl.
    + exists (messages (ui s)). now split.
    + rewrite Hr, Hm, last_result_app. exact Hlatest.
  - destruct (pending s) as [q|] eqn:Ep; [|unfold consistent; rewrite Ep; now repeat split].
    destruct Hshape as (turns & Hturns & Hm).
    destruct outcome as [err|r]; repeat split; cbn [ui pending handleSubmit_settle fst];
      cbn [setIsLoading setMessages handleResult messages latestResult isLoading].
    + rewrite Hm, <- app_assoc. now constructor.
    + rewrite last_result_app. exact Hlatest.
    + rewrite Hm, <- app_assoc. now constructor.
    + now rewrite last_result_app.
  - now repeat split.
  - now repeat split.
Qed.

(** While a request is in flight no event starts another.  In every state a
    session can reach with a request pending, whatever was typed or selected
    since the submission: every event stops at the guard, the send button is
    disabled, the typing indicator shows and the suggestions are gone; and
    nothing but the settlement of the request ends the flight. *)
Theorem one_request_in_flight (actions : list Action) (q : jstr) :
  pending (run actions) = Some q ->
  (forall ev net, dispatch ev net (ui (run actions)) = (ui (run actions), [])) /\
  (forall ev, step (Raise ev) (run actions) = run actions) /\
  (forall a, (forall outcome, a <> Settle outcome) ->
             pending (step a (run actions)) = Some q) /\
  send_disabled (render (ui (run actions))) = true /\
  typing (render (ui (run actions))) = true /\
  suggestions (render (ui (run actions))) = [].
Proof.
  assert (Hc : consistent (run actions)).
  { unfold run. induction actions as [|a rest IH] using rev_ind.
    - repeat split. constructor.
    - rewrite fold_left_app. apply step_consistent, IH. }
  intros Hp. destruct Hc as (Hl & Hshape & _). rewrite Hp in Hl, Hshape.
  destruct Hshape as (turns & _ & Hm).
  assert (Hb : forall ev, dispatch_begin ev (ui (run actions)) = None)
    by (intros ev; now apply dispatch_begin_loading).
  split; [|split; [|split; [|split; [|split]]]].
  - intros ev net. rewrite dispatch_split. now rewrite Hb.
  - intros ev. cbn [step]. now rewrite Hb.
  - intros a Ha. destruct a as [ev|outcome|value|t]; cbn [step].
    + now rewrite Hb.
    + now elim (Ha outcome).
    + exact Hp.
    + exact Hp.
  - cbn [render send_disabled]. rewrite Hl. apply orb_true_r.
  - exact Hl.
  - cbn [render suggestions]. rewrite Hm, length_app. simpl.
    now rewrite Nat.add_1_r.
Qed.

Lemma one_request_in_flight_witness :
  dispatch ClickSend down
    (ui (run [Change (str " hello "); Raise ClickSend; Change (str "next")])) =
  (ui (run [Change (str " hello "); Raise ClickSend; Change (str "next")]), []).
Proof.
  apply (one_request_in_flight [Change (str " hello "); Raise ClickSend; Change (str "next")]
           (str "hello")).
  reflexivity.
Defined.

(** Whatever the user does and however the requests settle, starting from
    the initial state: [isLoading] is true exactly while a request is
    pending; the messages are whole turns of a user message and the
    assistant's answer, followed by the pending user message while a request
    is in flight; and [latestResult] is the envelope of the last message
    that carries one. *)
Theorem session_consistent (actions : list Action) : consistent (run actions).
Proof.
  unfold run. induction actions as [|a rest IH] using rev_ind.
  - repeat split. constructor.
  - rewrite fold_left_app. apply step_consistent, IH.
Qed.

(** A session in which the user submits, types while the request is in
    flight, and the request then fails. *)
Example session_sample :
  map Message.content
      (messages (ui (run [Change (str " hello "); Raise ClickSend; Change (str "next");
                          Raise ClickSend; Settle (inl (TypeError (str "Failed to fetch")))])))
  = [ str "hello";
      str "Error: Failed to fetch. Make sure the backend is running (python main.py)." ].
Proof. reflexivity. Qed.

(** ** What is sent *)

Lemma trimStart_head (s : jstr) (c : N) (r : jstr) :
  trimStart s = c :: r -> is_ws c = false.
Proof.
  induction s as [|d rest IH]; simpl; [discriminate|].
  destruct (is_ws d) eqn:E; [exact IH|].
  intros H. injection H as <- _. exact E.
Qed.

Lemma trimStart_fixed (c : N) (r : jstr) :
  is_ws c = false -> trimStart (c :: r) = c :: r.
Proof.
  intros H. simpl. now rewrite H.
Qed.

Lemma trimStart_keeps_last (l : jstr) (c : N) :
  is_ws c = false -> exists kept, trimStart (l ++ [c]) = kept ++ [c].
Proof.
  intros Hc. induction l as [|d rest IH]; simpl.
  - rewrite Hc. now exists [].
  - destruct (is_ws d); [exact IH|]. now exists (d :: rest).
Qed.

Lemma trim_shape (s : jstr) :
  trim s = [] \/
  exists c middle d,
    is_ws c = false /\ is_ws d = false /\
    (trim s = [c] /\ c = d \/ trim s = c :: middle ++ [d]).
Proof.
  unfold trim, trimEnd.
  destruct (trimStart s) as [|c r] eqn:Es; [now left|].
  pose proof (trimStart_head s c r Es) as Hc.
  destruct (trimStart_keeps_last (rev r) c Hc) as [kept Hk].
  cbn [rev]. rewrite Hk, rev_app_distr. cbn [rev app].
  destruct (rev kept) as [|x xs] eqn:Er.
  - right. exists c, [], c. repeat split; try assumption. left. now split.
  - right.
    assert (Hd : exists d, is_ws d = false /\ exists middle, x :: xs = middle ++ [d]).
    { destruct kept as [|d0 k0]; [discriminate|].
      exists d0. split.
      - apply (trimStart_head (rev r ++ [c]) d0 (k0 ++ [c])). now rewrite Hk.
      - exists (rev k0). rewrite <- Er. reflexivity. }
    destruct Hd as (d & Hd & middle & Hm).
    exists c, middle, d. repeat split; try assumption. right. now rewrite Hm.
Qed.

Lemma trim_idempotent (s : jstr) : trim (trim s) = trim s.
Proof.
  destruct (trim_shape s) as [H|(c & middle & d & Hc & Hd & [[H _]|H])]; rewrite H.
  - reflexivity.
  - unfold trim, trimEnd. rewrite trimStart_fixed by assumption.
    cbn [rev app]. now rewrite trimStart_fixed by assumption.
  - unfold trim, trimEnd. rewrite trimStart_fixed by assumption.
    change (c :: middle ++ [d]) with ([c] ++ middle ++ [d]).
    rewrite !rev_app_distr. cbn [rev app].
    rewrite trimStart_fixed by assumption.
    change (d :: rev middle ++ [c]) with ([d] ++ rev middle ++ [c]).
    rewrite !rev_app_distr, rev_involutive. reflexivity.
Qed.

(** A query typed into the text area is sent without the white space around
    it: what passes the guard is the trimmed input, which is not empty,
    neither starts nor ends with white space and is left as it is by a
    second trim.  That text is the query of the request and the text of the
    user's bubble, and the text area is emptied. *)
Theorem typed_query_trimmed (net : Network ResponseEnvelope) (st : ChatPanel.State)
    (q : jstr) (st1 : ChatPanel.State) :
  handleSubmit_begin None st = Some (q, st1) ->
  q = trim (input st) /\
  trim q = q /\
  (exists c middle d,
     is_ws c = false /\ is_ws d = false /\ (q = [c] \/ q = c :: middle ++ [d])) /\
  (exists effects, snd (dispatch ClickSend net st) = Fetch (query_request q) :: effects) /\
  messages st1 = messages st ++ [user_message q] /\
  input st1 = [].
Proof.
  intros Hb. cbn [dispatch]. rewrite (handleSubmit_settled None net st q st1 Hb).
  apply handleSubmit_begin_some in Hb.
  destruct Hb as (Hq & Hne & _ & Hm & _ & _ & _ & Hi).
  cbn [query_or_input] in Hq.
  split; [exact Hq|]. split; [rewrite Hq; apply trim_idempotent|].
  split; [|split; [eexists; reflexivity | now split]].
  destruct (trim_shape (input st)) as [H|(c & middle & d & Hc & Hd & H)].
  - rewrite <- Hq in H. contradiction.
  - exists c, middle, d. rewrite Hq. split; [assumption|]. split; [assumption|].
    destruct H as [[H _]|H]; [now left | now right].
Qed.

Lemma typed_query_trimmed_witness :
  str "Orders under $100" = trim (str "  Orders under $100 ").
Proof.
  apply (typed_query_trimmed down (idle (str "  Orders under $100 "))
           (str "Orders under $100")
           (mkState [user_message (str "Orders under $100")] None true results [])).
  reflexivity.
Defined.

(** The suggestion buttons are there only while the chat has no message.  A
    click on one, when no request is in flight, sends the suggestion's own
    text, whatever stands in the text area, and empties the text area. *)
Theorem suggestion_sent_verbatim (n : nat) (s : jstr) (net : Network ResponseEnvelope)
    (st : ChatPanel.State) :
  nth_error SUGGESTIONS n = Some s ->
  isLoading st = false ->
  (messages st <> [] -> suggestions (render st) = []) /\
  (messages st = [] -> nth_error (suggestions (render st)) n = Some s) /\
  exists reply effects,
    snd (dispatch (ClickSuggestion n) net st) = Fetch (query_request s) :: effects /\
    messages (fst (dispatch (ClickSuggestion n) net st)) =
      messages st ++ [user_message s; reply] /\
    input (fst (dispatch (ClickSuggestion n) net st)) = [].
Proof.
  intros Hn Hl. split; [|split].
  - intros Hne. cbn [render suggestions].
    destruct (messages st); [now elim Hne | reflexivity].
  - intros He. cbn [render suggestions]. now rewrite He.
  - assert (Hb : handleSubmit_begin (Some s) st =
                 Some (s, setIsLoading true
                            (setMessages (fun prev => prev ++ [user_message s])
                               (setInput [] st)))).
    { pose proof (suggestions_truthy n s Hn) as Ht.
      unfold handleSubmit_begin, query_or_input.
      rewrite Ht. cbv zeta. rewrite Ht, Hl. reflexivity. }
    cbn [dispatch]. rewrite Hn.
    rewrite (handleSubmit_settled (Some s) net st s _ Hb).
    destruct (snd (Api.queryAgent s net)) as [err|r];
      eexists; eexists; cbn [fst snd handleSubmit_settle];
      (split; [reflexivity|]); split;
        cbn [setIsLoading setMessages setInput handleResult messages input];
        try reflexivity; now rewrite <- app_assoc.
Qed.

Lemma suggestion_sent_verbatim_witness :
  exists reply effects,
    snd (dispatch (ClickSuggestion 2) down (idle (str "half typed"))) =
      Fetch (query_request (str "Orders under $100")) :: effects /\
    messages (fst (dispatch (ClickSuggestion 2) down (idle (str "half typed")))) =
      [user_message (str "Orders under $100"); reply] /\
    input (fst (dispatch (ClickSuggestion 2) down (idle (str "half typed")))) = [].
Proof.
  apply (suggestion_sent_verbatim 2 (str "Orders under $100") down (idle (str "half typed")));
    reflexivity.
Defined.

(** ** The order lists: keys, ties and predictions *)

Lemma strictly_ascending {A} (f : A -> Z) (l : list A) :
  StronglySorted (fun a b => f a <= f b) l ->
  NoDup (map f l) ->
  StronglySorted (fun a b => f a < f b) l.
Proof.
  induction 1 as [|x l Hs IH Hall]; intros Hnd; constructor.
  - apply IH. now inversion Hnd.
  - inversion Hnd as [|? ? Hnotin _]; subst.
    rewrite Forall_forall in *. intros y Hy.
    specialize (Hall y Hy).
    assert (f x <> f y); [|lia].
    intros E. apply Hnotin. rewrite E. now apply in_map.
Qed.

Lemma StronglySorted_map {A B} (f : A -> B) (R : B -> B -> Prop) (l : list A) :
  StronglySorted (fun a b => R (f a) (f b)) l -> StronglySorted R (map f l).
Proof.
  induction 1 as [|x l Hs IH Hall]; simpl; constructor.
  - exact IH.
  - rewrite Forall_forall in *. intros y Hy.
    apply in_map_iff in Hy. destruct Hy as (a & <- & Ha). now apply Hall.
Qed.

(** When the orders of a successful envelope have pairwise distinct
    identifiers, the keys React is given for the rows of the chat table are
    strictly ascending, hence pairwise distinct, and the cards of the results
    panel carry the same keys in the same sequence. *)
Theorem row_keys_strictly_ascending (role content : jstr) (r : ResponseEnvelope) :
  success r = true ->
  orders r <> [] ->
  NoDup (map order_id (orders r)) ->
  exists rows cards panel,
    Message.table (Message.Message (Message.mkProps role content (Some r))) = Some rows /\
    ResultsPanel.ResultsPanel (Some r) ResultsPanel.table_tab = ResultsPanel.Results panel /\
    ResultsPanel.content panel = ResultsPanel.Cards cards /\
    StronglySorted Z.lt (map Message.row_key rows) /\
    map (fun card => order_id (ResultsPanel.card_order card)) cards =
      map Message.row_key rows.
Proof.
  intros Hs Hne Hnd.
  exists (map Message.render_row (Array_sort by_order_id (orders r))).
  exists (map (ResultsPanel.render_card r) (Array_sort by_order_id (orders r))).
  unfold ResultsPanel.ResultsPanel, Message.Message.
  cbn [Message.result Message.table]. rewrite !Hs. cbn [negb andb].
  destruct (orders r) as [|o rest] eqn:Eo; [now elim Hne|].
  cbn [List.length Nat.ltb Nat.leb Nat.eqb].
  eexists. split; [reflexivity|]. split; [reflexivity|]. split; [reflexivity|].
  rewrite !map_map. cbn [Message.render_row Message.row_key ResultsPanel.render_card
                           ResultsPanel.card_order].
  split; [|reflexivity].
  apply StronglySorted_map, strictly_ascending.
  - apply sort_by_order_id_sorted.
  - eapply Permutation_NoDup; [|exact Hnd].
    apply Permutation_map, Array_sort_perm.
Qed.

Lemma row_keys_strictly_ascending_witness :
  exists rows cards panel,
    Message.table (Message.Message
                     (Message.mkProps (str "assistant") (str "Found 2 of 20 orders.")
                                      (Some two_orders))) = Some rows /\
    ResultsPanel.ResultsPanel (Some two_orders) ResultsPanel.table_tab =
      ResultsPanel.Results panel /\
    ResultsPanel.content panel = ResultsPanel.Cards cards /\
    StronglySorted Z.lt (map Message.row_key rows) /\
    map (fun card => order_id (ResultsPanel.card_order card)) cards =
      map Message.row_key rows.
Proof.
  apply (row_keys_strictly_ascending (str "assistant") (str "Found 2 of 20 orders.") two_orders).
  - reflexivity.
  - discriminate.
  - repeat constructor; simpl; intuition discriminate.
Defined.

Lemma sort_insert_ties (k : Z) (x : Order) (l : list Order) :
  filter (fun o => order_id o =? k) (sort_insert by_order_id x l) =
  filter (fun o => order_id o =? k) (x :: l).
Proof.
  induction l as [|y rest IH]; [reflexivity|].
  cbn [sort_insert]. destruct (by_order_id x y) eqn:E; try reflexivity.
  unfold by_order_id, sign_Z in E. apply Z.compare_gt_iff in E.
  cbn [filter] in *. rewrite IH.
  destruct (Z.eqb_spec (order_id x) k), (Z.eqb_spec (order_id y) k);
    try reflexivity; lia.
Qed.

Lemma Array_sort_ties (k : Z) (l : list Order) :
  filter (fun o => order_id o =? k) (Array_sort by_order_id l) =
  filter (fun o => order_id o =? k) l.
Proof.
  induction l as [|x rest IH]; [reflexivity|].
  cbn [Array_sort]. rewrite sort_insert_ties. cbn [filter]. now rewrite IH.
Qed.

Lemma filter_of_map {A B} (p : B -> bool) (f : A -> B) (l : list A) :
  filter p (map f l) = map f (filter (fun a => p (f a)) l).
Proof.
  induction l as [|a l IH]; [reflexivity|].
  cbn [map filter]. rewrite IH. now destruct (p (f a)).
Qed.

(** Orders that share an identifier are shown in the order in which the
    envelope lists them: the sort moves no order past another with the same
    [order_id], and the rows and cards with that identifier in the document
    are those of the envelope's orders with it, in the envelope's order.
    For the card list this holds under the condition of [distinct_ids] on
    the renders since it was last mounted; the envelope itself may repeat
    identifiers. *)
Theorem ties_keep_envelope_order (role content : jstr) (r : ResponseEnvelope) (k : Z) :
  success r = true ->
  (forall renders,
     filter (fun row => Message.row_key row =? k)
            (React.displayed
               (Message.document (Message.mkProps role content (Some r)) renders)) =
     map Message.render_row (filter (fun o => order_id o =? k) (orders r))) /\
  (forall earlier recent,
     ResultsPanel.document earlier = React.unmounted ->
     Forall distinct_ids recent ->
     filter (fun card => order_id (ResultsPanel.card_order card) =? k)
            (React.displayed
               (ResultsPanel.document
                  (earlier ++ recent ++
                   [ResultsPanel.Shown (Some r) ResultsPanel.table_tab]))) =
     map (ResultsPanel.render_card r) (filter (fun o => order_id o =? k) (orders r))).
Proof.
  intros Hs. split.
  - intros renders.
    rewrite Message_document_rows, (message_table_rows role content r Hs).
    rewrite filter_of_map. cbn [Message.render_row Message.row_key].
    now rewrite Array_sort_ties.
  - intros earlier recent He Hall.
    rewrite (ResultsPanel_document_cards earlier recent r He Hall Hs).
    rewrite filter_of_map. cbn [ResultsPanel.render_card ResultsPanel.card_order].
    now rewrite Array_sort_ties.
Qed.

Lemma ties_keep_envelope_order_witness :
  filter (fun row => Message.row_key row =? 7)
         (React.displayed
            (Message.document
               (Message.mkProps (str "assistant") (str "Found 3 of 3 orders.")
                                (Some tied_orders)) 1)) =
    map Message.render_row [order_7; order_7_again] /\
  filter (fun card => order_id (ResultsPanel.card_order card) =? 7)
         (React.displayed
            (ResultsPanel.document
               ([] ++ [ResultsPanel.Shown (Some two_orders) ResultsPanel.table_tab] ++
                [ResultsPanel.Shown (Some tied_orders) ResultsPanel.table_tab]))) =
    map (ResultsPanel.render_card tied_orders) [order_7; order_7_again].
Proof.
  destruct (ties_keep_envelope_order (str "assistant") (str "Found 3 of 3 orders.")
              tied_orders 7 eq_refl) as [Hrows Hcards].
  split; [apply Hrows|]. apply Hcards; [reflexivity|].
  constructor; [exact two_orders_distinct | constructor].
Defined.

(** A card has no reorder indicator exactly when [ml_predictions] is absent
    or has no entry with the order's identifier; when several entries have
    it, the first one is shown and the others are ignored. *)
Theorem indicator_of_first_entry (r : ResponseEnvelope) (order : Order) :
  (ResultsPanel.card_indicator (ResultsPanel.render_card r order) = None <->
   forall ps p, ml_predictions r = Some ps -> In p ps ->
                pred_order_id p <> order_id order) /\
  (forall before p after,
     ml_predictions r = Some (before ++ p :: after) ->
     (forall q, In q before -> pred_order_id q <> order_id order) ->
     pred_order_id p = order_id order ->
     ResultsPanel.card_indicator (ResultsPanel.render_card r order) =
       Some (ResultsPanel.render_indicator p)).
Proof.
  cbn [ResultsPanel.render_card ResultsPanel.card_indicator]. split.
  - destruct (ml_predictions r) as [ps|].
    + split.
      * intros H ps' p Hps Hin. injection Hps as <-.
        destruct (Array_find _ ps) eqn:E; [discriminate|].
        pose proof (proj1 (Array_find_none _ ps) E p Hin) as Hp.
        now apply Z.eqb_neq in Hp.
      * intros H.
        assert (E : Array_find (fun p => pred_order_id p =? order_id order) ps = None).
        { apply Array_find_none. intros p Hin. apply Z.eqb_neq. now apply (H ps). }
        now rewrite E.
    + split; [discriminate | reflexivity].
  - intros before p after Hps Hb Hp. rewrite Hps.
    rewrite Array_find_first; [reflexivity| |].
    + intros q Hq. apply Z.eqb_neq. now apply Hb.
    + now apply Z.eqb_eq.
Qed.

Lemma indicator_of_first_entry_witness :
  ResultsPanel.card_indicator (ResultsPanel.render_card two_orders order_2) =
    Some (ResultsPanel.render_indicator (mkPrediction 2 0.25%float (str "unlikely_reorder"))).
Proof.
  apply (proj2 (indicator_of_first_entry two_orders order_2)
           [mkPrediction 1 0.75%float (str "likely_reorder")]
           (mkPrediction 2 0.25%float (str "unlikely_reorder")) []).
  - reflexivity.
  - intros q [<-|[]]. discriminate.
  - reflexivity.
Defined.

(** ** The total of an order *)

(** [n] is the integer nearest to [m * 2^e * 10^f], the larger of two. *)
Definition nearest_scaled (f : nat) (n : Z) (m : positive) (e : Z) : Prop :=
  if 0 <=? e then n = Z.pos m * 10 ^ Z.of_nat f * 2 ^ e
  else 2 * n * 2 ^ (- e) - 2 ^ (- e) <= 2 * (Z.pos m * 10 ^ Z.of_nat f)
                                      < 2 * n * 2 ^ (- e) + 2 ^ (- e).

Lemma scaled_nearest_spec (f : nat) (m : positive) (e : Z) :
  nearest_scaled f (scaled_nearest f m e) m e.
Proof.
  unfold nearest_scaled, scaled_nearest.
  destruct (0 <=? e) eqn:He; [reflexivity|].
  apply Z.leb_gt in He.
  assert (Hd : 0 < 2 ^ (- e)) by (apply Z.pow_pos_nonneg; lia).
  set (d := 2 ^ (- e)) in *. set (num := Z.pos m * 10 ^ Z.of_nat f).
  pose proof (Z.div_mod (2 * num + d) (2 * d) ltac:(lia)) as Hdm.
  pose proof (Z.mod_pos_bound (2 * num + d) (2 * d) ltac:(lia)) as Hb.
  nia.
Qed.

Lemma pad_fraction_shape (f : nat) (digits : jstr) :
  f <> 0%nat ->
  exists whole frac k,
    pad_fraction f digits = whole ++ str "." ++ frac /\
    List.length frac = f /\ whole <> [] /\
    whole ++ frac = repeat 48%N k ++ digits.
Proof.
  intros Hf. destruct f as [|f']; [now elim Hf|].
  unfold pad_fraction.
  set (padded := if (List.length digits <=? S f')%nat
                 then repeat 48%N (S f' + 1 - List.length digits) ++ digits
                 else digits).
  assert (Hlen : (S f' < List.length padded)%nat).
  { unfold padded. destruct (Nat.leb_spec (List.length digits) (S f')).
    - rewrite length_app, repeat_length. lia.
    - assumption. }
  exists (firstn (List.length padded - S f') padded),
         (skipn (List.length padded - S f') padded),
         (if (List.length digits <=? S f')%nat then (S f' + 1 - List.length digits)%nat
          else 0%nat).
  repeat split.
  - rewrite length_skipn. lia.
  - intros H. apply (f_equal (@List.length N)) in H.
    rewrite length_firstn in H. simpl in H. lia.
  - rewrite firstn_skipn. unfold padded.
    now destruct (List.length digits <=? S f')%nat.
Qed.

(** The total of an order is shown in dollars with exactly two decimals: a
    zero total as [$0.00]; a finite total [m * 2^e] below 10^21 as the dollar
    sign, a minus sign when it is negative, at least one digit, the point
    and two digits, the digits being those of the integer nearest to a
    hundred times the total.  The card of the results panel shows the same
    text as the row of the chat table. *)
Theorem total_two_decimals (r : ResponseEnvelope) (order : Order) :
  (forall s, Prim2SF (total order) = S754_zero s ->
             Message.total_cell (Message.render_row order) = Some (str "$0.00")) /\
  (forall s m e,
     Prim2SF (total order) = S754_finite s m e ->
     at_least_1e21 m e = false ->
     exists n whole cents k,
       Message.total_cell (Message.render_row order) =
         Some (str "$" ++ (if s then str "-" else []) ++ whole ++ str "." ++ cents) /\
       List.length cents = 2%nat /\ whole <> [] /\
       whole ++ cents = repeat 48%N k ++ Number_toString n /\
       nearest_scaled 2 n m e) /\
  ResultsPanel.card_total (ResultsPanel.render_card r order) =
    Message.total_cell (Message.render_row order).
Proof.
  cbn [Message.render_row Message.total_cell ResultsPanel.render_card
         ResultsPanel.card_total].
  unfold Number_toFixed. split; [|split; [|reflexivity]].
  - intros s Hz. now rewrite Hz.
  - intros s m e Hx Hb. rewrite Hx, Hb.
    destruct (pad_fraction_shape 2 (Number_toString (scaled_nearest 2 m e)))
      as (whole & cents & k & Hp & Hl & Hw & Hd); [discriminate|].
    exists (scaled_nearest 2 m e), whole, cents, k.
    rewrite Hp. cbn [option_map]. repeat split; try assumption.
    apply scaled_nearest_spec.
Qed.

Lemma total_two_decimals_witness :
  exists n whole cents k,
    Message.total_cell (Message.render_row order_1) =
      Some (str "$" ++ [] ++ whole ++ str "." ++ cents) /\
    List.length cents = 2%nat /\ whole <> [] /\
    whole ++ cents = repeat 48%N k ++ Number_toString n /\
    nearest_scaled 2 n 6333186975989760 (-47).
Proof.
  apply (proj1 (proj2 (total_two_decimals two_orders order_1)) false
           6333186975989760%positive (-47)).
  - reflexivity.
  - reflexivity.
Defined.

Example total_cells :
  map (fun o => Message.total_cell (Message.render_row o)) (orders two_orders) =
  [Some (str "$120.00"); Some (str "$45.00")].
Proof. vm_compute. reflexivity. Qed.

(** ** The stats panel: colours and failures *)

Lemma bar_colours_differ :
  str "bg-success" <> str "bg-accent" /\ str "bg-success" <> str "bg-warning" /\
  str "bg-accent" <> str "bg-warning".
Proof.
  repeat split; intros H; vm_compute in H; discriminate H.
Qed.

Lemma stateBarColor_thresholds (rate : Q) :
  (StatsPanel.stateBarColor rate = str "bg-success" <-> (60 <= rate)%Q) /\
  (StatsPanel.stateBarColor rate = str "bg-accent" <-> (45 <= rate)%Q /\ (rate < 60)%Q) /\
  (StatsPanel.stateBarColor rate = str "bg-warning" <-> (rate < 45)%Q).
Proof.
  destruct bar_colours_differ as (D1 & D2 & D3).
  unfold StatsPanel.stateBarColor.
  destruct (Qle_bool 60 rate) eqn:E60.
  - apply Qle_bool_iff in E60.
    split; [split; intros _; [exact E60 | reflexivity]|].
    split; split; intros H.
    + now elim D1.
    + lra.
    + now elim D2.
    + lra.
  - assert (H60 : (rate < 60)%Q).
    { apply Qnot_le_lt. intros Hle. apply Qle_bool_iff in Hle. congruence. }
    destruct (Qle_bool 45 rate) eqn:E45.
    + apply Qle_bool_iff in E45.
      split; [split; intros H; [symmetry in H; now elim D1 | lra]|].
      split; [split; intros _; [now split | reflexivity]|].
      split; intros H; [now elim D3 | lra].
    + assert (H45 : (rate < 45)%Q).
      { apply Qnot_le_lt. intros Hle. apply Qle_bool_iff in Hle. congruence. }
      split; [split; intros H; [symmetry in H; now elim D2 | lra]|].
      split; [split; intros H; [symmetry in H; now elim D3 | lra]|].
      split; intros _; [exact H45 | reflexivity].
Qed.

(** The colour of a state's bar is decided by its rate: green from 60 up,
    the accent colour from 45 up to but not including 60, amber below 45.
    As the rows are sorted by descending rate, the colours come in blocks:
    no green bar below a bar of another colour, no amber bar above one. *)
Theorem state_bars_grouped (s : StatsPanel.Stats) (rates : list (jstr * Q)) :
  StatsPanel.state_reorder_rates s = Some rates ->
  exists rows,
    StatsPanel.state_rows (StatsPanel.render_stats s) = Some rows /\
    List.length rows = List.length rates /\
    Forall (fun row =>
              (StatsPanel.state_bar row = str "bg-success" <->
               (60 <= StatsPanel.state_rate row)%Q) /\
              (StatsPanel.state_bar row = str "bg-accent" <->
               (45 <= StatsPanel.state_rate row)%Q /\ (StatsPanel.state_rate row < 60)%Q) /\
              (StatsPanel.state_bar row = str "bg-warning" <->
               (StatsPanel.state_rate row < 45)%Q))
           rows /\
    StronglySorted
      (fun above below =>
         (StatsPanel.state_bar below = str "bg-success" ->
          StatsPanel.state_bar above = str "bg-success") /\
         (StatsPanel.state_bar above = str "bg-warning" ->
          StatsPanel.state_bar below = str "bg-warning"))
      rows.
Proof.
  intros Hr. unfold StatsPanel.render_stats. cbn [StatsPanel.state_rows].
  rewrite Hr. cbn [option_map]. eexists. split; [reflexivity|]. split; [|split].
  - now rewrite length_map, Array_sort_length.
  - apply Forall_map, Forall_forall. intros kv _.
    apply stateBarColor_thresholds.
  - apply StronglySorted_map.
    eapply StronglySorted_impl; [|apply sort_by_value_desc_sorted].
    intros x y Hxy. unfold descending_values in Hxy.
    cbn [StatsPanel.render_state_row StatsPanel.state_bar].
    destruct (stateBarColor_thresholds (snd x)) as (Sx & _ & Wx).
    destruct (stateBarColor_thresholds (snd y)) as (Sy & _ & Wy).
    split; intros H.
    + apply Sx. apply Sy in H. lra.
    + apply Wy. apply Wx in H. lra.
Qed.

Lemma state_bars_grouped_witness :
  exists rows,
    StatsPanel.state_rows (StatsPanel.render_stats sample_stats) = Some rows /\
    List.length rows = 3%nat /\
    Forall (fun row =>
              (StatsPanel.state_bar row = str "bg-success" <->
               (60 <= StatsPanel.state_rate row)%Q) /\
              (StatsPanel.state_bar row = str "bg-accent" <->
               (45 <= StatsPanel.state_rate row)%Q /\ (StatsPanel.state_rate row < 60)%Q) /\
              (StatsPanel.state_bar row = str "bg-warning" <->
               (StatsPanel.state_rate row < 45)%Q))
           rows /\
    StronglySorted
      (fun above below =>
         (StatsPanel.state_bar below = str "bg-success" ->
          StatsPanel.state_bar above = str "bg-success") /\
         (StatsPanel.state_bar above = str "bg-warning" ->
          StatsPanel.state_bar below = str "bg-warning"))
      rows.
Proof.
  apply (state_bars_grouped sample_stats
           [(str "TX", 55 # 1); (str "OH", 62 # 1); (str "NY", 41 # 1)]).
  reflexivity.
Defined.

(** After the request made on mount has settled the panel never shows the
    spinner.  A failure with a message shows that message in the error card:
    [API error: ] and the status for a response that is not ok, the message
    of [fetch] when no response arrived.  A failure whose message is empty
    passes the [if (error)] test, and the render that follows throws on the
    [stats] that were never set. *)
Theorem stats_panel_after_mount (net : Network StatsPanel.Stats) :
  StatsPanel.loading (fst (StatsPanel.on_mount net StatsPanel.initial)) = false /\
  StatsPanel.StatsPanel (fst (StatsPanel.on_mount net StatsPanel.initial)) <>
    Some StatsPanel.Spinner /\
  snd (StatsPanel.on_mount net StatsPanel.initial) = [stats_request] /\
  (forall e, snd (Api.getStats net) = inl e ->
     (message e <> [] ->
      StatsPanel.StatsPanel (fst (StatsPanel.on_mount net StatsPanel.initial)) =
        Some (StatsPanel.ErrorCard (message e))) /\
     (message e = [] ->
      StatsPanel.StatsPanel (fst (StatsPanel.on_mount net StatsPanel.initial)) = None)) /\
  (forall res, net stats_request = inr res -> ~ (200 <= status res <= 299) ->
     StatsPanel.StatsPanel (fst (StatsPanel.on_mount net StatsPanel.initial)) =
       Some (StatsPanel.ErrorCard (str "API error: " ++ Number_toString (status res)))) /\
  (forall m, net stats_request = inl m -> m <> [] ->
     StatsPanel.StatsPanel (fst (StatsPanel.on_mount net StatsPanel.initial)) =
       Some (StatsPanel.ErrorCard m)).
Proof.
  assert (Hfail : forall e, snd (Api.getStats net) = inl e ->
            fst (StatsPanel.on_mount net StatsPanel.initial) =
              StatsPanel.mkState None false (Some (message e))).
  { intros e He. unfold StatsPanel.on_mount.
    destruct (Api.getStats net) as [log out]. simpl in He. now rewrite He. }
  assert (Hcard : forall e, snd (Api.getStats net) = inl e -> message e <> [] ->
            StatsPanel.StatsPanel (fst (StatsPanel.on_mount net StatsPanel.initial)) =
              Some (StatsPanel.ErrorCard (message e))).
  { intros e He Hm. rewrite (Hfail e He). unfold StatsPanel.StatsPanel.
    cbn [StatsPanel.loading StatsPanel.error].
    destruct (message e); [now elim Hm | reflexivity]. }
  split; [|split; [|split; [|split; [|split]]]].
  - unfold StatsPanel.on_mount. destruct (Api.getStats net) as [log [e|s]]; reflexivity.
  - unfold StatsPanel.on_mount, StatsPanel.StatsPanel.
    destruct (Api.getStats net) as [log [e|s]]; cbn [fst StatsPanel.loading StatsPanel.error
      StatsPanel.stats StatsPanel.initial StatsPanel.render_loaded].
    + destruct (truthy (message e)); discriminate.
    + destruct (StatsPanel.invalid_child _); discriminate.
  - unfold StatsPanel.on_mount. rewrite getStats_run. reflexivity.
  - intros e He. split; [now apply Hcard|].
    intros Hm. rewrite (Hfail e He). unfold StatsPanel.StatsPanel.
    cbn [StatsPanel.loading StatsPanel.error StatsPanel.stats]. now rewrite Hm.
  - intros res Hnet Hbad.
    assert (He : snd (Api.getStats net) = inl (api_error res)).
    { rewrite getStats_run. cbn [snd]. rewrite Hnet. now apply settle_response_error. }
    rewrite (Hcard _ He); [reflexivity|]. discriminate.
  - intros m Hnet Hm.
    assert (He : snd (Api.getStats net) = inl (TypeError m)).
    { rewrite getStats_run. cbn [snd]. now rewrite Hnet. }
    now rewrite (Hcard _ He).
Qed.

Lemma stats_panel_after_mount_witness :
  StatsPanel.StatsPanel
    (fst (StatsPanel.on_mount (answering 503 (inl (str "Service Unavailable")))
            StatsPanel.initial)) =
  Some (StatsPanel.ErrorCard (str "API error: 503")).
Proof.
  apply (proj1 (proj2 (proj2 (proj2 (proj2
           (stats_panel_after_mount (answering 503 (inl (str "Service Unavailable")))))))))
    with (res := mkResponse 503 (inl (str "Service Unavailable"))).
  - reflexivity.
  - simpl. lia.
Defined.

(** ** The right pane *)

(** The right pane follows the answers only.  An event that ends in a call
    of [onResult], whether the envelope reports success or failure, makes
    that envelope the latest result and selects the results tab, whatever
    tab was selected.  Any other event, a rejected request among them, leaves
    the latest result and the selected tab as they were. *)
Theorem right_pane_follows_answers (ev : Event) (net : Network ResponseEnvelope)
    (st : ChatPanel.State) :
  (forall r, In (OnResult r) (snd (dispatch ev net st)) ->
     latestResult (fst (dispatch ev net st)) = Some r /\
     rightTab (fst (dispatch ev net st)) = results) /\
  ((forall r, ~ In (OnResult r) (snd (dispatch ev net st))) ->
     latestResult (fst (dispatch ev net st)) = latestResult st /\
     rightTab (fst (dispatch ev net st)) = rightTab st).
Proof.
  rewrite dispatch_split.
  destruct (dispatch_begin ev st) as [[q st1]|] eqn:E.
  - apply dispatch_begin_some in E. destruct E as [query E].
    apply handleSubmit_begin_some in E.
    destruct E as (_ & _ & _ & _ & Hr & Ht & _).
    destruct (snd (Api.queryAgent q net)) as [err|r]; cbn [fst snd handleSubmit_settle].
    + split.
      * intros r [H|[]]. discriminate.
      * intros _. now split.
    + split.
      * intros r' [H|[H|[]]]; [discriminate|]. injection H as <-. now split.
      * intros H. elim (H r). right. now left.
  - split; [intros r [] | now split].
Qed.

Lemma right_pane_follows_answers_witness :
  latestResult (fst (dispatch ClickSend (answering 200 (inr source_unavailable))
                       (mkState [] (Some two_orders) false stats (str "Orders under $100")))) =
    Some source_unavailable /\
  rightTab (fst (dispatch ClickSend (answering 200 (inr source_unavailable))
                   (mkState [] (Some two_orders) false stats (str "Orders under $100")))) =
    results.
Proof.
  apply (proj1 (right_pane_follows_answers ClickSend (answering 200 (inr source_unavailable))
                  (mkState [] (Some two_orders) false stats (str "Orders under $100")))).
  right. now left.
Defined.

(** ** A failure without a message *)

(** When a failed envelope has no [error] member, the template of the chat
    message prints the missing value: the assistant's text is
    [Error: undefined], while the error card of the results panel is left
    without text. *)
Theorem failure_without_error (query : option jstr) (net : Network ResponseEnvelope)
    (st : ChatPanel.State) (q : jstr) (st1 : ChatPanel.State) (r : ResponseEnvelope) :
  handleSubmit_begin query st = Some (q, st1) ->
  snd (Api.queryAgent q net) = inr r ->
  success r = false ->
  error r = None ->
  messages (fst (handleSubmit query net st)) =
    messages st ++
    [user_message q; Message.mkProps (str "assistant") (str "Error: undefined") (Some r)] /\
  forall tab,
    ResultsPanel.ResultsPanel (latestResult (fst (handleSubmit query net st))) tab =
      ResultsPanel.ErrorCard [].
Proof.
  intros Hb Hr Hs He.
  destruct (handleSubmit_resolved query net st q st1 r Hb Hr) as (Hm & Hl & _).
  rewrite Hm, Hl. unfold summary. rewrite Hs, He. split; [reflexivity|].
  intros tab. unfold ResultsPanel.ResultsPanel. now rewrite Hs, He.
Qed.

(** A failure envelope that carries no message. *)
Definition bare_failure : ResponseEnvelope :=
  mkEnvelope false 0 0 None [] None None None.

Lemma failure_without_error_witness :
  messages (fst (handleSubmit None (answering 200 (inr bare_failure))
                   (idle (str "Orders under $100")))) =
    [user_message (str "Orders under $100");
     Message.mkProps (str "assistant") (str "Error: undefined") (Some bare_failure)].
Proof.
  apply (failure_without_error None (answering 200 (inr bare_failure))
           (idle (str "Orders under $100")) (str "Orders under $100")
           (mkState [user_message (str "Orders under $100")] None true results [])
           bare_failure);
    reflexivity.
Defined.
